(** * AnalizadorREDIS: lexer, parser and semantic analyzer of Redis commands

    A shallow embedding of the three analysis stages of the backend
    ([lexer], [parser], [semantic]) and the properties of them that the
    specification states.

    Go strings are byte sequences: they are Rocq [string]s, a byte being an
    [ascii].  Go's [int] fields that only count upwards from zero
    ([position], [readPosition]) are [nat]; the ones that are computed by
    subtraction ([Line], [Column], token [Position]) and [int64] values
    are [Z].  A Go [map] is a [gmap]. *)

From Stdlib Require Import ZArith List Ascii String Bool Lia.
From Stdlib Require Import SpecFloat.
From stdpp Require Import base option list gmap strings.

Local Open Scope string_scope.
Local Open Scope char_scope.
Local Open Scope Z_scope.
Local Open Scope nat_scope.
Local Open Scope list_scope.
Local Open Scope stdpp_scope.

(** ** Outcomes of running the Go code

    [Ok] is a normal return.  [Panic] is a Go run-time panic (the lexer can
    slice its input out of range).  [OutOfFuel] only exists in the model:
    loops carry a fuel argument, and the totality theorems below show that
    the fuel the entry points supply is never exhausted. *)

Inductive Res (A : Type) : Type :=
| Ok (a : A)
| Panic
| OutOfFuel.
Arguments Ok {A} a.
Arguments Panic {A}.
Arguments OutOfFuel {A}.

#[global] Instance Res_ret : MRet Res := fun _ a => Ok a.
#[global] Instance Res_bind : MBind Res := fun _ _ k m =>
  match m with
  | Ok a => k a
  | Panic => Panic
  | OutOfFuel => OutOfFuel
  end.

(** ** Bytes and the library functions the code calls *)

Definition NUL : ascii := "000".
Definition LF : ascii := "010".
Definition TAB : ascii := "009".
Definition CR : ascii := "013".
Definition DQUOTE : ascii := "034".
Definition SQUOTE : ascii := "039".
Definition BACKSLASH : ascii := "\".

(** Comparison of bytes by their code, as Go's [<=] on [byte]. *)
Definition byte_le (a b : ascii) : bool := (nat_of_ascii a <=? nat_of_ascii b)%nat.

(** [string(ch)] for a byte [ch]: the UTF-8 encoding of the code point
    of that number, one byte below 0x80 and two bytes from 0x80 on. *)
Definition string_of_byte (c : ascii) : string :=
  if (nat_of_ascii c <? 128)%nat then String c EmptyString
  else String (ascii_of_nat (192 + nat_of_ascii c / 64))
         (String (ascii_of_nat (128 + nat_of_ascii c mod 64)) EmptyString).

(** [s[i]] for an index already checked to be in range. *)
Definition byte_at (s : string) (i : nat) : ascii :=
  match String.get i s with
  | Some c => c
  | None => NUL
  end.

(** [s[a:b]]: panics unless [a <= b <= len(s)]. *)
Definition slice (s : string) (a b : nat) : Res string :=
  if (a <=? b)%nat && (b <=? String.length s)%nat
  then Ok (String.substring a (b - a) s)
  else Panic.

(** [strings.ToUpper] on text of bytes below 0x80, the text of the words
    the lexer reads.  Bytes from 0x80 on stay as they are here; Go maps
    the letters they encode and replaces invalid UTF-8, so text that may
    hold such bytes is ruled out where it matters ([asciiText]). *)
Definition upper_byte (c : ascii) : ascii :=
  if byte_le "a" c && byte_le c "z"
  then ascii_of_nat (nat_of_ascii c - 32)
  else c.

Fixpoint ToUpper (s : string) : string :=
  match s with
  | EmptyString => EmptyString
  | String c s' => String (upper_byte c) (ToUpper s')
  end.

(** [strings.Contains(s, string(c))]. *)
Fixpoint Contains (s : string) (c : ascii) : bool :=
  match s with
  | EmptyString => false
  | String d s' => Ascii.eqb d c || Contains s' c
  end.

(** Decimal digits of a non-negative integer, most significant first. *)
Definition digit_char (d : Z) : ascii := ascii_of_nat (48 + Z.to_nat d).

Fixpoint utoa_loop (fuel : nat) (n : Z) (acc : string) : string :=
  match fuel with
  | O => acc
  | S f =>
      let acc' := String (digit_char (n mod 10)) acc in
      if (n <? 10)%Z then acc' else utoa_loop f (n / 10) acc'
  end.

Definition utoa (n : Z) : string :=
  utoa_loop (S (Z.to_nat (Z.log2 n))) n EmptyString.

(** [fmt.Sprintf("%d", v)]. *)
Definition itoa (v : Z) : string :=
  if (v <? 0)%Z then String "-" (utoa (- v)) else utoa v.

(** [isLetter] and [isDigit] of the lexer (lexer.go). *)
Definition isLetter (ch : ascii) : bool :=
  byte_le "a" ch && byte_le ch "z" || byte_le "A" ch && byte_le ch "Z"
  || Ascii.eqb ch "_".

Definition isDigit (ch : ascii) : bool := byte_le "0" ch && byte_le ch "9".

(** Digits of [s] read in base [base], continuing from [acc]; fails on a
    byte that is not a digit of that base. *)
Fixpoint parse_digits (base : Z) (s : string) (acc : Z) : option Z :=
  match s with
  | EmptyString => Some acc
  | String c s' =>
      let d := Z.of_nat (nat_of_ascii c - 48) in
      if isDigit c && (d <? base)%Z
      then parse_digits base s' (acc * base + d)%Z
      else None
  end.

(** [strconv.ParseInt(s, 0, 64)] on the texts the lexer hands over: an
    optional sign and decimal digits.  With base 0 a leading [0] makes the
    rest octal; a value outside [int64] is an error.  [None] is a non-nil
    [err]. *)
Definition ParseInt (s : string) : option Z :=
  match s with
  | EmptyString => None
  | String c s' =>
      let neg := Ascii.eqb c "-" in
      let body := if Ascii.eqb c "+" || neg then s' else s in
      let un :=
        match body with
        | EmptyString => None
        | String d body' =>
            if Ascii.eqb d "0" then parse_digits 8 body' 0
            else parse_digits 10 body 0
        end in
      match un with
      | None => None
      | Some u =>
          if neg
          then if (u <=? 2 ^ 63)%Z then Some (- u)%Z else None
          else if (u <? 2 ^ 63)%Z then Some u else None
      end
  end.

(** A [float64] is an IEEE 754 binary64 value. *)
Definition float64 : Type := spec_float.

(** Splits [s] at its first ['.']. *)
Fixpoint split_dot (s : string) : string * option string :=
  match s with
  | EmptyString => (EmptyString, None)
  | String c s' =>
      if Ascii.eqb c "." then (EmptyString, Some s')
      else let '(a, b) := split_dot s' in (String c a, b)
  end.

(** [strconv.ParseFloat(s, 64)] on the texts the lexer hands over: an
    optional ['-'], digits, ['.'], digits.  The decimal value is rounded to
    the nearest binary64, ties to even; a value that rounds to infinity is
    an error. *)
Definition ParseFloat (s : string) : option float64 :=
  let neg := match s with String c _ => Ascii.eqb c "-" | _ => false end in
  let body := match s with String c s' => if Ascii.eqb c "-" then s' else s | _ => s end in
  match split_dot body with
  | (String c ip, Some (String d fp)) =>
      match parse_digits 10 (String c ip +:+ String d fp) 0 with
      | None => None
      | Some n =>
          let k := Z.of_nat (String.length (String d fp)) in
          let v :=
            if (n =? 0)%Z then S754_zero neg
            else
              let '(m, e, l) := SFdiv_core_binary 53 1024 n 0 (10 ^ k) 0 in
              binary_round_aux 53 1024 neg m e l in
          match v with
          | S754_infinity _ => None
          | _ => Some v
          end
      end
  | _ => None
  end.

(** [n / d] rounded to the nearest integer, ties to even ([0 < d]). *)
Definition div_half_even (n d : Z) : Z :=
  let q := (n / d)%Z in
  let r := (n mod d)%Z in
  match (2 * r ?= d)%Z with
  | Lt => q
  | Gt => (q + 1)%Z
  | Eq => if Z.even q then q else (q + 1)%Z
  end.

(** Six decimal digits of [n < 10^6], zero-padded. *)
Definition pad6 (n : Z) : string :=
  let s := utoa n in
  String.substring 0 (6 - String.length s) "000000" +:+ s.

(** [fmt.Sprintf("%f", v)]: the exact value rounded to six decimals. *)
Definition FormatFloat (v : float64) : string :=
  match v with
  | S754_zero s => (if s then "-" else "") +:+ "0.000000"
  | S754_infinity s => if s then "-Inf" else "+Inf"
  | S754_nan => "NaN"
  | S754_finite s m e =>
      let num := (Zpos m * 10 ^ 6)%Z in
      let N := if (0 <=? e)%Z then (num * 2 ^ e)%Z
               else div_half_even num (2 ^ (- e)) in
      (if s then "-" else "") +:+ utoa (N / 10 ^ 6) +:+ "." +:+ pad6 (N mod 10 ^ 6)
  end.

(** ** Package lexer (token.go, lexer.go) *)

Module lexer.

Inductive TokenType : Type :=
| ILLEGAL | EOF
| IDENT | STRING | INT | FLOAT
| SPACE | NEWLINE
| ASTERISK | QUESTION | BRACKET_L | BRACKET_R | PAREN_L | PAREN_R
| COMMA | COLON | PIPE | PLUS | MINUS
| EX | PX | NX | XX | WITHSCORES | LIMIT | COUNT | MATCH | TYPE.

#[global] Instance TokenType_eq_dec : EqDecision TokenType.
Proof. solve_decision. Defined.

Record Token : Type := mkToken {
  Type_ : TokenType;
  Literal : string;
  Position : Z;
  Line : Z;
  Column : Z
}.

(** [TokenType.String]. *)
Definition TokenType_String (tt : TokenType) : string :=
  match tt with
  | ILLEGAL => "ILLEGAL" | EOF => "EOF"
  | IDENT => "IDENT" | STRING => "STRING" | INT => "INT" | FLOAT => "FLOAT"
  | SPACE => "SPACE" | NEWLINE => "NEWLINE"
  | ASTERISK => "ASTERISK" | QUESTION => "QUESTION"
  | BRACKET_L => "BRACKET_L" | BRACKET_R => "BRACKET_R"
  | PAREN_L => "PAREN_L" | PAREN_R => "PAREN_R"
  | COMMA => "COMMA" | COLON => "COLON" | PIPE => "PIPE"
  | PLUS => "PLUS" | MINUS => "MINUS"
  | EX => "EX" | PX => "PX" | NX => "NX" | XX => "XX"
  | WITHSCORES => "WITHSCORES" | LIMIT => "LIMIT" | COUNT => "COUNT"
  | MATCH => "MATCH" | TYPE => "TYPE"
  end.

(** The [keywords] map. *)
Definition keywords : gmap string TokenType :=
  <["EX" := EX]> (<["PX" := PX]> (<["NX" := NX]> (<["XX" := XX]>
  (<["WITHSCORES" := WITHSCORES]> (<["LIMIT" := LIMIT]> (<["COUNT" := COUNT]>
  (<["MATCH" := MATCH]> (<["TYPE" := TYPE]> ∅)))))))).

Definition LookupIdent (ident : string) : TokenType :=
  match keywords !! ident with
  | Some tok => tok
  | None => IDENT
  end.

Record Lexer : Type := mkLexer {
  input : string;
  position : nat;
  readPosition : nat;
  ch : ascii;
  line : Z;
  column : Z
}.

Definition readChar (l : Lexer) : Lexer :=
  let c := if (String.length (input l) <=? readPosition l)%nat then NUL
           else byte_at (input l) (readPosition l) in
  {| input := input l;
     position := readPosition l;
     readPosition := readPosition l + 1;
     ch := c;
     line := if Ascii.eqb c LF then (line l + 1)%Z else line l;
     column := if Ascii.eqb c LF then 0%Z else (column l + 1)%Z |}.

Definition New (input : string) : Lexer :=
  readChar {| input := input; position := 0; readPosition := 0; ch := NUL;
              line := 1; column := 0 |}.

Definition peekChar (l : Lexer) : ascii :=
  if (String.length (input l) <=? readPosition l)%nat then NUL
  else byte_at (input l) (readPosition l).

Definition newToken (l : Lexer) (tokenType : TokenType) (c : ascii) : Token :=
  {| Type_ := tokenType; Literal := string_of_byte c;
     Position := Z.of_nat (position l); Line := line l; Column := column l |}.

(** [for cond(l.ch) { l.readChar() }].  A loop of the lexer stops at the
    latest on the NUL that stands for the end of the input, so the length
    of the input bounds its iterations. *)
Fixpoint readWhile (fuel : nat) (cond : ascii -> bool) (l : Lexer) : Res Lexer :=
  match fuel with
  | O => OutOfFuel
  | S f => if cond (ch l) then readWhile f cond (readChar l) else Ok l
  end.

Definition loop_fuel (l : Lexer) : nat := S (S (String.length (input l))).

Definition skipWhitespace (l : Lexer) : Res Lexer :=
  readWhile (loop_fuel l)
    (fun c => Ascii.eqb c " " || Ascii.eqb c TAB || Ascii.eqb c CR) l.

Definition readIdentifier (l : Lexer) : Res (string * Lexer) :=
  let position0 := position l in
  l ← readWhile (loop_fuel l)
        (fun c => isLetter c || isDigit c || Ascii.eqb c "_" || Ascii.eqb c "-") l;
  r ← slice (input l) position0 (position l);
  Ok (r, l).

Definition readNumber (l : Lexer) : Res (string * Lexer) :=
  let position0 := position l in
  let l := if Ascii.eqb (ch l) "-" then readChar l else l in
  l ← readWhile (loop_fuel l) isDigit l;
  l ← (if Ascii.eqb (ch l) "." && isDigit (peekChar l)
       then readWhile (loop_fuel l) isDigit (readChar l)
       else Ok l);
  r ← slice (input l) position0 (position l);
  Ok (r, l).

(** The loop of [readString] and of [readSingleQuoteString], which differ
    in the quote [q] only. *)
Fixpoint readQuoted_loop (fuel : nat) (q : ascii) (l : Lexer) : Res Lexer :=
  match fuel with
  | O => OutOfFuel
  | S f =>
      let l := readChar l in
      if Ascii.eqb (ch l) q || Ascii.eqb (ch l) NUL then Ok l
      else if Ascii.eqb (ch l) BACKSLASH then
        let l := readChar l in
        let l := if negb (Ascii.eqb (ch l) NUL) then readChar l else l in
        readQuoted_loop f q l
      else readQuoted_loop f q l
  end.

Definition readQuoted (q : ascii) (l : Lexer) : Res (string * Lexer) :=
  let position0 := position l + 1 in
  l ← readQuoted_loop (loop_fuel l) q l;
  result ← slice (input l) position0 (position l);
  let l := if Ascii.eqb (ch l) q then readChar l else l in
  Ok (result, l).

Definition readString : Lexer -> Res (string * Lexer) := readQuoted DQUOTE.
Definition readSingleQuoteString : Lexer -> Res (string * Lexer) := readQuoted SQUOTE.

(** The tail of [NextToken] for a one-byte token: [l.readChar(); return tok]. *)
Definition single (l : Lexer) (tokenType : TokenType) : Res (Token * Lexer) :=
  Ok (newToken l tokenType (ch l), readChar l).

(** The two places of [NextToken] that read a number. *)
Definition numberToken (l : Lexer) : Res (Token * Lexer) :=
  '(lit, l) ← readNumber l;
  let ty := if Contains lit "." then FLOAT else INT in
  Ok ({| Type_ := ty; Literal := lit;
         Position := Z.of_nat (position l) - Z.of_nat (String.length lit);
         Line := line l;
         Column := column l - Z.of_nat (String.length lit) |}, l).

Definition stringToken (read : Lexer -> Res (string * Lexer)) (l : Lexer)
  : Res (Token * Lexer) :=
  let startPos := position l in
  '(lit, l) ← read l;
  Ok ({| Type_ := STRING; Literal := lit;
         Position := Z.of_nat startPos;
         Line := line l;
         Column := column l - Z.of_nat (String.length lit) - 2 |}, l).

Definition NextToken (l : Lexer) : Res (Token * Lexer) :=
  l ← skipWhitespace l;
  let c := ch l in
  if Ascii.eqb c "*" then single l ASTERISK
  else if Ascii.eqb c "?" then single l QUESTION
  else if Ascii.eqb c "[" then single l BRACKET_L
  else if Ascii.eqb c "]" then single l BRACKET_R
  else if Ascii.eqb c "(" then single l PAREN_L
  else if Ascii.eqb c ")" then single l PAREN_R
  else if Ascii.eqb c "," then single l COMMA
  else if Ascii.eqb c ":" then single l COLON
  else if Ascii.eqb c "|" then single l PIPE
  else if Ascii.eqb c "+" then single l PLUS
  else if Ascii.eqb c "-" then
    if isDigit (peekChar l) then numberToken l else single l MINUS
  else if Ascii.eqb c DQUOTE then stringToken readString l
  else if Ascii.eqb c SQUOTE then stringToken readSingleQuoteString l
  else if Ascii.eqb c LF then single l NEWLINE
  else if Ascii.eqb c NUL then
    Ok ({| Type_ := EOF; Literal := EmptyString;
           Position := Z.of_nat (position l); Line := line l;
           Column := column l |}, readChar l)
  else if isLetter c then
    '(lit, l) ← readIdentifier l;
    Ok ({| Type_ := LookupIdent (ToUpper lit); Literal := lit;
           Position := Z.of_nat (position l) - Z.of_nat (String.length lit);
           Line := line l;
           Column := column l - Z.of_nat (String.length lit) |}, l)
  else if isDigit c then numberToken l
  else single l ILLEGAL.

(** [TokenizeCommand] and [GetAllTokens]: every token up to and including
    the first EOF. *)
Fixpoint TokenizeCommand_loop (fuel : nat) (l : Lexer) (tokens : list Token)
  : Res (list Token) :=
  match fuel with
  | O => OutOfFuel
  | S f =>
      '(tok, l) ← NextToken l;
      if decide (Type_ tok = EOF) then Ok (tokens ++ [tok])
      else if decide (Type_ tok <> SPACE)
           then TokenizeCommand_loop f l (tokens ++ [tok])
           else TokenizeCommand_loop f l tokens
  end.

Definition TokenizeCommand (l : Lexer) : Res (list Token) :=
  TokenizeCommand_loop (loop_fuel l) l [].

Definition GetAllTokens (input : string) : Res (list Token) :=
  TokenizeCommand (New input).

End lexer.

(** ** Package parser (ast.go, parser.go) *)

Module parser.

(** The node types of ast.go.  An [Expression] or [Statement] of Go is an
    interface value holding a pointer to one of them, and that pointer can
    be nil: a function that returns a nil [*IntegerLiteral] as an
    [Expression] returns an interface value that is not [nil]. *)
Inductive NodeType : Type :=
| TIdentifier | TStringLiteral | TIntegerLiteral | TFloatLiteral
| TKeywordExpression | TPatternExpression | TRangeExpression
| TOptionExpression.

#[global] Instance NodeType_eq_dec : EqDecision NodeType.
Proof. solve_decision. Defined.

Record Identifier : Type := mkIdentifier {
  Token : lexer.Token;
  Value : string
}.

(** A non-nil [Expression].  [NilPtr t] is the nil pointer of node type [t]
    held in the interface; the other constructors are pointers to nodes. *)
Inductive Expression : Type :=
| Ident (i : Identifier)
| StringLiteral (Token : lexer.Token) (Value : string)
| IntegerLiteral (Token : lexer.Token) (Value : Z)
| FloatLiteral (Token : lexer.Token) (Value : float64)
| KeywordExpression (Token : lexer.Token) (Value : string)
| PatternExpression (Token : lexer.Token) (Value : string)
| RangeExpression (Start End_ : Expression)
| OptionExpression (Option_ : Expression) (Value : option Expression)
| NilPtr (t : NodeType).

(** Structural induction on expressions, through the optional value of an
    [OptionExpression]. *)
Section Expression_induction.
Variable P : Expression -> Prop.
Hypothesis HIdent : forall i, P (Ident i).
Hypothesis HString : forall t v, P (StringLiteral t v).
Hypothesis HInteger : forall t v, P (IntegerLiteral t v).
Hypothesis HFloat : forall t v, P (FloatLiteral t v).
Hypothesis HKeyword : forall t v, P (KeywordExpression t v).
Hypothesis HPattern : forall t v, P (PatternExpression t v).
Hypothesis HRange : forall s e, P s -> P e -> P (RangeExpression s e).
Hypothesis HOption : forall o v, P o ->
  match v with Some v' => P v' | None => True end -> P (OptionExpression o v).
Hypothesis HNil : forall t, P (NilPtr t).

Fixpoint Expression_induction (e : Expression) : P e :=
  match e with
  | Ident i => HIdent i
  | StringLiteral t v => HString t v
  | IntegerLiteral t v => HInteger t v
  | FloatLiteral t v => HFloat t v
  | KeywordExpression t v => HKeyword t v
  | PatternExpression t v => HPattern t v
  | RangeExpression s e' =>
      HRange s e' (Expression_induction s) (Expression_induction e')
  | OptionExpression o v =>
      HOption o v (Expression_induction o)
        match v with
        | Some v' => Expression_induction v'
        | None => I
        end
  | NilPtr t => HNil t
  end.
End Expression_induction.

Record RedisCommand : Type := mkRedisCommand {
  Command : Identifier;
  Arguments : list Expression
}.

(** A non-nil [Statement]: a [*RedisCommand], nil or not. *)
Inductive Statement : Type :=
| Stmt (cmd : RedisCommand)
| NilRedisCommand.

Record Program : Type := mkProgram {
  Statements : list Statement
}.

Definition NodeType_name (t : NodeType) : string :=
  match t with
  | TIdentifier => "Identifier"
  | TStringLiteral => "StringLiteral"
  | TIntegerLiteral => "IntegerLiteral"
  | TFloatLiteral => "FloatLiteral"
  | TKeywordExpression => "KeywordExpression"
  | TPatternExpression => "PatternExpression"
  | TRangeExpression => "RangeExpression"
  | TOptionExpression => "OptionExpression"
  end.

(** The dynamic type of an expression. *)
Definition Expression_NodeType (e : Expression) : NodeType :=
  match e with
  | Ident _ => TIdentifier
  | StringLiteral _ _ => TStringLiteral
  | IntegerLiteral _ _ => TIntegerLiteral
  | FloatLiteral _ _ => TFloatLiteral
  | KeywordExpression _ _ => TKeywordExpression
  | PatternExpression _ _ => TPatternExpression
  | RangeExpression _ _ => TRangeExpression
  | OptionExpression _ _ => TOptionExpression
  | NilPtr t => t
  end.

(** The [Type()] methods: they return a constant and do not read the
    receiver, so they also answer on a nil pointer. *)
Definition Expression_Type (e : Expression) : string :=
  NodeType_name (Expression_NodeType e).

(** The [String()] methods: they read the receiver's fields, so a nil
    pointer panics. *)
Fixpoint Expression_String (e : Expression) : Res string :=
  match e with
  | Ident i => Ok (Value i)
  | StringLiteral _ v => Ok (String DQUOTE v +:+ String DQUOTE EmptyString)
  | IntegerLiteral _ v => Ok (itoa v)
  | FloatLiteral _ v => Ok (FormatFloat v)
  | KeywordExpression _ v => Ok v
  | PatternExpression _ v => Ok v
  | RangeExpression s e =>
      a ← Expression_String s;
      b ← Expression_String e;
      Ok ("[" +:+ a +:+ ", " +:+ b +:+ "]")
  | OptionExpression o v =>
      match v with
      | Some v =>
          a ← Expression_String o;
          b ← Expression_String v;
          Ok (a +:+ " " +:+ b)
      | None => Expression_String o
      end
  | NilPtr _ => Panic
  end.

(** The loop of [RedisCommand.String]: [i] is the loop index. *)
Fixpoint join_args (i : nat) (args : list Expression) (acc : string) : Res string :=
  match args with
  | [] => Ok acc
  | arg :: rest =>
      let acc := if (0 <? i)%nat then acc +:+ " " else acc in
      a ← Expression_String arg;
      join_args (S i) rest (acc +:+ a)
  end.

Definition RedisCommand_String (rc : RedisCommand) : Res string :=
  args ← join_args 0 (Arguments rc) EmptyString;
  Ok (Value (Command rc) +:+ " " +:+ args).

Definition Statement_String (st : Statement) : Res string :=
  match st with
  | Stmt cmd => RedisCommand_String cmd
  | NilRedisCommand => Panic
  end.

Fixpoint join_stmts (i : nat) (stmts : list Statement) (acc : string) : Res string :=
  match stmts with
  | [] => Ok acc
  | st :: rest =>
      let acc := if (0 <? i)%nat then acc +:+ String LF EmptyString else acc in
      a ← Statement_String st;
      join_stmts (S i) rest (acc +:+ a)
  end.

Definition Program_String (p : Program) : Res string :=
  join_stmts 0 (Statements p) EmptyString.

(** *** The parser *)

Record Parser : Type := mkParser {
  lexer_ : lexer.Lexer;
  curToken : lexer.Token;
  peekToken : lexer.Token;
  errors : list string
}.

(** A method of [*Parser]: it may advance the parser and may panic. *)
Definition M (A : Type) : Type := Parser -> Res (A * Parser).

#[global] Instance M_ret : MRet M := fun _ a p => Ok (a, p).
#[global] Instance M_bind : MBind M := fun _ _ k m p =>
  match m p with
  | Ok (a, p') => k a p'
  | Panic => Panic
  | OutOfFuel => OutOfFuel
  end.

Definition out_of_fuel {A : Type} : M A := fun _ => OutOfFuel.
Definition get_cur : M lexer.Token := fun p => Ok (curToken p, p).
Definition get_peek : M lexer.Token := fun p => Ok (peekToken p, p).

Definition nextToken : M unit := fun p =>
  '(tok, l) ← lexer.NextToken (lexer_ p);
  Ok (tt, {| lexer_ := l; curToken := peekToken p; peekToken := tok;
             errors := errors p |}).

(** The zero value of [lexer.Token]. *)
Definition zeroToken : lexer.Token :=
  {| lexer.Type_ := lexer.ILLEGAL; lexer.Literal := EmptyString;
     lexer.Position := 0; lexer.Line := 0; lexer.Column := 0 |}.

Definition New (l : lexer.Lexer) : Res Parser :=
  '(_, p) ← (_ ← nextToken; nextToken)
     {| lexer_ := l; curToken := zeroToken; peekToken := zeroToken; errors := [] |};
  Ok p.

Definition Errors (p : Parser) : list string := errors p.

Definition addError (msg : string) : M unit := fun p =>
  Ok (tt, {| lexer_ := lexer_ p; curToken := curToken p; peekToken := peekToken p;
             errors := errors p ++
               ["Parser error at line " +:+ itoa (lexer.Line (curToken p)) +:+
                ", column " +:+ itoa (lexer.Column (curToken p)) +:+ ": " +:+ msg] |}).

(** [%q] of a literal made of digits, ['-'] and ['.']: nothing to escape. *)
Definition quote (s : string) : string := String DQUOTE s +:+ String DQUOTE EmptyString.

Definition parseIdentifier : M Expression :=
  tok ← get_cur;
  mret (Ident {| Token := tok; Value := lexer.Literal tok |}).

Definition parseStringLiteral : M Expression :=
  tok ← get_cur;
  mret (StringLiteral tok (lexer.Literal tok)).

Definition parseIntegerLiteral : M Expression :=
  tok ← get_cur;
  match ParseInt (lexer.Literal tok) with
  | None =>
      _ ← addError ("could not parse " +:+ quote (lexer.Literal tok) +:+ " as integer");
      mret (NilPtr TIntegerLiteral)
  | Some value => mret (IntegerLiteral tok value)
  end.

Definition parseFloatLiteral : M Expression :=
  tok ← get_cur;
  match ParseFloat (lexer.Literal tok) with
  | None =>
      _ ← addError ("could not parse " +:+ quote (lexer.Literal tok) +:+ " as float");
      mret (NilPtr TFloatLiteral)
  | Some value => mret (FloatLiteral tok value)
  end.

Definition parseKeywordExpression : M Expression :=
  tok ← get_cur;
  mret (KeywordExpression tok (lexer.Literal tok)).

Definition isPatternPart (t : lexer.TokenType) : bool :=
  match t with
  | lexer.ASTERISK | lexer.QUESTION | lexer.IDENT | lexer.COLON => true
  | _ => false
  end.

Fixpoint parsePatternExpression_loop (fuel : nat) (pattern : string) : M string :=
  match fuel with
  | O => out_of_fuel
  | S f =>
      peek ← get_peek;
      if isPatternPart (lexer.Type_ peek) then
        _ ← nextToken;
        cur ← get_cur;
        parsePatternExpression_loop f (pattern +:+ lexer.Literal cur)
      else mret pattern
  end.

Definition parsePatternExpression (fuel : nat) : M Expression :=
  cur ← get_cur;
  pattern ← parsePatternExpression_loop fuel (lexer.Literal cur);
  cur ← get_cur;
  mret (PatternExpression cur pattern).

(** [parseExpression] returns an [Expression] that may be [nil] ([None]);
    [parseRangeExpression] returns a [*RangeExpression], and its nil is
    [NilPtr TRangeExpression] once it is seen as an [Expression]. *)
Fixpoint parseExpression (fuel : nat) : M (option Expression) :=
  match fuel with
  | O => out_of_fuel
  | S f =>
      cur ← get_cur;
      peek ← get_peek;
      match lexer.Type_ cur with
      | lexer.IDENT =>
          if decide (lexer.Type_ peek = lexer.COLON)
          then e ← parsePatternExpression f; mret (Some e)
          else e ← parseIdentifier; mret (Some e)
      | lexer.STRING => e ← parseStringLiteral; mret (Some e)
      | lexer.INT => e ← parseIntegerLiteral; mret (Some e)
      | lexer.FLOAT => e ← parseFloatLiteral; mret (Some e)
      | lexer.EX | lexer.PX | lexer.NX | lexer.XX | lexer.WITHSCORES
      | lexer.LIMIT | lexer.COUNT | lexer.MATCH | lexer.TYPE =>
          e ← parseKeywordExpression; mret (Some e)
      | lexer.ASTERISK | lexer.QUESTION =>
          e ← parsePatternExpression f; mret (Some e)
      | lexer.BRACKET_L => e ← parseRangeExpression f; mret (Some e)
      | _ =>
          _ ← addError ("unexpected token: " +:+ lexer.TokenType_String (lexer.Type_ cur));
          mret None
      end
  end
with parseRangeExpression (fuel : nat) : M Expression :=
  match fuel with
  | O => out_of_fuel
  | S f =>
      cur ← get_cur;
      if decide (lexer.Type_ cur <> lexer.BRACKET_L) then
        _ ← addError "expected '['"; mret (NilPtr TRangeExpression)
      else
        _ ← nextToken;
        start ← parseExpression f;
        match start with
        | None => mret (NilPtr TRangeExpression)
        | Some start =>
            peek ← get_peek;
            if decide (lexer.Type_ peek <> lexer.COMMA) then
              _ ← addError "expected ',' in range expression";
              mret (NilPtr TRangeExpression)
            else
              _ ← nextToken;
              _ ← nextToken;
              end_ ← parseExpression f;
              match end_ with
              | None => mret (NilPtr TRangeExpression)
              | Some end_ =>
                  peek ← get_peek;
                  if decide (lexer.Type_ peek <> lexer.BRACKET_R) then
                    _ ← addError "expected ']'";
                    mret (NilPtr TRangeExpression)
                  else
                    _ ← nextToken;
                    mret (RangeExpression start end_)
              end
        end
  end.

Definition endsCommand (t : lexer.TokenType) : bool :=
  match t with
  | lexer.EOF | lexer.NEWLINE => true
  | _ => false
  end.

(** The argument loop of [parseRedisCommand]. *)
Fixpoint parseArguments (fuel : nat) (args : list Expression) : M (list Expression) :=
  match fuel with
  | O => out_of_fuel
  | S f =>
      peek ← get_peek;
      if endsCommand (lexer.Type_ peek) then mret args
      else
        _ ← nextToken;
        arg ← parseExpression f;
        match arg with
        | Some arg => parseArguments f (args ++ [arg])
        | None => parseArguments f args
        end
  end.

(** [parseRedisCommand] returns a [*RedisCommand]: [None] is nil. *)
Definition parseRedisCommand (fuel : nat) : M (option RedisCommand) :=
  cur ← get_cur;
  if decide (lexer.Type_ cur <> lexer.IDENT) then
    _ ← addError ("expected command identifier, got " +:+
                  lexer.TokenType_String (lexer.Type_ cur));
    mret None
  else
    args ← parseArguments fuel [];
    mret (Some {| Command := {| Token := cur; Value := lexer.Literal cur |};
                  Arguments := args |}).

Fixpoint skipNewlines (fuel : nat) : M unit :=
  match fuel with
  | O => out_of_fuel
  | S f =>
      cur ← get_cur;
      if decide (lexer.Type_ cur = lexer.NEWLINE)
      then _ ← nextToken; skipNewlines f
      else mret tt
  end.

(** [parseStatement] returns a [Statement] that may be [nil] ([None]); the
    [*RedisCommand] of [parseRedisCommand], nil or not, is a [Statement]
    that is not [nil]. *)
Definition parseStatement (fuel : nat) : M (option Statement) :=
  _ ← skipNewlines fuel;
  cur ← get_cur;
  if decide (lexer.Type_ cur = lexer.EOF) then mret None
  else
    cmd ← parseRedisCommand fuel;
    mret (Some (match cmd with Some c => Stmt c | None => NilRedisCommand end)).

Fixpoint ParseProgram_loop (fuel : nat) (stmts : list Statement) : M (list Statement) :=
  match fuel with
  | O => out_of_fuel
  | S f =>
      cur ← get_cur;
      if decide (lexer.Type_ cur <> lexer.EOF) then
        stmt ← parseStatement f;
        let stmts := match stmt with Some st => stmts ++ [st] | None => stmts end in
        _ ← nextToken;
        ParseProgram_loop f stmts
      else mret stmts
  end.

Definition ParseProgram (fuel : nat) : M Program :=
  stmts ← ParseProgram_loop fuel [];
  mret {| Statements := stmts |}.

(** Fuel for the loops of the parser: an iteration reads at least one byte
    of the input, and a nested range takes two calls for its opening
    bracket. *)
Definition parse_fuel (input : string) : nat := 2 * String.length input + 8.

Definition ParseCommand (input : string) : Res (option RedisCommand * list string) :=
  p ← New (lexer.New input);
  '(cmd, p) ← parseRedisCommand (parse_fuel input) p;
  Ok (cmd, Errors p).

Definition ParseCommands (input : string) : Res (Program * list string) :=
  p ← New (lexer.New input);
  '(program, p) ← ParseProgram (parse_fuel input) p;
  Ok (program, Errors p).

End parser.

(** ** Package semantic (analyzer.go) *)

Module semantic.

Record SemanticError : Type := mkSemanticError {
  Message : string;
  Command : string;
  Position : Z;
  Type_ : string
}.

(** The values stored in [CommandInfo map[string]interface{}]. *)
Inductive InfoValue : Type :=
| VString (s : string)
| VBool (b : bool).

Record ValidationResult : Type := mkValidationResult {
  Valid : bool;
  Errors : list SemanticError;
  Warnings : list string;
  CommandInfo : gmap string InfoValue
}.

Record OptionSpec : Type := mkOptionSpec {
  HasValue : bool;
  ValueType : string;
  OptionDescription : string;
  Conflicts : list string
}.

Record CommandSpec : Type := mkCommandSpec {
  Name : string;
  MinArgs : Z;
  MaxArgs : Z;
  KeyPosition : Z;
  ValueTypes : list string;
  Options : gmap string OptionSpec;
  Description : string
}.

Record Analyzer : Type := mkAnalyzer {
  commands : gmap string CommandSpec
}.

Definition initializeCommands (a : Analyzer) : Analyzer :=
  let c := commands a in
  let c := <["GET" :=
    {| Name := "GET"; MinArgs := 1; MaxArgs := 1; KeyPosition := 0;
       ValueTypes := ["key"]; Options := ∅;
       Description := "Get the value of a key" |}]> c in
  let c := <["SET" :=
    {| Name := "SET"; MinArgs := 2; MaxArgs := -1; KeyPosition := 0;
       ValueTypes := ["key"; "value"];
       Options :=
         <["EX" := {| HasValue := true; ValueType := "integer";
                      OptionDescription := "Set expiry in seconds";
                      Conflicts := [] |}]>
         (<["PX" := {| HasValue := true; ValueType := "integer";
                       OptionDescription := "Set expiry in milliseconds";
                       Conflicts := ["EX"] |}]>
         (<["NX" := {| HasValue := false; ValueType := "";
                       OptionDescription := "Only set if key doesn't exist";
                       Conflicts := ["XX"] |}]>
         (<["XX" := {| HasValue := false; ValueType := "";
                       OptionDescription := "Only set if key exists";
                       Conflicts := ["NX"] |}]> ∅)));
       Description := "Set the string value of a key" |}]> c in
  let c := <["DEL" :=
    {| Name := "DEL"; MinArgs := 1; MaxArgs := -1; KeyPosition := 0;
       ValueTypes := ["key"]; Options := ∅;
       Description := "Delete one or more keys" |}]> c in
  let c := <["HGET" :=
    {| Name := "HGET"; MinArgs := 2; MaxArgs := 2; KeyPosition := 0;
       ValueTypes := ["key"; "field"]; Options := ∅;
       Description := "Get the value of a hash field" |}]> c in
  let c := <["HSET" :=
    {| Name := "HSET"; MinArgs := 3; MaxArgs := -1; KeyPosition := 0;
       ValueTypes := ["key"; "field"; "value"]; Options := ∅;
       Description := "Set the string value of a hash field" |}]> c in
  let c := <["ZADD" :=
    {| Name := "ZADD"; MinArgs := 3; MaxArgs := -1; KeyPosition := 0;
       ValueTypes := ["key"; "score"; "member"];
       Options :=
         <["NX" := {| HasValue := false; ValueType := "";
                      OptionDescription := "Only add new elements";
                      Conflicts := ["XX"] |}]>
         (<["XX" := {| HasValue := false; ValueType := "";
                       OptionDescription := "Only update existing elements";
                       Conflicts := ["NX"] |}]> ∅);
       Description := "Add one or more members to a sorted set" |}]> c in
  let c := <["ZRANGE" :=
    {| Name := "ZRANGE"; MinArgs := 3; MaxArgs := -1; KeyPosition := 0;
       ValueTypes := ["key"; "start"; "stop"];
       Options :=
         <["WITHSCORES" := {| HasValue := false; ValueType := "";
                              OptionDescription := "Return scores along with members";
                              Conflicts := [] |}]> ∅;
       Description := "Return a range of members in a sorted set" |}]> c in
  let c := <["SCAN" :=
    {| Name := "SCAN"; MinArgs := 1; MaxArgs := -1; KeyPosition := -1;
       ValueTypes := ["cursor"];
       Options :=
         <["MATCH" := {| HasValue := true; ValueType := "pattern";
                         OptionDescription := "Match pattern";
                         Conflicts := [] |}]>
         (<["COUNT" := {| HasValue := true; ValueType := "integer";
                          OptionDescription := "Number of elements to return";
                          Conflicts := [] |}]>
         (<["TYPE" := {| HasValue := true; ValueType := "string";
                         OptionDescription := "Filter by type";
                         Conflicts := [] |}]> ∅));
       Description := "Incrementally iterate over keys" |}]> c in
  {| commands := c |}.

Definition New : Analyzer := initializeCommands {| commands := ∅ |}.

(** [result.Errors = append(result.Errors, SemanticError{...});
    result.Valid = false]. *)
Definition addError (result : ValidationResult) (msg cmd ty : string)
  : ValidationResult :=
  {| Valid := false;
     Errors := Errors result ++
       [{| Message := msg; Command := cmd; Position := 0; Type_ := ty |}];
     Warnings := Warnings result;
     CommandInfo := CommandInfo result |}.

Definition addWarning (result : ValidationResult) (msg : string) : ValidationResult :=
  {| Valid := Valid result;
     Errors := Errors result;
     Warnings := Warnings result ++ [msg];
     CommandInfo := CommandInfo result |}.

Definition setInfo (result : ValidationResult) (k : string) (v : InfoValue)
  : ValidationResult :=
  {| Valid := Valid result;
     Errors := Errors result;
     Warnings := Warnings result;
     CommandInfo := <[k := v]> (CommandInfo result) |}.

(** The body of the loop of [validateArgumentTypes] for argument [i] of
    expected type [expectedType]. *)
Definition checkArgumentType (cmd : parser.RedisCommand) (i : nat)
  (expectedType : string) (arg : parser.Expression) (result : ValidationResult)
  : ValidationResult :=
  let actualType := parser.Expression_Type arg in
  let n := itoa (Z.of_nat i + 1) in
  let name := parser.Value (parser.Command cmd) in
  let actual t := String.eqb actualType t in
  if String.eqb expectedType "key" then
    if negb (actual "Identifier") && negb (actual "StringLiteral") && negb (actual "PatternExpression")
    then addError result
           ("Argument " +:+ n +:+ " should be a key (identifier or string), got " +:+ actualType)
           name "TYPE_MISMATCH"
    else result
  else if String.eqb expectedType "value" then result
  else if String.eqb expectedType "field" then
    if negb (actual "Identifier") && negb (actual "StringLiteral")
    then addError result
           ("Argument " +:+ n +:+ " should be a field name, got " +:+ actualType)
           name "TYPE_MISMATCH"
    else result
  else if String.eqb expectedType "score" then
    if negb (actual "IntegerLiteral") && negb (actual "FloatLiteral")
    then addError result
           ("Argument " +:+ n +:+ " should be a numeric score, got " +:+ actualType)
           name "TYPE_MISMATCH"
    else result
  else if String.eqb expectedType "member" then
    if negb (actual "Identifier") && negb (actual "StringLiteral")
    then addError result
           ("Argument " +:+ n +:+ " should be a member name, got " +:+ actualType)
           name "TYPE_MISMATCH"
    else result
  else if String.eqb expectedType "cursor" then
    if negb (actual "IntegerLiteral")
    then addError result
           ("Argument " +:+ n +:+ " should be a cursor (integer), got " +:+ actualType)
           name "TYPE_MISMATCH"
    else result
  else if String.eqb expectedType "start" || String.eqb expectedType "stop" then
    if negb (actual "IntegerLiteral")
    then addError result
           ("Argument " +:+ n +:+ " should be an index (integer), got " +:+ actualType)
           name "TYPE_MISMATCH"
    else result
  else result.

(** [for i, arg := range cmd.Arguments]: [args] are the arguments from
    index [i] on. *)
Fixpoint validateArgumentTypes_loop (cmd : parser.RedisCommand) (spec : CommandSpec)
  (i : nat) (args : list parser.Expression) (result : ValidationResult)
  : ValidationResult :=
  match args with
  | [] => result
  | arg :: rest =>
      match ValueTypes spec !! i with
      | None => result (* [i >= len(spec.ValueTypes)]: break *)
      | Some expectedType =>
          validateArgumentTypes_loop cmd spec (S i) rest
            (checkArgumentType cmd i expectedType arg result)
      end
  end.

Definition validateArgumentTypes (cmd : parser.RedisCommand) (spec : CommandSpec)
  (result : ValidationResult) : ValidationResult :=
  validateArgumentTypes_loop cmd spec 0 (parser.Arguments cmd) result.

Definition validateOptionValue (optionName : string) (spec : OptionSpec)
  (value : parser.Expression) (result : ValidationResult) : Res ValidationResult :=
  let valueType := parser.Expression_Type value in
  let commandName :=
    match CommandInfo result !! "name" with
    | Some (VString nameStr) => nameStr
    | _ => "unknown"
    end in
  if String.eqb (ValueType spec) "integer" then
    if negb (String.eqb valueType "IntegerLiteral") then
      Ok (addError result
            ("Option '" +:+ optionName +:+ "' expects an integer value, got " +:+ valueType)
            commandName "OPTION_TYPE_MISMATCH")
    else
      match value with
      | parser.IntegerLiteral _ v =>
          if (String.eqb optionName "EX" || String.eqb optionName "PX")
             && (v <=? 0)%Z
          then Ok (addError result
                     ("Expiration time must be positive, got " +:+ itoa v)
                     commandName "INVALID_VALUE_RANGE")
          else Ok result
      | _ =>
          (* a nil [*IntegerLiteral]: [intLit.Value] is read for EX and PX *)
          if String.eqb optionName "EX" || String.eqb optionName "PX"
          then Panic else Ok result
      end
  else if String.eqb (ValueType spec) "pattern" then
    if negb (String.eqb valueType "PatternExpression")
       && negb (String.eqb valueType "StringLiteral")
       && negb (String.eqb valueType "Identifier")
    then Ok (addWarning result
               ("Option '" +:+ optionName +:+ "' expects a pattern, got " +:+ valueType))
    else Ok result
  else if String.eqb (ValueType spec) "string" then
    if negb (String.eqb valueType "StringLiteral")
       && negb (String.eqb valueType "Identifier")
    then Ok (addWarning result
               ("Option '" +:+ optionName +:+ "' expects a string, got " +:+ valueType))
    else Ok result
  else Ok result.

(** [usedOptions[k]] of a [map[string]bool]. *)
Definition used (usedOptions : gmap string bool) (k : string) : bool :=
  default false (usedOptions !! k).

(** [for _, conflict := range optionSpec.Conflicts]. *)
Fixpoint checkConflicts (cmd : parser.RedisCommand) (optionName : string)
  (usedOptions : gmap string bool) (conflicts : list string)
  (result : ValidationResult) : ValidationResult :=
  match conflicts with
  | [] => result
  | conflict :: rest =>
      checkConflicts cmd optionName usedOptions rest
        (if used usedOptions conflict
         then addError result
                ("Option '" +:+ optionName +:+ "' conflicts with '" +:+ conflict +:+ "'")
                (parser.Value (parser.Command cmd)) "OPTION_CONFLICT"
         else result)
  end.

(** [for i := 0; i < len(cmd.Arguments); i++] from index [i] on; an
    iteration moves [i] forward by one or by two. *)
Fixpoint validateOptions_loop (fuel : nat) (cmd : parser.RedisCommand)
  (spec : CommandSpec) (i : nat) (usedOptions : gmap string bool)
  (result : ValidationResult) : Res ValidationResult :=
  match fuel with
  | O => OutOfFuel
  | S f =>
      match parser.Arguments cmd !! i with
      | None => Ok result
      | Some arg =>
          if String.eqb (parser.Expression_Type arg) "KeywordExpression" then
            text ← parser.Expression_String arg;
            let optionName := ToUpper text in
            match Options spec !! optionName with
            | None =>
                validateOptions_loop f cmd spec (i + 1) usedOptions
                  (addWarning result
                     ("Unknown option '" +:+ optionName +:+ "' for command " +:+
                      parser.Value (parser.Command cmd)))
            | Some optionSpec =>
                let result :=
                  checkConflicts cmd optionName usedOptions (Conflicts optionSpec) result in
                let usedOptions := <[optionName := true]> usedOptions in
                if HasValue optionSpec then
                  if (length (parser.Arguments cmd) <=? i + 1)%nat then
                    validateOptions_loop f cmd spec (i + 1) usedOptions
                      (addError result
                         ("Option '" +:+ optionName +:+ "' requires a value")
                         (parser.Value (parser.Command cmd)) "MISSING_OPTION_VALUE")
                  else
                    match parser.Arguments cmd !! (i + 1)%nat with
                    | None => Panic
                    | Some valueArg =>
                        result ← validateOptionValue optionName optionSpec valueArg result;
                        validateOptions_loop f cmd spec (i + 1 + 1) usedOptions result
                    end
                else validateOptions_loop f cmd spec (i + 1) usedOptions result
            end
          else validateOptions_loop f cmd spec (i + 1) usedOptions result
      end
  end.

Definition validateOptions (cmd : parser.RedisCommand) (spec : CommandSpec)
  (result : ValidationResult) : Res ValidationResult :=
  validateOptions_loop (S (length (parser.Arguments cmd))) cmd spec 0 ∅ result.

Definition ValidateCommand (a : Analyzer) (cmd : parser.RedisCommand)
  : Res ValidationResult :=
  let result := {| Valid := true; Errors := []; Warnings := []; CommandInfo := ∅ |} in
  let commandName := ToUpper (parser.Value (parser.Command cmd)) in
  match commands a !! commandName with
  | None =>
      Ok (addError result ("Unknown command: " +:+ commandName) commandName
            "UNKNOWN_COMMAND")
  | Some spec =>
      let argCount := Z.of_nat (length (parser.Arguments cmd)) in
      let result :=
        if (argCount <? MinArgs spec)%Z
        then addError result
               ("Too few arguments. Expected at least " +:+ itoa (MinArgs spec) +:+
                ", got " +:+ itoa argCount)
               commandName "INSUFFICIENT_ARGS"
        else result in
      let result :=
        if negb (MaxArgs spec =? -1)%Z && (MaxArgs spec <? argCount)%Z
        then addError result
               ("Too many arguments. Expected at most " +:+ itoa (MaxArgs spec) +:+
                ", got " +:+ itoa argCount)
               commandName "EXCESSIVE_ARGS"
        else result in
      let result := validateArgumentTypes cmd spec result in
      result ← validateOptions cmd spec result;
      let result := setInfo result "name" (VString commandName) in
      let result := setInfo result "description" (VString (Description spec)) in
      let result := setInfo result "has_key" (VBool (0 <=? KeyPosition spec)%Z) in
      if (0 <=? KeyPosition spec)%Z && (KeyPosition spec <? argCount)%Z then
        match parser.Arguments cmd !! Z.to_nat (KeyPosition spec) with
        | None => Panic
        | Some arg =>
            key ← parser.Expression_String arg;
            Ok (setInfo result "key" (VString key))
        end
      else Ok result
  end.

(** [for _, stmt := range program.Statements]: the type assertion
    of a statement to a [RedisCommand] pointer also succeeds on a nil pointer. *)
Fixpoint ValidateProgram_loop (a : Analyzer) (stmts : list parser.Statement)
  (results : list ValidationResult) : Res (list ValidationResult) :=
  match stmts with
  | [] => Ok results
  | parser.Stmt cmd :: rest =>
      result ← ValidateCommand a cmd;
      ValidateProgram_loop a rest (results ++ [result])
  | parser.NilRedisCommand :: _ => Panic
  end.

Definition ValidateProgram (a : Analyzer) (program : parser.Program)
  : Res (list ValidationResult) :=
  ValidateProgram_loop a (parser.Statements program) [].

Definition GetCommandSpecs (a : Analyzer) : gmap string CommandSpec := commands a.

Definition AddCommandSpec (a : Analyzer) (spec : CommandSpec) : Analyzer :=
  {| commands := <[ToUpper (Name spec) := spec]> (commands a) |}.

End semantic.

(** * Properties of the semantic validator *)

Import semantic.

(** The result a validation starts from. *)
Definition emptyResult : ValidationResult :=
  {| Valid := true; Errors := []; Warnings := []; CommandInfo := ∅ |}.

(** The errors of kind [ty] of a result, in order. *)
Definition errorsOfKind (ty : string) (r : ValidationResult) : list SemanticError :=
  filter (fun e => Type_ e = ty) (Errors r).

Definition hasError (ty : string) (r : ValidationResult) : Prop :=
  exists e, e ∈ Errors r /\ Type_ e = ty.

(** The specification of a command in the table of an analyzer. *)
Definition specOf (a : Analyzer) (cmd : parser.RedisCommand) : option CommandSpec :=
  commands a !! ToUpper (parser.Value (parser.Command cmd)).

Definition argCount (cmd : parser.RedisCommand) : Z :=
  Z.of_nat (length (parser.Arguments cmd)).

(** *** Argument-count check *)

Definition insufficientArgs (cmd : parser.RedisCommand) (spec : CommandSpec)
  : SemanticError :=
  {| Message := "Too few arguments. Expected at least " +:+ itoa (MinArgs spec) +:+
                ", got " +:+ itoa (argCount cmd);
     Command := ToUpper (parser.Value (parser.Command cmd));
     Position := 0;
     Type_ := "INSUFFICIENT_ARGS" |}.

Definition excessiveArgs (cmd : parser.RedisCommand) (spec : CommandSpec)
  : SemanticError :=
  {| Message := "Too many arguments. Expected at most " +:+ itoa (MaxArgs spec) +:+
                ", got " +:+ itoa (argCount cmd);
     Command := ToUpper (parser.Value (parser.Command cmd));
     Position := 0;
     Type_ := "EXCESSIVE_ARGS" |}.

Definition countErrors (cmd : parser.RedisCommand) (spec : CommandSpec)
  : list SemanticError :=
  (if (argCount cmd <? MinArgs spec)%Z then [insufficientArgs cmd spec] else [])
  ++ (if negb (MaxArgs spec =? -1)%Z && (MaxArgs spec <? argCount cmd)%Z
      then [excessiveArgs cmd spec] else []).

(** *** Positional type check, as the specification words it *)

(** The node kinds a value category accepts. *)
Definition accepts (category : string) (kind : parser.NodeType) : bool :=
  if String.eqb category "key" then
    match kind with
    | parser.TIdentifier | parser.TStringLiteral | parser.TPatternExpression => true
    | _ => false
    end
  else if String.eqb category "field" || String.eqb category "member" then
    match kind with
    | parser.TIdentifier | parser.TStringLiteral => true
    | _ => false
    end
  else if String.eqb category "score" then
    match kind with
    | parser.TIntegerLiteral | parser.TFloatLiteral => true
    | _ => false
    end
  else if String.eqb category "cursor" || String.eqb category "start"
          || String.eqb category "stop" then
    match kind with
    | parser.TIntegerLiteral => true
    | _ => false
    end
  else true.

(** What the message of a mismatch says the argument should be. *)
Definition expectation (category : string) : string :=
  if String.eqb category "key" then "a key (identifier or string)"
  else if String.eqb category "field" then "a field name"
  else if String.eqb category "score" then "a numeric score"
  else if String.eqb category "member" then "a member name"
  else if String.eqb category "cursor" then "a cursor (integer)"
  else "an index (integer)".

Definition typeMismatch (cmd : parser.RedisCommand) (i : nat) (category : string)
  (arg : parser.Expression) : SemanticError :=
  {| Message := "Argument " +:+ itoa (Z.of_nat i + 1) +:+ " should be " +:+
                expectation category +:+ ", got " +:+ parser.Expression_Type arg;
     Command := parser.Value (parser.Command cmd);
     Position := 0;
     Type_ := "TYPE_MISMATCH" |}.

(** One error per argument that has a declared category and a kind the
    category does not accept; [i] is the index of the first argument of
    [args], [categories] the declared categories from [i] on. *)
Fixpoint typeMismatches (cmd : parser.RedisCommand) (i : nat)
  (args : list parser.Expression) (categories : list string) : list SemanticError :=
  match args, categories with
  | arg :: args', category :: categories' =>
      (if accepts category (parser.Expression_NodeType arg) then []
       else [typeMismatch cmd i category arg])
      ++ typeMismatches cmd (S i) args' categories'
  | _, _ => []
  end.

(** *** Option scan *)

(** The option an argument names for a command, when it is a keyword
    option the command knows. *)
Definition optionAt (cmd : parser.RedisCommand) (spec : CommandSpec) (i : nat)
  : option (string * OptionSpec) :=
  match parser.Arguments cmd !! i with
  | Some (parser.KeywordExpression _ v) =>
      match Options spec !! ToUpper v with
      | Some o => Some (ToUpper v, o)
      | None => None
      end
  | _ => None
  end.

(** Whether the scan, when at index [i], consumes argument [i + 1] as the
    value of the option at [i]. *)
Definition consumesNext (cmd : parser.RedisCommand) (spec : CommandSpec) (i : nat) : bool :=
  match optionAt cmd spec i with
  | Some (_, o) => HasValue o && (i + 1 <? length (parser.Arguments cmd))%nat
  | None => false
  end.

(** The indices the loop of [validateOptions] visits, from [i] on. *)
Fixpoint scanFrom (fuel : nat) (cmd : parser.RedisCommand) (spec : CommandSpec)
  (i : nat) : list nat :=
  match fuel with
  | O => []
  | S f =>
      if (i <? length (parser.Arguments cmd))%nat
      then i :: scanFrom f cmd spec (if consumesNext cmd spec i then i + 2 else i + 1)
      else []
  end.

Definition scanned (cmd : parser.RedisCommand) (spec : CommandSpec) : list nat :=
  scanFrom (S (length (parser.Arguments cmd))) cmd spec 0.

(** The option name a keyword argument stands for. *)
Definition keywordAt (cmd : parser.RedisCommand) (i : nat) : option string :=
  match parser.Arguments cmd !! i with
  | Some (parser.KeywordExpression _ v) => Some (ToUpper v)
  | _ => None
  end.

Definition conflictError (cmd : parser.RedisCommand) (second first : string)
  : SemanticError :=
  {| Message := "Option '" +:+ second +:+ "' conflicts with '" +:+ first +:+ "'";
     Command := parser.Value (parser.Command cmd);
     Position := 0;
     Type_ := "OPTION_CONFLICT" |}.

Definition missingValueError (cmd : parser.RedisCommand) (name : string)
  : SemanticError :=
  {| Message := "Option '" +:+ name +:+ "' requires a value";
     Command := parser.Value (parser.Command cmd);
     Position := 0;
     Type_ := "MISSING_OPTION_VALUE" |}.

(** *** What the option scan adds to a result *)

(** The errors of the check of an option's value. *)
Definition valueErrorOk (e : SemanticError) : Prop :=
  (Type_ e = "OPTION_TYPE_MISMATCH" \/ Type_ e = "INVALID_VALUE_RANGE")
  /\ Command e = "unknown".

(** The errors the option scan may add. *)
Definition optionErrorOk (e : SemanticError) : Prop :=
  Type_ e = "OPTION_CONFLICT" \/ Type_ e = "MISSING_OPTION_VALUE" \/ valueErrorOk e.

(** What one iteration of the loop of [validateOptions] does at an index
    inside the argument list, in terms of [optionAt]. *)
Inductive loopStep (cmd : parser.RedisCommand) (spec : CommandSpec)
  (f i : nat) (usedOptions : gmap string bool)
  (result r : ValidationResult) : Prop :=
| step_plain result' :
    optionAt cmd spec i = None ->
    Errors result' = Errors result ->
    (exists ws, Warnings result' = Warnings result ++ ws) ->
    CommandInfo result' = CommandInfo result ->
    validateOptions_loop f cmd spec (i + 1) usedOptions result' = Ok r ->
    loopStep cmd spec f i usedOptions result r
| step_flag name o :
    optionAt cmd spec i = Some (name, o) ->
    HasValue o = false ->
    validateOptions_loop f cmd spec (i + 1) (<[name := true]> usedOptions)
      (checkConflicts cmd name usedOptions (Conflicts o) result) = Ok r ->
    loopStep cmd spec f i usedOptions result r
| step_missing name o :
    optionAt cmd spec i = Some (name, o) ->
    HasValue o = true ->
    length (parser.Arguments cmd) <= i + 1 ->
    validateOptions_loop f cmd spec (i + 1) (<[name := true]> usedOptions)
      (addError (checkConflicts cmd name usedOptions (Conflicts o) result)
         (Message (missingValueError cmd name))
         (parser.Value (parser.Command cmd)) "MISSING_OPTION_VALUE") = Ok r ->
    loopStep cmd spec f i usedOptions result r
| step_value name o v result' :
    optionAt cmd spec i = Some (name, o) ->
    HasValue o = true ->
    parser.Arguments cmd !! (i + 1) = Some v ->
    validateOptionValue name o v
      (checkConflicts cmd name usedOptions (Conflicts o) result) = Ok result' ->
    validateOptions_loop f cmd spec (i + 2) (<[name := true]> usedOptions) result' = Ok r ->
    loopStep cmd spec f i usedOptions result r.

(** What the scan has recorded in the result when it ends, for an option
    at a visited index [j]. *)
Definition scanRecords (cmd : parser.RedisCommand) (spec : CommandSpec)
  (usedOptions : gmap string bool) (prior : list nat)
  (r : ValidationResult) (j : nat) : Prop :=
  forall name o, optionAt cmd spec j = Some (name, o) ->
    (forall first,
       first ∈ Conflicts o ->
       used usedOptions first = true
       \/ (exists k o', k ∈ prior /\ k < j /\ optionAt cmd spec k = Some (first, o')) ->
       conflictError cmd name first ∈ Errors r)
    /\ (HasValue o = true -> length (parser.Arguments cmd) <= j + 1 ->
        missingValueError cmd name ∈ Errors r)
    /\ (HasValue o = true -> forall v, parser.Arguments cmd !! (j + 1) = Some v ->
        exists rv, validateOptionValue name o v emptyResult = Ok rv
                   /\ Errors rv ⊆ Errors r /\ Warnings rv ⊆ Warnings r).

(** An expression renders when its [String()] returns, that is, when it
    holds no nil pointer. *)
Definition renders (e : parser.Expression) : Prop :=
  exists s, parser.Expression_String e = Ok s.

(** Conflict symmetry as the specification states it: any command that
    holds both options of a mutually conflicting pair gets an
    OPTION_CONFLICT error. *)
Definition conflictSymmetryAsStated : Prop :=
  forall a cmd spec r A B oA oB i j,
    specOf a cmd = Some spec ->
    ValidateCommand a cmd = Ok r ->
    Options spec !! A = Some oA -> Options spec !! B = Some oB ->
    B ∈ Conflicts oA -> A ∈ Conflicts oB ->
    keywordAt cmd i = Some A -> keywordAt cmd j = Some B -> i <> j ->
    hasError "OPTION_CONFLICT" r.

(** ** Example inputs *)

(** The command [ParseCommand] returns for a text it parses. *)
Definition parsed (input : string) : parser.RedisCommand :=
  match parser.ParseCommand input with
  | Ok (Some cmd, _) => cmd
  | _ => {| parser.Command := {| parser.Token := parser.zeroToken;
                                 parser.Value := EmptyString |};
            parser.Arguments := [] |}
  end.

(** [s] between double quotes. *)
Definition quoted (s : string) : string :=
  String DQUOTE s +:+ String DQUOTE EmptyString.

(** ** The unread input of a lexer *)

Fixpoint sdrop (n : nat) (s : string) : string :=
  match n, s with
  | O, _ => s
  | S n', String _ s' => sdrop n' s'
  | S _, EmptyString => EmptyString
  end.

Definition shead (s : string) : ascii :=
  match s with
  | String c _ => c
  | EmptyString => NUL
  end.

Definition stail (s : string) : string :=
  match s with
  | String _ s' => s'
  | EmptyString => EmptyString
  end.

(** The longest prefix of [s] whose bytes satisfy [cond], and what follows. *)
Fixpoint sspan (cond : ascii -> bool) (s : string) : string * string :=
  match s with
  | EmptyString => (EmptyString, EmptyString)
  | String c s' =>
      if cond c then let '(w, r) := sspan cond s' in (String c w, r)
      else (EmptyString, s)
  end.

Fixpoint sforall (cond : ascii -> bool) (s : string) : bool :=
  match s with
  | EmptyString => true
  | String c s' => cond c && sforall cond s'
  end.

(** The input from the current byte on. *)
Definition rest (l : lexer.Lexer) : string := sdrop (lexer.position l) (lexer.input l).

(** The invariant of a lexer between two calls of its methods: [ch] is the
    byte at [position], NUL past the end, and [readPosition] is the next
    index. *)
Definition wfLexer (l : lexer.Lexer) : Prop :=
  lexer.readPosition l = lexer.position l + 1
  /\ lexer.ch l = shead (rest l).

(** The number of bytes a lexer has not read yet. *)
Definition remaining (l : lexer.Lexer) : nat :=
  String.length (lexer.input l) - lexer.position l.

(** ** The lexer as a function of the unread input

    What [NextToken] returns depends on the unread input only: [lexOne]
    gives the kind and the literal of the next token and the input left
    after it, and panics where [NextToken] does. *)

Definition isSpace (c : ascii) : bool :=
  Ascii.eqb c " " || Ascii.eqb c TAB || Ascii.eqb c CR.

Definition isIdentByte (c : ascii) : bool :=
  isLetter c || isDigit c || Ascii.eqb c "_" || Ascii.eqb c "-".

(** The text [readNumber] reads at the start of [s], and what follows it. *)
Definition lexNumber (s : string) : string * string :=
  let '(sign, s1) :=
    match s with
    | String c s' => if Ascii.eqb c "-" then (String c EmptyString, s') else (EmptyString, s)
    | EmptyString => (EmptyString, s)
    end in
  let '(d1, s2) := sspan isDigit s1 in
  match s2 with
  | String c s3 =>
      if Ascii.eqb c "." && isDigit (shead s3)
      then let '(d2, s4) := sspan isDigit s3 in
           (sign +:+ d1 +:+ String c d2, s4)
      else (sign +:+ d1, s2)
  | EmptyString => (sign +:+ d1, s2)
  end.

Definition consBody (c : ascii) (r : option (string * string)) : option (string * string) :=
  match r with
  | Some (body, s) => Some (String c body, s)
  | None => None
  end.

(** The body [readString] reads from [s], the input after the opening
    quote [q], and what is left after the closing quote; [None] when the
    scan runs past the end of the input and the slice panics. *)
Fixpoint quotedWalk (q : ascii) (s : string) : option (string * string) :=
  match s with
  | EmptyString => Some (EmptyString, EmptyString)
  | String c s1 =>
      if Ascii.eqb c q then Some (EmptyString, s1)
      else if Ascii.eqb c NUL then Some (EmptyString, s)
      else if Ascii.eqb c BACKSLASH then
        match s1 with
        | EmptyString => None
        | String x s2 =>
            if Ascii.eqb x NUL then consBody c (consBody x (quotedWalk q s2))
            else
              match s2 with
              | EmptyString => None
              | String y s3 => consBody c (consBody x (consBody y (quotedWalk q s3)))
              end
        end
      else consBody c (quotedWalk q s1)
  end.

Definition lexQuoted (q : ascii) (s : string) : Res (lexer.TokenType * string * string) :=
  match quotedWalk q s with
  | Some (body, r) => Ok (lexer.STRING, body, r)
  | None => Panic
  end.

Definition lexNumberToken (s : string) : Res (lexer.TokenType * string * string) :=
  let '(lit, r) := lexNumber s in
  Ok (if Contains lit "." then lexer.FLOAT else lexer.INT, lit, r).

Definition lexOne (s : string) : Res (lexer.TokenType * string * string) :=
  let s := snd (sspan isSpace s) in
  match s with
  | EmptyString => Ok (lexer.EOF, EmptyString, EmptyString)
  | String c s' =>
      let single t := Ok (t, string_of_byte c, s') in
      if Ascii.eqb c "*" then single lexer.ASTERISK
      else if Ascii.eqb c "?" then single lexer.QUESTION
      else if Ascii.eqb c "[" then single lexer.BRACKET_L
      else if Ascii.eqb c "]" then single lexer.BRACKET_R
      else if Ascii.eqb c "(" then single lexer.PAREN_L
      else if Ascii.eqb c ")" then single lexer.PAREN_R
      else if Ascii.eqb c "," then single lexer.COMMA
      else if Ascii.eqb c ":" then single lexer.COLON
      else if Ascii.eqb c "|" then single lexer.PIPE
      else if Ascii.eqb c "+" then single lexer.PLUS
      else if Ascii.eqb c "-" then
        if isDigit (shead s') then lexNumberToken s else single lexer.MINUS
      else if Ascii.eqb c DQUOTE then lexQuoted DQUOTE s'
      else if Ascii.eqb c SQUOTE then lexQuoted SQUOTE s'
      else if Ascii.eqb c LF then single lexer.NEWLINE
      else if Ascii.eqb c NUL then Ok (lexer.EOF, EmptyString, s')
      else if isLetter c then
        let '(w, r) := sspan isIdentByte s in
        Ok (lexer.LookupIdent (ToUpper w), w, r)
      else if isDigit c then lexNumberToken s
      else single lexer.ILLEGAL
  end.

(** [NextToken] on [l] does what [lexOne] says for the unread input. *)
Definition lexesAs (l : lexer.Lexer) (r : Res (lexer.Token * lexer.Lexer)) : Prop :=
  match lexOne (rest l) with
  | Ok (ty, lit, s) =>
      exists tok l', r = Ok (tok, l')
        /\ lexer.Type_ tok = ty /\ lexer.Literal tok = lit
        /\ wfLexer l' /\ lexer.input l' = lexer.input l /\ rest l' = s
  | Panic => r = Panic
  | OutOfFuel => False
  end.

(** What the loop of [readString] leaves when started on [l], for the input
    [s] after the current byte and the outcome [w] of the walk over [s]:
    the lexer at the closing quote, at a NUL or at the end of the input, or
    a lexer that has run past the end. *)
Definition quotedPost (q : ascii) (l : lexer.Lexer) (s : string)
  (w : option (string * string)) (res : Res lexer.Lexer) : Prop :=
  match w with
  | Some (body, r) =>
      exists l', res = Ok l' /\ wfLexer l' /\ lexer.input l' = lexer.input l
        /\ lexer.position l' = lexer.position l + 1 + String.length body
        /\ s = body +:+ rest l'
        /\ r = if Ascii.eqb (lexer.ch l') q then stail (rest l') else rest l'
  | None =>
      exists l', res = Ok l' /\ lexer.input l' = lexer.input l
        /\ String.length (lexer.input l) < lexer.position l'
  end.

(** ** Shapes of token literals and of parsed nodes *)

Definition isKeywordType (t : lexer.TokenType) : bool :=
  match t with
  | lexer.EX | lexer.PX | lexer.NX | lexer.XX | lexer.WITHSCORES
  | lexer.LIMIT | lexer.COUNT | lexer.MATCH | lexer.TYPE => true
  | _ => false
  end.

(** A letter or underscore followed by letters, digits, underscores and
    hyphens: what [readIdentifier] reads. *)
Definition identWord (w : string) : bool :=
  match w with
  | String c w' => isLetter c && sforall isIdentByte w'
  | EmptyString => false
  end.

(** The literal of an identifier or keyword token is a word, classified by
    its uppercase form. *)
Definition tokenOk (tok : lexer.Token) : Prop :=
  lexer.Type_ tok = lexer.IDENT \/ isKeywordType (lexer.Type_ tok) = true ->
  identWord (lexer.Literal tok) = true
  /\ lexer.LookupIdent (ToUpper (lexer.Literal tok)) = lexer.Type_ tok.

(** The invariant of a parser between two calls of its methods. *)
Definition wfParser (p : parser.Parser) : Prop :=
  wfLexer (parser.lexer_ p)
  /\ tokenOk (parser.curToken p) /\ tokenOk (parser.peekToken p).

(** What bounds the work left to a parser: the unread bytes, and the token
    it looks ahead at unless that is the end of the input. *)
Definition measure (p : parser.Parser) : nat :=
  remaining (parser.lexer_ p)
  + (if decide (lexer.Type_ (parser.peekToken p) = lexer.EOF) then 0 else 1).

(** [m'] does what [m] does wherever [m] has enough fuel. *)
Definition refines {A : Type} (m m' : parser.M A) : Prop :=
  forall p, m p <> OutOfFuel -> m' p = m p.

(** [measure] doubled, plus one while the current token is not the end of
    the input: what bounds the statements left to [ParseProgram]. *)
Definition measure2 (p : parser.Parser) : nat :=
  2 * measure p
  + (if decide (lexer.Type_ (parser.curToken p) = lexer.EOF) then 0 else 1).

(** The fuel [parseExpression] needs. *)
Definition expressionFuel (p : parser.Parser) : nat :=
  2 * measure p + 2
  + (if decide (lexer.Type_ (parser.curToken p) = lexer.BRACKET_L) then 2 else 0).

(** [m] started on [p] has enough fuel, and [Q] holds of what it returns
    when it does not panic. *)
Definition holds {A : Type} (m : parser.M A) (p : parser.Parser)
  (Q : A -> parser.Parser -> Prop) : Prop :=
  match m p with
  | Ok (a, p') => Q a p'
  | Panic => True
  | OutOfFuel => False
  end.

(** A method of the parser keeps the invariant, does not add to the work
    left and only appends to the errors. *)
Definition advances (p p' : parser.Parser) : Prop :=
  wfParser p' /\ measure p' <= measure p
  /\ exists es, parser.errors p' = parser.errors p ++ es.

(** A keyword node holds the literal of its token, a word whose uppercase
    form is the keyword of the token. *)
Fixpoint keywordsOk (e : parser.Expression) : Prop :=
  match e with
  | parser.KeywordExpression t v =>
      v = lexer.Literal t /\ isKeywordType (lexer.Type_ t) = true
      /\ lexer.LookupIdent (ToUpper v) = lexer.Type_ t
  | parser.RangeExpression s e => keywordsOk s /\ keywordsOk e
  | parser.OptionExpression o v =>
      keywordsOk o /\ match v with Some v => keywordsOk v | None => True end
  | _ => True
  end.

Definition int64 (v : Z) : Prop := (- 2 ^ 63 <= v < 2 ^ 63)%Z.

(** The nodes an error-free parse builds. *)
Fixpoint parsedNode (e : parser.Expression) : Prop :=
  match e with
  | parser.Ident i =>
      identWord (parser.Value i) = true
      /\ lexer.LookupIdent (ToUpper (parser.Value i)) = lexer.IDENT
  | parser.StringLiteral _ _ | parser.FloatLiteral _ _
  | parser.PatternExpression _ _ => True
  | parser.IntegerLiteral _ v => int64 v
  | parser.KeywordExpression _ v =>
      identWord v = true /\ isKeywordType (lexer.LookupIdent (ToUpper v)) = true
  | parser.RangeExpression s e => parsedNode s /\ parsedNode e
  | parser.OptionExpression _ _ => False
  | parser.NilPtr _ => False
  end.

Definition isPattern (e : parser.Expression) : bool :=
  match e with
  | parser.PatternExpression _ _ => true
  | _ => false
  end.

(** The nodes whose first token could continue a pattern. *)
Definition startsPattern (e : parser.Expression) : bool :=
  match e with
  | parser.Ident _ | parser.PatternExpression _ _ => true
  | _ => false
  end.

(** No argument that follows a pattern could have been merged into it. *)
Definition separated (args : list parser.Expression) : Prop :=
  forall i e1 e2, args !! i = Some e1 -> args !! S i = Some e2 ->
    isPattern e1 = true -> startsPattern e2 = false.

(** What [parseExpression], started on [p], returns with [p']. *)
Definition expressionPost (p : parser.Parser) (r : option parser.Expression)
  (p' : parser.Parser) : Prop :=
  advances p p'
  /\ match r with
     | Some e =>
         keywordsOk e
         /\ (parser.errors p' = parser.errors p -> parsedNode e)
         /\ (startsPattern e = true ->
             parser.isPatternPart (lexer.Type_ (parser.curToken p)) = true)
         /\ (isPattern e = true ->
             parser.isPatternPart (lexer.Type_ (parser.peekToken p')) = false)
     | None => parser.errors p' <> parser.errors p
     end.

(** What [parseRangeExpression], started on [p], returns with [p']. *)
Definition rangePost (p : parser.Parser) (e : parser.Expression)
  (p' : parser.Parser) : Prop :=
  advances p p' /\ keywordsOk e
  /\ (parser.errors p' = parser.errors p -> parsedNode e)
  /\ startsPattern e = false /\ isPattern e = false.

(** The invariant of the argument loop of [parseRedisCommand]. *)
Definition argumentsInv (args : list parser.Expression) (p : parser.Parser) : Prop :=
  Forall keywordsOk args
  /\ (parser.errors p = [] ->
      Forall parsedNode args /\ separated args
      /\ forall e, last args = Some e -> isPattern e = true ->
           parser.isPatternPart (lexer.Type_ (parser.peekToken p)) = false).

(** The commands an error-free parse builds. *)
Definition parsedCommand (cmd : parser.RedisCommand) : Prop :=
  identWord (parser.Value (parser.Command cmd)) = true
  /\ lexer.LookupIdent (ToUpper (parser.Value (parser.Command cmd))) = lexer.IDENT
  /\ Forall parsedNode (parser.Arguments cmd)
  /\ separated (parser.Arguments cmd).

(** What [parseRedisCommand], started on [p], returns with [p']. *)
Definition commandPost (p : parser.Parser) (r : option parser.RedisCommand)
  (p' : parser.Parser) : Prop :=
  advances p p'
  /\ match r with
     | Some cmd =>
         Forall keywordsOk (parser.Arguments cmd)
         /\ (parser.errors p' = [] -> parsedCommand cmd)
         /\ parser.endsCommand (lexer.Type_ (parser.peekToken p')) = true
     | None =>
         lexer.Type_ (parser.curToken p) <> lexer.IDENT
         /\ length (parser.errors p) < length (parser.errors p')
         /\ parser.lexer_ p' = parser.lexer_ p
         /\ parser.curToken p' = parser.curToken p
         /\ parser.peekToken p' = parser.peekToken p
     end.

(** ** Keyword nodes and statements *)






Definition statementOk (st : parser.Statement) : Prop :=
  match st with
  | parser.Stmt cmd => Forall keywordsOk (parser.Arguments cmd)
  | parser.NilRedisCommand => True
  end.

(** The error [parseRedisCommand] records on a token that is not an
    identifier. *)
Definition commandExpected (tok : lexer.Token) : string :=
  "Parser error at line " +:+ itoa (lexer.Line tok) +:+
  ", column " +:+ itoa (lexer.Column tok) +:+
  ": expected command identifier, got " +:+
  lexer.TokenType_String (lexer.Type_ tok).

(** A token that cannot begin a statement: [parseStatement] skips newlines
    and stops at the end of the input, and a command begins with an
    identifier. *)
Definition notCommandStart (tok : lexer.Token) : Prop :=
  lexer.Type_ tok <> lexer.IDENT /\ lexer.Type_ tok <> lexer.NEWLINE
  /\ lexer.Type_ tok <> lexer.EOF.

(** After a statement that does not begin with an identifier, no command
    begins before the next newline: here for the first statement of
    [input], whose first token is on the line of every token before the
    next newline. *)
Definition recoversAtBoundaryAsStated (input : string) : Prop :=
  forall first l prog errs,
    lexer.NextToken (lexer.New input) = Ok (first, l) ->
    notCommandStart first ->
    parser.ParseCommands input = Ok (prog, errs) ->
    forall cmd, parser.Stmt cmd ∈ parser.Statements prog ->
      lexer.Line (parser.Token (parser.Command cmd)) <> lexer.Line first.

(** ** Rendered text *)

(** What follows the text of an argument in a rendered command: the end
    of the text, the space before the next argument, or the comma or the
    bracket of a range. *)
Definition delimited (x : string) : bool :=
  match x with
  | EmptyString => true
  | String c _ => Ascii.eqb c " " || Ascii.eqb c "," || Ascii.eqb c "]"
  end.

(** The text [RedisCommand.String] puts after the command name, for the
    texts of the arguments. *)
Fixpoint spaced (texts : list string) : string :=
  match texts with
  | [] => EmptyString
  | t :: texts' => " " +:+ t +:+ spaced texts'
  end.

(** ** Nodes that render to a text the parser reads back *)

(** A string literal renders between double quotes, without escaping:
    the lexer reads the text back when its scan of the text ends at the
    closing quote. *)
Definition stringStable (v : string) : Prop :=
  quotedWalk DQUOTE (v +:+ String DQUOTE EmptyString) = Some (v, EmptyString).

(** A float literal renders with six decimals. *)
Definition floatStable (v : float64) : Prop := ParseFloat (FormatFloat v) = Some v.

(** The text of a pattern is made of tokens that continue a pattern, with
    no white space. *)
Fixpoint patternParts (fuel : nat) (s : string) : bool :=
  match s, fuel with
  | EmptyString, _ => true
  | _, O => false
  | String c _, S f =>
      match lexOne s with
      | Ok (t, _, r) =>
          negb (isSpace c) && parser.isPatternPart t && patternParts f r
      | _ => false
      end
  end.

(** The text of a pattern begins as [parseExpression] expects of a
    pattern: with a wildcard, or with an identifier and a colon. *)
Definition patternHead (s : string) : bool :=
  match lexOne s with
  | Ok (lexer.ASTERISK, _, _) | Ok (lexer.QUESTION, _, _) => true
  | Ok (lexer.IDENT, _, r) =>
      match lexOne r with
      | Ok (lexer.COLON, _, _) => true
      | _ => false
      end
  | _ => false
  end.

Definition patternStable (v : string) : Prop :=
  patternHead v = true /\ patternParts (String.length v) v = true.

Fixpoint stableNode (e : parser.Expression) : Prop :=
  match e with
  | parser.StringLiteral _ v => stringStable v
  | parser.FloatLiteral _ v => floatStable v
  | parser.PatternExpression _ v => patternStable v
  | parser.RangeExpression s e => stableNode s /\ stableNode e
  | _ => True
  end.

(** A node without the tokens it was read from: what is left is the kind
    of the node and its value. *)
Fixpoint untoken (e : parser.Expression) : parser.Expression :=
  match e with
  | parser.Ident i =>
      parser.Ident {| parser.Token := parser.zeroToken; parser.Value := parser.Value i |}
  | parser.StringLiteral _ v => parser.StringLiteral parser.zeroToken v
  | parser.IntegerLiteral _ v => parser.IntegerLiteral parser.zeroToken v
  | parser.FloatLiteral _ v => parser.FloatLiteral parser.zeroToken v
  | parser.KeywordExpression _ v => parser.KeywordExpression parser.zeroToken v
  | parser.PatternExpression _ v => parser.PatternExpression parser.zeroToken v
  | parser.RangeExpression s e => parser.RangeExpression (untoken s) (untoken e)
  | parser.OptionExpression o v =>
      parser.OptionExpression (untoken o)
        match v with Some v => Some (untoken v) | None => None end
  | parser.NilPtr t => parser.NilPtr t
  end.

(** The same command name and the same sequence of argument nodes. *)
Definition sameCommand (a b : parser.RedisCommand) : Prop :=
  parser.Value (parser.Command a) = parser.Value (parser.Command b)
  /\ map untoken (parser.Arguments a) = map untoken (parser.Arguments b).

(** The round trip of [input]: the command it parses to without errors
    renders to a text that parses to the same command without errors. *)
Definition roundTrips (input : string) : Prop :=
  forall cmd, parser.ParseCommand input = Ok (Some cmd, []) ->
    exists text cmd',
      parser.RedisCommand_String cmd = Ok text
      /\ parser.ParseCommand text = Ok (Some cmd', [])
      /\ sameCommand cmd cmd'.

(** ** A parser in front of a text *)

(** The token [p] looks ahead at is the first token of [s], and its lexer
    has the rest of [s] to read. *)
Definition ahead (p : parser.Parser) (s : string) : Prop :=
  wfParser p
  /\ lexOne s = Ok (lexer.Type_ (parser.peekToken p), lexer.Literal (parser.peekToken p),
                    rest (parser.lexer_ p)).

(** [r] is [a] wherever the fuel is enough. *)
Definition settles {A : Type} (r : Res A) (a : A) : Prop := r = Ok a \/ r = OutOfFuel.

(** An argument the parser has built without errors, that renders to [t]
    and that the parser reads back from [t]. *)
Definition rendersTo (e : parser.Expression) (t : string) : Prop :=
  parsedNode e /\ stableNode e /\ parser.Expression_String e = Ok t.

(** ** Inputs without a backslash *)

(** A parser between two calls of its methods whose lexer has no backslash
    left to read. *)
Definition safeParser (p : parser.Parser) : Prop :=
  wfParser p /\ Contains (rest (parser.lexer_ p)) BACKSLASH = false.

(** [m] neither panics on a parser that has no backslash to read nor
    leaves one that has. *)
Definition safeM {A : Type} (m : parser.M A) : Prop :=
  forall p, safeParser p ->
    match m p with
    | Ok (_, p') => safeParser p'
    | Panic => False
    | OutOfFuel => True
    end.

(** ** Strings that end inside an escape sequence *)

(** A byte that the scan of a string opened by [q] steps over: not the
    closing quote, not NUL, not a backslash. *)
Definition stringByte (q c : ascii) : bool :=
  negb (Ascii.eqb c q) && negb (Ascii.eqb c NUL) && negb (Ascii.eqb c BACKSLASH).


(** ** GetCommandInfo (parser.go) *)

(** The values [GetCommandInfo] stores in its [map[string]interface{}]. *)
Inductive InfoItem : Type :=
| IString (s : string)
| IInt (n : Z)
| IStrings (l : list string)
| IBool (b : bool).

(** The loop of [GetCommandInfo] from argument [i] on: [arg.Type()]
    answers on a nil pointer, [arg.String()] does not. *)
Fixpoint GetCommandInfo_loop (i : nat) (args : list parser.Expression)
  (info : gmap string InfoItem) (argTypes options : list string)
  : Res (gmap string InfoItem * list string * list string) :=
  match args with
  | [] => Ok (info, argTypes, options)
  | arg :: args' =>
      let argType := parser.Expression_Type arg in
      let argTypes := argTypes ++ [argType] in
      let info :=
        if (i =? 0)%nat
           && (String.eqb argType "Identifier" || String.eqb argType "StringLiteral")
        then <["has_key" := IBool true]> info else info in
      let info :=
        if String.eqb argType "StringLiteral" || String.eqb argType "IntegerLiteral"
           || String.eqb argType "FloatLiteral"
        then <["has_value" := IBool true]> info else info in
      if String.eqb argType "KeywordExpression" then
        s ← parser.Expression_String arg;
        GetCommandInfo_loop (S i) args' info argTypes (options ++ [s])
      else GetCommandInfo_loop (S i) args' info argTypes options
  end.

(** [GetCommandInfo(cmd)]: [None] is a nil [cmd], whose fields cannot be
    read. *)
Definition GetCommandInfo (cmd : option parser.RedisCommand)
  : Res (gmap string InfoItem) :=
  match cmd with
  | None => Panic
  | Some cmd =>
      let info : gmap string InfoItem :=
        <["command" := IString (parser.Value (parser.Command cmd))]>
        (<["arguments" := IInt (Z.of_nat (length (parser.Arguments cmd)))]>
        (<["arg_types" := IStrings []]>
        (<["options" := IStrings []]>
        (<["has_key" := IBool false]>
        (<["has_value" := IBool false]> ∅))))) in
      '(info, argTypes, options) ← GetCommandInfo_loop 0 (parser.Arguments cmd) info [] [];
      Ok (<["options" := IStrings options]> (<["arg_types" := IStrings argTypes]> info))
  end.

(** The text of an argument that is a keyword. *)
Definition keywordText (e : parser.Expression) : option string :=
  match e with
  | parser.KeywordExpression _ v => Some v
  | _ => None
  end.

Definition isKeyNode (e : parser.Expression) : bool :=
  match e with
  | parser.Ident _ | parser.StringLiteral _ _ => true
  | _ => false
  end.

Definition isValueNode (e : parser.Expression) : bool :=
  match e with
  | parser.StringLiteral _ _ | parser.IntegerLiteral _ _ | parser.FloatLiteral _ _ => true
  | _ => false
  end.

(** What [GetCommandInfo] says of a command whose arguments hold no nil
    pointer. *)
Definition describes (info : gmap string InfoItem) (cmd : parser.RedisCommand) : Prop :=
  info !! "command" = Some (IString (parser.Value (parser.Command cmd)))
  /\ info !! "arguments" = Some (IInt (Z.of_nat (length (parser.Arguments cmd))))
  /\ info !! "arg_types" = Some (IStrings (map parser.Expression_Type (parser.Arguments cmd)))
  /\ info !! "options" = Some (IStrings (omap keywordText (parser.Arguments cmd)))
  /\ info !! "has_key"
     = Some (IBool (match parser.Arguments cmd with
                    | e :: _ => isKeyNode e
                    | [] => false
                    end))
  /\ info !! "has_value" = Some (IBool (existsb isValueNode (parser.Arguments cmd))).

(** An expression, at the top of an argument, that is not a nil pointer. *)
Definition notNil (e : parser.Expression) : Prop :=
  match e with
  | parser.NilPtr _ => False
  | _ => True
  end.

(** ** Results of the validator *)

(** The flag of a result says whether it holds no error. *)
Definition consistent (r : ValidationResult) : Prop :=
  Valid r = true <-> Errors r = [].

(** No argument of [cmd] is a keyword, nil or not. *)
Definition keywordFree (cmd : parser.RedisCommand) : Prop :=
  Forall (fun e => parser.Expression_NodeType e <> parser.TKeywordExpression)
    (parser.Arguments cmd).

(** [SET key value EX|PX n]: a command named SET in any letter case,
    with a key, a value that is not a keyword, an expiry keyword in any
    letter case and an integer. *)
Definition setWithExpiry (cmd : parser.RedisCommand) (n : Z) : Prop :=
  ToUpper (parser.Value (parser.Command cmd)) = "SET"
  /\ exists k v t kw t',
       parser.Arguments cmd
       = [k; v; parser.KeywordExpression t kw; parser.IntegerLiteral t' n]
       /\ isKeyNode k = true
       /\ parser.Expression_NodeType v <> parser.TKeywordExpression
       /\ (ToUpper kw = "EX" \/ ToUpper kw = "PX").

(** ** Nil pointers in a node *)

(** The node is a nil pointer or holds one: in a range, in the option or
    in the value of an [OptionExpression]. *)
Fixpoint holdsNil (e : parser.Expression) : bool :=
  match e with
  | parser.NilPtr _ => true
  | parser.RangeExpression s e => holdsNil s || holdsNil e
  | parser.OptionExpression o v =>
      holdsNil o || match v with Some v => holdsNil v | None => false end
  | _ => false
  end.

(** [result] is what [ValidateCommand] returns for the command of the
    statement [st]. *)
Definition validates (a : semantic.Analyzer) (st : parser.Statement)
  (result : semantic.ValidationResult) : Prop :=
  exists cmd, st = parser.Stmt cmd /\ semantic.ValidateCommand a cmd = Ok result.

(** The warning of [validateOptions] for a keyword that is no option of
    the command. *)
Definition unknownOptionWarning (cmd : parser.RedisCommand) (kw : string) : string :=
  "Unknown option '" +:+ ToUpper kw +:+ "' for command " +:+
  parser.Value (parser.Command cmd).

(** ** The statements of a program *)

(** The command node of a statement, if it made one. *)
Definition commandOf (st : option parser.Statement) : list parser.RedisCommand :=
  match st with
  | Some (parser.Stmt cmd) => [cmd]
  | _ => []
  end.

(** The command nodes among the statements of a program. *)
Definition commandNodes (stmts : list parser.Statement) : list parser.RedisCommand :=
  flat_map (fun st => commandOf (Some st)) stmts.

(** The parser [p] stands at the head of the loop of [ParseProgram] on
    [input], and the turns before have made the command nodes [cmds]: at
    the first turn the parser is the one [New] returns, and a turn runs
    [parseStatement] and then [nextToken]. *)
Inductive loopHead (input : string) : list parser.RedisCommand -> parser.Parser -> Prop :=
| loopHead_first p :
    parser.New (lexer.New input) = Ok p ->
    loopHead input [] p
| loopHead_next cmds p fuel stmt p1 p2 :
    loopHead input cmds p ->
    lexer.Type_ (parser.curToken p) <> lexer.EOF ->
    parser.parseStatement fuel p = Ok (stmt, p1) ->
    parser.nextToken p1 = Ok (tt, p2) ->
    loopHead input (cmds ++ commandOf stmt) p2.

(** A statement of [input] begins at [p]: [parseStatement], called at the
    head of the loop, has skipped the newlines in front of it. *)
Definition statementBegins (input : string) (cmds : list parser.RedisCommand)
  (p : parser.Parser) : Prop :=
  exists p0 fuel,
    loopHead input cmds p0
    /\ lexer.Type_ (parser.curToken p0) <> lexer.EOF
    /\ parser.skipNewlines fuel p0 = Ok (tt, p).

(** ** Text of bytes below 0x80 *)

(** On such text [ToUpper] is [strings.ToUpper]. *)
Definition asciiText (s : string) : bool :=
  sforall (fun c => (nat_of_ascii c <? 128)%nat) s.

(** * Proofs: the semantic validator *)

Lemma Expression_String_fuel e : parser.Expression_String e <> OutOfFuel.
Proof.
  induction e as [| | | | | |s e IHs IHe|o v IHo IHv|] using parser.Expression_induction;
    cbn [parser.Expression_String]; try done.
  - destruct (parser.Expression_String s); try done.
    destruct (parser.Expression_String e); done.
  - destruct v as [v|]; [|done].
    destruct (parser.Expression_String o); try done.
    destruct (parser.Expression_String v); done.
Qed.

Section Validator.

Variable cmd : parser.RedisCommand.
Variable spec : CommandSpec.

Lemma NodeType_name_inj t1 t2 :
  parser.NodeType_name t1 = parser.NodeType_name t2 -> t1 = t2.
Proof. destruct t1, t2; simpl; intros H; try reflexivity; discriminate H. Qed.

Lemma Type_eqb_NodeType e t :
  String.eqb (parser.Expression_Type e) (parser.NodeType_name t)
  = bool_decide (parser.Expression_NodeType e = t).
Proof.
  unfold parser.Expression_Type.
  case_bool_decide as H.
  - rewrite H. apply String.eqb_refl.
  - apply String.eqb_neq. intros E. apply H. by apply NodeType_name_inj.
Qed.

(** One iteration of the positional check adds a mismatch error exactly
    when the declared category does not accept the kind of the argument. *)
Lemma checkArgumentType_accepts i category arg result :
  checkArgumentType cmd i category arg result =
  if accepts category (parser.Expression_NodeType arg) then result
  else addError result (Message (typeMismatch cmd i category arg))
         (parser.Value (parser.Command cmd)) "TYPE_MISMATCH".
Proof.
  unfold checkArgumentType, accepts, typeMismatch, expectation, parser.Expression_Type.
  simpl Message.
  destruct (String.eqb category "key") eqn:Ekey.
  { destruct (parser.Expression_NodeType arg); reflexivity. }
  destruct (String.eqb category "value") eqn:Evalue.
  { apply String.eqb_eq in Evalue. subst category. reflexivity. }
  destruct (String.eqb category "field") eqn:Efield.
  { destruct (parser.Expression_NodeType arg); reflexivity. }
  destruct (String.eqb category "score") eqn:Escore.
  { apply String.eqb_eq in Escore. subst category.
    destruct (parser.Expression_NodeType arg); reflexivity. }
  destruct (String.eqb category "member") eqn:Emember.
  { apply String.eqb_eq in Emember. subst category.
    destruct (parser.Expression_NodeType arg); reflexivity. }
  destruct (String.eqb category "cursor") eqn:Ecursor.
  { destruct (parser.Expression_NodeType arg); reflexivity. }
  destruct (String.eqb category "start") eqn:Estart.
  { destruct (parser.Expression_NodeType arg); reflexivity. }
  destruct (String.eqb category "stop") eqn:Estop.
  { destruct (parser.Expression_NodeType arg); reflexivity. }
  reflexivity.
Qed.

Lemma validateArgumentTypes_loop_spec args : forall i result,
  let r := validateArgumentTypes_loop cmd spec i args result in
  Errors r = Errors result ++ typeMismatches cmd i args (drop i (ValueTypes spec))
  /\ Warnings r = Warnings result
  /\ CommandInfo r = CommandInfo result.
Proof.
  induction args as [|arg rest IH]; intros i result; simpl.
  - by rewrite app_nil_r.
  - destruct (ValueTypes spec !! i) as [category|] eqn:Hcat.
    + rewrite (drop_S _ _ _ Hcat).
      destruct (IH (S i) (checkArgumentType cmd i category arg result)) as (HE & HW & HC).
      rewrite HE, HW, HC, checkArgumentType_accepts.
      destruct (accepts category (parser.Expression_NodeType arg)); simpl.
      * done.
      * by rewrite <- app_assoc.
    + apply lookup_ge_None in Hcat. rewrite drop_ge by lia.
      by rewrite app_nil_r.
Qed.

(** *** The option scan *)

(** Checking an option's value only appends to the result; while
    [CommandInfo] is empty, what it appends is what it yields on the
    empty result, and the errors carry the command name "unknown". *)
Lemma validateOptionValue_appends name o v res res' :
  CommandInfo res = ∅ ->
  validateOptionValue name o v res = Ok res' ->
  exists rv,
    validateOptionValue name o v emptyResult = Ok rv
    /\ Errors res' = Errors res ++ Errors rv
    /\ Warnings res' = Warnings res ++ Warnings rv
    /\ CommandInfo res' = ∅
    /\ Forall valueErrorOk (Errors rv).
Proof.
  destruct res as [valid errs warns info]. simpl. intros ->.
  unfold validateOptionValue, emptyResult. simpl. rewrite lookup_empty.
  intros H.
  repeat match type of H with
  | context [if ?b then _ else _] => destruct b eqn:?
  | context [match ?v with parser.Ident _ => _ | _ => _ end] => destruct v
  end; try discriminate H; injection H as <-;
  eexists; (split; [reflexivity|]); simpl; rewrite ?app_nil_r;
  repeat split;
  repeat first [apply Forall_nil_2 | apply Forall_cons_2];
  unfold valueErrorOk; cbn [Type_ Command]; auto.
Qed.

Lemma checkConflicts_spec name usedOptions conflicts : forall result,
  let r := checkConflicts cmd name usedOptions conflicts result in
  Errors r = Errors result
             ++ map (conflictError cmd name) (filter (fun c => used usedOptions c = true) conflicts)
  /\ Warnings r = Warnings result
  /\ CommandInfo r = CommandInfo result.
Proof.
  induction conflicts as [|c rest IH]; intros result; cbn [checkConflicts].
  - rewrite filter_nil. cbn [map]. by rewrite app_nil_r.
  - cbv zeta in IH. rewrite filter_cons.
    destruct (used usedOptions c) eqn:Hu.
    + destruct (IH (addError result
                         ("Option '" +:+ name +:+ "' conflicts with '" +:+ c +:+ "'")
                         (parser.Value (parser.Command cmd)) "OPTION_CONFLICT"))
        as (HE & HW & HC).
      rewrite HE, HW, HC. rewrite decide_True by done.
      cbn [map addError Errors Warnings CommandInfo]. by rewrite <- app_assoc.
    + destruct (IH result) as (HE & HW & HC).
      rewrite HE, HW, HC. rewrite decide_False by (by intros ?). done.
Qed.

Lemma validateOptions_loop_step f i usedOptions result r :
  i < length (parser.Arguments cmd) ->
  validateOptions_loop (S f) cmd spec i usedOptions result = Ok r ->
  loopStep cmd spec f i usedOptions result r.
Proof.
  intros Hi H. cbn [validateOptions_loop] in H.
  destruct (parser.Arguments cmd !! i) as [arg|] eqn:Harg;
    [|apply lookup_ge_None in Harg; lia].
  change "KeywordExpression" with (parser.NodeType_name parser.TKeywordExpression) in H.
  rewrite Type_eqb_NodeType in H.
  case_bool_decide as Hk.
  - destruct arg; cbn [parser.Expression_NodeType] in Hk; try discriminate Hk.
    + cbn [parser.Expression_String mbind Res_bind] in H.
      assert (Hat : forall o, Options spec !! ToUpper Value = Some o ->
                optionAt cmd spec i = Some (ToUpper Value, o)).
      { intros o Ho. unfold optionAt. by rewrite Harg, Ho. }
      destruct (Options spec !! ToUpper Value) as [o|] eqn:Ho.
      * specialize (Hat o eq_refl).
        destruct (HasValue o) eqn:Hv.
        -- destruct (length (parser.Arguments cmd) <=? i + 1) eqn:Hlen.
           ++ apply Nat.leb_le in Hlen.
              eapply step_missing; [exact Hat|exact Hv|exact Hlen|exact H].
           ++ destruct (parser.Arguments cmd !! (i + 1)) as [v|] eqn:Hval;
                [|discriminate H].
              destruct (validateOptionValue (ToUpper Value) o v _) as [res'| |] eqn:Hov;
                try discriminate H.
              cbn [mbind Res_bind] in H. replace (i + 1 + 1) with (i + 2) in H by lia.
              eapply step_value; [exact Hat|exact Hv|exact Hval|exact Hov|exact H].
        -- eapply step_flag; [exact Hat|exact Hv|exact H].
      * eapply step_plain; [| | | |exact H].
        -- unfold optionAt. by rewrite Harg, Ho.
        -- reflexivity.
        -- eexists. reflexivity.
        -- reflexivity.
    + subst t. discriminate H.
  - eapply step_plain; [| | | |exact H].
    + unfold optionAt. rewrite Harg. destruct arg; try done; exfalso; by apply Hk.
    + reflexivity.
    + exists []. by rewrite app_nil_r.
    + reflexivity.
Qed.

Lemma optionErrorOk_conflicts name l :
  Forall optionErrorOk (map (conflictError cmd name) l).
Proof. apply Forall_forall. intros e [c [-> _]]%list_elem_of_fmap. by left. Qed.

(** The option scan only appends to the result, and what it appends are
    option errors; it leaves [CommandInfo] empty. *)
Lemma validateOptions_loop_appends fuel : forall i usedOptions result r,
  CommandInfo result = ∅ ->
  validateOptions_loop fuel cmd spec i usedOptions result = Ok r ->
  exists es ws,
    Errors r = Errors result ++ es /\ Warnings r = Warnings result ++ ws
    /\ CommandInfo r = ∅ /\ Forall optionErrorOk es.
Proof.
  induction fuel as [|f IH]; intros i usedOptions result r Hinfo H; [discriminate H|].
  destruct (decide (i < length (parser.Arguments cmd))) as [Hi|Hi].
  2: { cbn [validateOptions_loop] in H.
       rewrite (proj2 (lookup_ge_None _ _)) in H by lia. injection H as <-.
       exists [], []. by rewrite !app_nil_r. }
  destruct (validateOptions_loop_step _ _ _ _ _ Hi H)
    as [res' _ HE [ws HW] HC Hloop
       | name o _ _ Hloop
       | name o _ _ _ Hloop
       | name o v res' _ _ _ Hval Hloop].
  - destruct (IH _ _ _ _ (eq_trans HC Hinfo) Hloop) as (es & ws' & HE' & HW' & HC' & Hok).
    exists es, (ws ++ ws'). rewrite HE', HW', HE, HW, <- app_assoc. done.
  - destruct (checkConflicts_spec name usedOptions (Conflicts o) result) as (HE & HW & HC).
    destruct (IH _ _ _ _ (eq_trans HC Hinfo) Hloop) as (es & ws' & HE' & HW' & HC' & Hok).
    eexists _, ws'. rewrite HE', HW', HE, HW, <- app_assoc.
    repeat split; try done. apply Forall_app. split; [apply optionErrorOk_conflicts|done].
  - destruct (checkConflicts_spec name usedOptions (Conflicts o) result) as (HE & HW & HC).
    apply IH in Hloop as (es & ws' & HE' & HW' & HC' & Hok);
      [|cbn [addError CommandInfo]; by rewrite HC].
    cbn [addError Errors Warnings] in HE', HW'.
    eexists _, ws'. rewrite HE', HW', HE, HW, <- !app_assoc.
    repeat split; try done.
    apply Forall_app. split; [apply optionErrorOk_conflicts|].
    apply Forall_app. split; [|done].
    apply Forall_cons_2; [|apply Forall_nil_2]. right. by left.
  - destruct (checkConflicts_spec name usedOptions (Conflicts o) result) as (HE & HW & HC).
    destruct (validateOptionValue_appends _ _ _ _ _ (eq_trans HC Hinfo) Hval)
      as (rv & _ & HEv & HWv & HCv & Hokv).
    destruct (IH _ _ _ _ HCv Hloop) as (es & ws' & HE' & HW' & HC' & Hok).
    eexists _, _. rewrite HE', HW', HEv, HWv, HE, HW, <- !app_assoc.
    repeat split; try done.
    apply Forall_app. split; [apply optionErrorOk_conflicts|].
    apply Forall_app. split; [|done].
    eapply Forall_impl; [exact Hokv|]. intros e He. right. by right.
Qed.

(** The fuel [validateOptions] supplies is never exhausted. *)
Lemma validateOptions_loop_fuel fuel : forall i usedOptions result,
  length (parser.Arguments cmd) - i < fuel ->
  validateOptions_loop fuel cmd spec i usedOptions result <> OutOfFuel.
Proof.
  induction fuel as [|f IH]; intros i usedOptions result Hf; [lia|].
  cbn [validateOptions_loop].
  destruct (parser.Arguments cmd !! i) as [arg|] eqn:Harg; [|done].
  apply lookup_lt_Some in Harg.
  assert (Hnext : forall u r, validateOptions_loop f cmd spec (i + 1) u r <> OutOfFuel)
    by (intros; apply IH; lia).
  destruct (String.eqb _ _); [|apply Hnext].
  destruct (parser.Expression_String arg) as [text| |] eqn:Htext;
    cbn [mbind Res_bind]; try done.
  2: { by apply Expression_String_fuel in Htext. }
  destruct (Options spec !! ToUpper text) as [o|]; [|apply Hnext].
  destruct (HasValue o); [|apply Hnext].
  destruct (_ <=? _); [apply Hnext|].
  destruct (parser.Arguments cmd !! (i + 1)) as [v|]; [|done].
  destruct (validateOptionValue _ _ _ _) as [res| |] eqn:Hv; cbn [mbind Res_bind]; try done.
  - apply IH. lia.
  - unfold validateOptionValue in Hv.
    repeat match type of Hv with
    | context [if ?b then _ else _] => destruct b
    | context [match ?v with parser.Ident _ => _ | _ => _ end] => destruct v
    end; discriminate Hv.
Qed.

Lemma scanFrom_ge fuel : forall i j, j ∈ scanFrom fuel cmd spec i -> i <= j.
Proof.
  induction fuel as [|f IH]; intros i j; cbn [scanFrom]; [by intros ?%elem_of_nil|].
  destruct (i <? length (parser.Arguments cmd)); [|by intros ?%elem_of_nil].
  intros [->|Hj%IH]%elem_of_cons; [lia|].
  destruct (consumesNext cmd spec i); lia.
Qed.


Lemma used_insert usedOptions name x :
  used (<[name := true]> usedOptions) x = true <->
  x = name \/ used usedOptions x = true.
Proof.
  unfold used. destruct (decide (x = name)) as [->|Hne].
  - rewrite lookup_insert_eq. cbn. split; [by left|done].
  - rewrite lookup_insert_ne by done. split; [tauto|]. by intros [?|?].
Qed.

Lemma validateOptions_loop_records fuel : forall i usedOptions result r,
  CommandInfo result = ∅ ->
  validateOptions_loop fuel cmd spec i usedOptions result = Ok r ->
  forall j, j ∈ scanFrom fuel cmd spec i ->
    scanRecords cmd spec usedOptions (scanFrom fuel cmd spec i) r j.
Proof.
  induction fuel as [|f IH]; intros i usedOptions result r Hinfo H j; [discriminate H|].
  cbn [scanFrom].
  destruct (i <? length (parser.Arguments cmd)) eqn:Hi; [|by intros ?%elem_of_nil].
  apply Nat.ltb_lt in Hi.
  pose proof (validateOptions_loop_step _ _ _ _ _ Hi H) as Hstep.
  set (next := if consumesNext cmd spec i then i + 2 else i + 1).
  (* the rest of the scan keeps what this iteration has added *)
  assert (Hrest : forall res' u',
            CommandInfo res' = ∅ ->
            validateOptions_loop f cmd spec next u' res' = Ok r ->
            (forall x, used usedOptions x = true -> used u' x = true) ->
            (forall name o, optionAt cmd spec i = Some (name, o) -> used u' name = true) ->
            j ∈ scanFrom f cmd spec next ->
            scanRecords cmd spec usedOptions (i :: scanFrom f cmd spec next) r j).
  { intros res' u' Hinfo' Hloop Hmono Hrec Hj name o Hat.
    destruct (IH _ _ _ _ Hinfo' Hloop j Hj name o Hat) as (Hc & Hm & Hv).
    split; [|by split].
    intros first Hfirst [Hu|(k & o' & [->|Hk]%elem_of_cons & Hlt & Hk')].
    - apply Hc; auto.
    - apply Hc; [done|]. left. by eapply Hrec.
    - apply Hc; [done|]. right. by exists k, o'. }
  intros [->|Hj]%elem_of_cons.
  - (* the option at [j = i] is handled by this iteration *)
    intros name o Hat.
    assert (Hnone : forall first,
              used usedOptions first = true
              \/ (exists k o', k ∈ i :: scanFrom f cmd spec next /\ k < i
                               /\ optionAt cmd spec k = Some (first, o')) ->
              used usedOptions first = true).
    { intros first [Hu|(k & o' & [->|Hk%scanFrom_ge]%elem_of_cons & Hlt & _)]; [done|lia|].
      subst next. destruct (consumesNext cmd spec i); lia. }
    destruct (checkConflicts_spec name usedOptions (Conflicts o) result) as (HE & HW & HC).
    assert (Hconf : forall res', (exists es, Errors res' =
                Errors (checkConflicts cmd name usedOptions (Conflicts o) result) ++ es) ->
              forall first, first ∈ Conflicts o -> used usedOptions first = true ->
              conflictError cmd name first ∈ Errors res').
    { intros res' [es ->] first Hfirst Hu. rewrite HE.
      apply elem_of_app. left. apply elem_of_app. right.
      apply list_elem_of_fmap. exists first. split; [done|].
      by apply list_elem_of_filter. }
    destruct Hstep as [res' Hat' _ _ _ _
       | name' o' Hat' Hflag Hloop
       | name' o' Hat' Hval Hlen Hloop
       | name' o' v res' Hat' Hval Hv Hov Hloop]; rewrite Hat in Hat'; simplify_eq.
    + apply validateOptions_loop_appends in Hloop as (es & ws & HE' & _); [|by rewrite HC].
      split; [|split; intros; congruence].
      intros first Hfirst Hprior%Hnone. apply Hconf; eauto.
    + apply validateOptions_loop_appends in Hloop as (es & ws & HE' & _);
        [|cbn [addError CommandInfo]; by rewrite HC].
      cbn [addError Errors] in HE'.
      split; [|split].
      * intros first Hfirst Hprior%Hnone. apply Hconf; [|done..].
        eexists. rewrite HE', <- app_assoc. reflexivity.
      * intros _ _. rewrite HE'. apply elem_of_app. left. apply elem_of_app. right.
        by apply list_elem_of_singleton.
      * intros _ v Hv. apply lookup_lt_Some in Hv. lia.
    + pose proof Hov as (rv & Hrv & HEv & HWv & HCv & _)%validateOptionValue_appends;
        [|by rewrite HC].
      apply validateOptions_loop_appends in Hloop as (es & ws & HE' & HW' & _); [|done].
      split; [|split].
      * intros first Hfirst Hprior%Hnone. apply Hconf; [|done..].
        eexists. rewrite HE', HEv, <- app_assoc. reflexivity.
      * intros _ Hlen. apply lookup_lt_Some in Hv. lia.
      * intros _ v' Hv'. rewrite Hv in Hv'. injection Hv' as <-.
        exists rv. split; [done|]. rewrite HE', HW', HEv, HWv. split.
        -- intros e He. apply elem_of_app. left. apply elem_of_app. by right.
        -- intros w Hw. apply elem_of_app. left. apply elem_of_app. by right.
  - (* [j] is visited later *)
    assert (Hnext : forall name o, optionAt cmd spec i = Some (name, o) ->
              next = if HasValue o && (i + 1 <? length (parser.Arguments cmd))
                     then i + 2 else i + 1).
    { intros name o Hat. subst next. unfold consumesNext. by rewrite Hat. }
    destruct (checkConflicts_spec
                (default "" (fst <$> optionAt cmd spec i)) usedOptions
                (default [] (Conflicts ∘ snd <$> optionAt cmd spec i)) result)
      as (_ & _ & HC).
    destruct Hstep as [res' Hat' _ _ HC' Hloop
       | name' o' Hat' Hflag Hloop
       | name' o' Hat' Hval Hlen Hloop
       | name' o' v res' Hat' Hval Hv Hov Hloop].
    + assert (next = i + 1) as Hn
        by (subst next; unfold consumesNext; by rewrite Hat').
      rewrite Hn in *.
      apply (Hrest res' usedOptions); [congruence|exact Hloop|auto| |exact Hj].
      intros name o Hat. congruence.
    + rewrite Hat' in HC. cbn in HC.
      rewrite (Hnext _ _ Hat'), Hflag in *. cbn [andb] in *.
      eapply Hrest; [|exact Hloop| | |exact Hj]; [congruence| |].
      * intros x Hx. apply used_insert. by right.
      * intros name o Hat. rewrite Hat in Hat'. simplify_eq. apply used_insert. by left.
    + rewrite Hat' in HC. cbn in HC.
      rewrite (Hnext _ _ Hat'), Hval in *.
      rewrite (proj2 (Nat.ltb_ge _ _)) in * by lia. cbn [andb] in *.
      eapply Hrest; [|exact Hloop| | |exact Hj];
        [cbn [addError CommandInfo]; congruence| |].
      * intros x Hx. apply used_insert. by right.
      * intros name o Hat. rewrite Hat in Hat'. simplify_eq. apply used_insert. by left.
    + rewrite Hat' in HC. cbn in HC.
      apply lookup_lt_Some in Hv as Hlt.
      rewrite (Hnext _ _ Hat'), Hval in *.
      rewrite (proj2 (Nat.ltb_lt _ _)) in * by lia. cbn [andb] in *.
      apply validateOptionValue_appends in Hov as (rv & _ & _ & _ & HCv & _);
        [|congruence].
      eapply Hrest; [exact HCv|exact Hloop| | |exact Hj].
      * intros x Hx. apply used_insert. by right.
      * intros name o Hat. rewrite Hat in Hat'. simplify_eq. apply used_insert. by left.
Qed.

(** The shape of the result for a command the table knows: the errors are
    those of the argument count, then those of the positional type check,
    then those of the option scan. *)
Lemma ValidateCommand_known a r :
  specOf a cmd = Some spec ->
  ValidateCommand a cmd = Ok r ->
  exists es,
    Errors r = countErrors cmd spec
               ++ typeMismatches cmd 0 (parser.Arguments cmd) (ValueTypes spec) ++ es
    /\ Forall optionErrorOk es
    /\ forall j, j ∈ scanned cmd spec -> scanRecords cmd spec ∅ (scanned cmd spec) r j.
Proof.
  unfold specOf, ValidateCommand. intros -> H. cbv zeta in H.
  match type of H with
  | context [validateArgumentTypes cmd spec ?r0] => set (counted := r0) in H
  end.
  assert (Hcount : Errors counted = countErrors cmd spec /\ CommandInfo counted = ∅).
  { subst counted. unfold countErrors, argCount.
    destruct (_ <? MinArgs spec)%Z; destruct (negb _ && _); done. }
  destruct Hcount as [HEc HCc].
  destruct (validateArgumentTypes_loop_spec (parser.Arguments cmd) 0 counted)
    as (HEt & _ & HCt).
  fold (validateArgumentTypes cmd spec counted) in HEt, HCt.
  rewrite drop_0 in HEt.
  destruct (validateOptions cmd spec _) as [ro| |] eqn:Hopt; try discriminate H.
  cbn [mbind Res_bind] in H.
  assert (HEr : Errors r = Errors ro /\ Warnings r = Warnings ro).
  { repeat match type of H with
    | context [if ?b then _ else _] => destruct b
    | context [match ?o with Some _ => _ | None => _ end] => destruct o
    | context [parser.Expression_String ?e] => destruct (parser.Expression_String e)
    end; cbn [mbind Res_bind] in H; try discriminate H; by injection H as <-. }
  destruct HEr as [HEr HWr].
  unfold validateOptions in Hopt.
  pose proof Hopt as (es & ws & HEo & _ & _ & Hok)%validateOptions_loop_appends;
    [|by rewrite HCt].
  exists es. split; [|split; [done|]].
  - by rewrite HEr, HEo, HEt, HEc, <- app_assoc.
  - intros j Hj.
    pose proof (validateOptions_loop_records _ _ _ _ _ (eq_trans HCt HCc) Hopt j Hj) as Hrec.
    intros name o Hat. destruct (Hrec name o Hat) as (Hc & Hm & Hv).
    rewrite HEr, HWr. done.
Qed.

Lemma validateOptionValue_returns name o v res :
  renders v -> exists res', validateOptionValue name o v res = Ok res'.
Proof.
  intros [s Hs]. unfold validateOptionValue.
  change "IntegerLiteral" with (parser.NodeType_name parser.TIntegerLiteral).
  rewrite Type_eqb_NodeType.
  destruct (String.eqb (ValueType o) "integer"); [|repeat case_match; eauto].
  case_bool_decide as Hk; cbn [negb]; [|eauto].
  destruct v; cbn [parser.Expression_NodeType] in Hk; try discriminate Hk.
  - case_match; eauto.
  - discriminate Hs.
Qed.

Lemma validateOptions_loop_returns fuel : forall i usedOptions result,
  Forall renders (parser.Arguments cmd) ->
  length (parser.Arguments cmd) - i < fuel ->
  exists r, validateOptions_loop fuel cmd spec i usedOptions result = Ok r.
Proof.
  induction fuel as [|f IH]; intros i usedOptions result Hall Hf; [lia|].
  cbn [validateOptions_loop].
  destruct (parser.Arguments cmd !! i) as [arg|] eqn:Harg; [|eauto].
  pose proof (lookup_lt_Some _ _ _ Harg) as Hi.
  assert (Hnext : forall u r, exists r',
            validateOptions_loop f cmd spec (i + 1) u r = Ok r')
    by (intros; apply IH; [done|lia]).
  destruct (String.eqb _ _); [|apply Hnext].
  destruct (proj1 (Forall_lookup _ _) Hall _ _ Harg) as [text ->].
  cbn [mbind Res_bind].
  destruct (Options spec !! ToUpper text) as [o|]; [|apply Hnext].
  destruct (HasValue o); [|apply Hnext].
  destruct (_ <=? _) eqn:Hlen; [apply Hnext|].
  apply Nat.leb_gt in Hlen.
  destruct (lookup_lt_is_Some_2 (parser.Arguments cmd) (i + 1) Hlen) as [v Hv].
  rewrite Hv.
  destruct (validateOptionValue_returns (ToUpper text) o v
              (checkConflicts cmd (ToUpper text) usedOptions (Conflicts o) result))
    as [res' ->].
  { exact (proj1 (Forall_lookup _ _) Hall _ _ Hv). }
  cbn [mbind Res_bind]. apply IH; [done|lia].
Qed.

End Validator.

(** Validation returns a result for every command whose arguments
    render, that is, hold no nil pointer. *)
Lemma ValidateCommand_returns a cmd :
  Forall renders (parser.Arguments cmd) ->
  exists r, ValidateCommand a cmd = Ok r.
Proof.
  intros Hall. unfold ValidateCommand.
  destruct (commands a !! _) as [spec|]; [|eauto]. cbv zeta.
  unfold validateOptions.
  match goal with
  | |- context [validateOptions_loop ?f cmd spec 0 ∅ ?r0] =>
      destruct (validateOptions_loop_returns cmd spec f 0 ∅ r0) as [ro ->]; [done|lia|]
  end.
  cbn [mbind Res_bind].
  destruct (_ && _) eqn:Hkey; [|eauto].
  apply andb_true_iff in Hkey as [H0%Z.leb_le Hlt%Z.ltb_lt].
  destruct (lookup_lt_is_Some_2 (parser.Arguments cmd) (Z.to_nat (KeyPosition spec)))
    as [arg Harg]; [lia|].
  rewrite Harg.
  destruct (proj1 (Forall_lookup _ _) Hall _ _ Harg) as [key ->].
  cbn [mbind Res_bind]. eauto.
Qed.

(** ** The claims about the validator *)

Lemma typeMismatches_kind cmd args : forall i cats e,
  e ∈ typeMismatches cmd i args cats -> Type_ e = "TYPE_MISMATCH".
Proof.
  induction args as [|arg rest IH]; intros i [|cat cats] e; cbn [typeMismatches];
    try by intros ?%elem_of_nil.
  intros [He|He]%elem_of_app; [|by eapply IH].
  destruct (accepts cat _); [by apply elem_of_nil in He|].
  apply list_elem_of_singleton in He. by subst e.
Qed.

Lemma countErrors_elem cmd spec e :
  e ∈ countErrors cmd spec <->
  (e = insufficientArgs cmd spec /\ (argCount cmd < MinArgs spec)%Z)
  \/ (e = excessiveArgs cmd spec /\ MaxArgs spec <> (-1)%Z
      /\ (MaxArgs spec < argCount cmd)%Z).
Proof.
  unfold countErrors. rewrite elem_of_app.
  destruct (Z.ltb_spec (argCount cmd) (MinArgs spec));
    destruct (Z.eqb_spec (MaxArgs spec) (-1));
    destruct (Z.ltb_spec (MaxArgs spec) (argCount cmd)); cbn [negb andb];
    rewrite ?list_elem_of_singleton, ?elem_of_nil; intuition lia.
Qed.

Lemma optionErrorOk_kind e :
  optionErrorOk e ->
  Type_ e = "OPTION_CONFLICT" \/ Type_ e = "MISSING_OPTION_VALUE"
  \/ Type_ e = "OPTION_TYPE_MISMATCH" \/ Type_ e = "INVALID_VALUE_RANGE".
Proof. unfold optionErrorOk, valueErrorOk. tauto. Qed.

(** Which errors of a known command have the two argument-count kinds. *)
Lemma count_errors_iff a cmd spec r :
  specOf a cmd = Some spec -> ValidateCommand a cmd = Ok r ->
  (hasError "INSUFFICIENT_ARGS" r <-> (argCount cmd < MinArgs spec)%Z)
  /\ (hasError "EXCESSIVE_ARGS" r <->
      MaxArgs spec <> (-1)%Z /\ (MaxArgs spec < argCount cmd)%Z).
Proof.
  intros Hspec Hr.
  destruct (ValidateCommand_known cmd spec a r Hspec Hr) as (es & HE & Hok & _).
  assert (Hother : forall e ty, e ∈ Errors r -> Type_ e = ty ->
            ty = "INSUFFICIENT_ARGS" \/ ty = "EXCESSIVE_ARGS" -> e ∈ countErrors cmd spec).
  { intros e ty He Hty Hk. rewrite HE in He.
    apply elem_of_app in He as [He|He]; [done|].
    apply elem_of_app in He as [He|He].
    - apply typeMismatches_kind in He. rewrite He in Hty. subst ty.
      destruct Hk as [Hk|Hk]; discriminate Hk.
    - apply (proj1 (Forall_forall _ _) Hok), optionErrorOk_kind in He.
      rewrite Hty in He. destruct Hk; subst ty; intuition congruence. }
  split; split.
  - intros (e & He & Hty). pose proof (Hother e _ He Hty (or_introl eq_refl)) as Hc.
    apply countErrors_elem in Hc as [[-> ?]|[-> ?]]; [done|discriminate Hty].
  - intros Hlt. exists (insufficientArgs cmd spec). split; [|done].
    rewrite HE. apply elem_of_app. left. apply countErrors_elem. by left.
  - intros (e & He & Hty). pose proof (Hother e _ He Hty (or_intror eq_refl)) as Hc.
    apply countErrors_elem in Hc as [[-> ?]|[-> ?]]; [discriminate Hty|done].
  - intros Hgt. exists (excessiveArgs cmd spec). split; [|done].
    rewrite HE. apply elem_of_app. left. apply countErrors_elem. by right.
Qed.

(** In the table [New] builds, a bounded maximum is not below the minimum. *)
Lemma New_arity_bounds :
  map_Forall (fun _ spec => MaxArgs spec = (-1)%Z \/ (MinArgs spec <= MaxArgs spec)%Z)
    (commands New).
Proof.
  unfold New, initializeCommands. cbv zeta. cbn [commands].
  repeat (apply map_Forall_insert_2; [cbn; lia|]).
  apply map_Forall_empty.
Qed.

Lemma filter_all {A} (P : A -> Prop) `{!forall x, Decision (P x)} (l : list A) :
  Forall P l -> filter P l = l.
Proof.
  induction 1 as [|x l Hx _ IH]; [done|].
  by rewrite filter_cons, decide_True, IH.
Qed.

Lemma filter_none {A} (P : A -> Prop) `{!forall x, Decision (P x)} (l : list A) :
  Forall (fun x => ~ P x) l -> filter P l = [].
Proof.
  induction 1 as [|x l Hx _ IH]; [done|].
  by rewrite filter_cons, decide_False, IH.
Qed.

(** C2. For a command whose uppercase name is in the specification table:
    with exactly [MinArgs] arguments there is no INSUFFICIENT_ARGS error;
    with exactly [MaxArgs] arguments, when the maximum is bounded, there is
    no EXCESSIVE_ARGS error; with [MinArgs - 1] arguments there is an
    INSUFFICIENT_ARGS error; and no result holds both kinds of error. *)
Theorem argument_count_boundary cmd spec r :
  specOf New cmd = Some spec ->
  ValidateCommand New cmd = Ok r ->
  (argCount cmd = MinArgs spec -> ~ hasError "INSUFFICIENT_ARGS" r)
  /\ (MaxArgs spec <> (-1)%Z -> argCount cmd = MaxArgs spec ->
      ~ hasError "EXCESSIVE_ARGS" r)
  /\ (argCount cmd = (MinArgs spec - 1)%Z -> hasError "INSUFFICIENT_ARGS" r)
  /\ ~ (hasError "INSUFFICIENT_ARGS" r /\ hasError "EXCESSIVE_ARGS" r).
Proof.
  intros Hspec Hr.
  destruct (count_errors_iff _ _ _ _ Hspec Hr) as [Hmin Hmax].
  pose proof (New_arity_bounds _ _ Hspec) as Hbound. cbn beta in Hbound.
  rewrite Hmin, Hmax. repeat split; lia.
Qed.

Lemma argument_count_boundary_witness :
  let cmd := parsed "GET" in
  let spec := {| Name := "GET"; MinArgs := 1; MaxArgs := 1; KeyPosition := 0;
                 ValueTypes := ["key"]; Options := ∅;
                 Description := "Get the value of a key" |} in
  exists r,
    specOf New cmd = Some spec /\ ValidateCommand New cmd = Ok r
    /\ argCount cmd = (MinArgs spec - 1)%Z
    /\ hasError "INSUFFICIENT_ARGS" r.
Proof.
  intros cmd spec.
  assert (Hspec : specOf New cmd = Some spec) by (vm_compute; reflexivity).
  destruct (ValidateCommand New cmd) as [r| |] eqn:Hr;
    [|vm_compute in Hr; discriminate Hr..].
  exists r. split; [exact Hspec|]. split; [reflexivity|].
  split; [vm_compute; reflexivity|].
  apply (argument_count_boundary cmd spec r Hspec Hr). vm_compute. reflexivity.
Defined.

(** C4. For a command whose uppercase name is not in the specification
    table, validation returns an invalid result with exactly one error, of
    kind UNKNOWN_COMMAND, and nothing else: no warning and no command
    information. *)
Theorem unknown_command_only_error a cmd :
  specOf a cmd = None ->
  ValidateCommand a cmd =
    Ok {| Valid := false;
          Errors := [{| Message := "Unknown command: " +:+
                                   ToUpper (parser.Value (parser.Command cmd));
                        Command := ToUpper (parser.Value (parser.Command cmd));
                        Position := 0;
                        Type_ := "UNKNOWN_COMMAND" |}];
          Warnings := [];
          CommandInfo := ∅ |}.
Proof. unfold specOf, ValidateCommand. by intros ->. Qed.

Lemma unknown_command_only_error_witness :
  specOf New (parsed "UNKNOWN key") = None
  /\ ValidateCommand New (parsed "UNKNOWN key") =
       Ok {| Valid := false;
             Errors := [{| Message := "Unknown command: UNKNOWN";
                           Command := "UNKNOWN"; Position := 0;
                           Type_ := "UNKNOWN_COMMAND" |}];
             Warnings := []; CommandInfo := ∅ |}.
Proof.
  assert (H : specOf New (parsed "UNKNOWN key") = None) by (vm_compute; reflexivity).
  split; [exact H|].
  exact (unknown_command_only_error New (parsed "UNKNOWN key") H).
Defined.

(** C6. The TYPE_MISMATCH errors of a validated command are, in order, one
    for each argument that has a declared value category whose accepted
    kinds ([accepts]) do not include the kind of the argument; arguments
    past the declared list give none, and a mismatch does not stop the
    check of the later positions. *)
Theorem positional_type_check a cmd spec r :
  specOf a cmd = Some spec ->
  ValidateCommand a cmd = Ok r ->
  errorsOfKind "TYPE_MISMATCH" r
  = typeMismatches cmd 0 (parser.Arguments cmd) (ValueTypes spec).
Proof.
  intros Hspec Hr.
  destruct (ValidateCommand_known cmd spec a r Hspec Hr) as (es & HE & Hok & _).
  unfold errorsOfKind. rewrite HE, !filter_app.
  rewrite (filter_none _ (countErrors cmd spec)), (filter_none _ es), app_nil_r.
  - cbn [app]. apply filter_all, Forall_forall. intros e. apply typeMismatches_kind.
  - eapply Forall_impl; [exact Hok|].
    intros e He%optionErrorOk_kind Hty. rewrite Hty in He. intuition congruence.
  - apply Forall_forall.
    intros e [[-> _]|[-> _]]%countErrors_elem Hty; discriminate Hty.
Qed.

Lemma positional_type_check_witness :
  let cmd := parsed "zadd k a 1 2 3" in
  let spec := {| Name := "ZADD"; MinArgs := 3; MaxArgs := -1; KeyPosition := 0;
       ValueTypes := ["key"; "score"; "member"];
       Options :=
         <["NX" := {| HasValue := false; ValueType := "";
                      OptionDescription := "Only add new elements";
                      Conflicts := ["XX"] |}]>
         (<["XX" := {| HasValue := false; ValueType := "";
                       OptionDescription := "Only update existing elements";
                       Conflicts := ["NX"] |}]> ∅);
       Description := "Add one or more members to a sorted set" |} in
  exists r,
    specOf New cmd = Some spec /\ ValidateCommand New cmd = Ok r
    /\ map Message (errorsOfKind "TYPE_MISMATCH" r)
       = ["Argument 2 should be a numeric score, got Identifier";
          "Argument 3 should be a member name, got IntegerLiteral"].
Proof.
  intros cmd spec.
  assert (Hspec : specOf New cmd = Some spec) by (vm_compute; reflexivity).
  destruct (ValidateCommand New cmd) as [r| |] eqn:Hr;
    [|vm_compute in Hr; discriminate Hr..].
  exists r. split; [exact Hspec|]. split; [reflexivity|].
  rewrite (positional_type_check New cmd spec r Hspec Hr). vm_compute. reflexivity.
Defined.

(** C10. Every error that the check of an option's value produces (kinds
    OPTION_TYPE_MISMATCH and INVALID_VALUE_RANGE) names the command
    "unknown": the "name" entry of [CommandInfo] is set after the scan. *)
Theorem option_value_errors_name_unknown a cmd r e :
  ValidateCommand a cmd = Ok r ->
  e ∈ Errors r ->
  Type_ e = "OPTION_TYPE_MISMATCH" \/ Type_ e = "INVALID_VALUE_RANGE" ->
  Command e = "unknown".
Proof.
  intros Hr He Hty.
  destruct (specOf a cmd) as [spec|] eqn:Hspec.
  - destruct (ValidateCommand_known cmd spec a r Hspec Hr) as (es & HE & Hok & _).
    rewrite HE in He.
    apply elem_of_app in He as [[[-> _]|[-> _]]%countErrors_elem|He];
      [destruct Hty as [Hty|Hty]; discriminate Hty..|].
    apply elem_of_app in He as [He%typeMismatches_kind|He].
    + rewrite He in Hty. destruct Hty as [Hty|Hty]; discriminate Hty.
    + apply (proj1 (Forall_forall _ _) Hok) in He as [He|[He|[_ He]]]; [| |done];
        rewrite He in Hty; destruct Hty as [Hty|Hty]; discriminate Hty.
  - rewrite (unknown_command_only_error a cmd Hspec) in Hr. injection Hr as <-.
    apply list_elem_of_singleton in He. subst e.
    destruct Hty as [Hty|Hty]; discriminate Hty.
Qed.

Lemma option_value_errors_name_unknown_witness :
  let cmd := parsed ("SET key " +:+ quoted "value" +:+ " EX -60") in
  let e := {| Message := "Expiration time must be positive, got -60";
              Command := "unknown"; Position := 0;
              Type_ := "INVALID_VALUE_RANGE" |} in
  exists r,
    ValidateCommand New cmd = Ok r
    /\ e ∈ Errors r
    /\ (Type_ e = "OPTION_TYPE_MISMATCH" \/ Type_ e = "INVALID_VALUE_RANGE")
    /\ Command e = "unknown".
Proof.
  intros cmd e.
  destruct (ValidateCommand New cmd) as [r| |] eqn:Hr;
    [|vm_compute in Hr; discriminate Hr..].
  assert (He : e ∈ Errors r).
  { vm_compute in Hr. injection Hr as <-. apply list_elem_of_singleton. reflexivity. }
  assert (Hty : Type_ e = "OPTION_TYPE_MISMATCH" \/ Type_ e = "INVALID_VALUE_RANGE")
    by (right; reflexivity).
  exists r. split; [reflexivity|]. split; [exact He|]. split; [exact Hty|].
  exact (option_value_errors_name_unknown New cmd r e Hr He Hty).
Defined.

(** *** Option conflicts *)

Lemma keywordAt_optionAt cmd spec i name o :
  keywordAt cmd i = Some name -> Options spec !! name = Some o ->
  optionAt cmd spec i = Some (name, o).
Proof.
  unfold keywordAt, optionAt.
  destruct (parser.Arguments cmd !! i) as [[]|]; try discriminate.
  intros [= <-] ->. done.
Qed.

(** C3, counterexample.  [SET key v EX NX XX] holds both NX and XX, which
    SET declares as conflicting with each other, and gets no
    OPTION_CONFLICT error: NX is consumed as the value of EX. *)
Lemma conflict_symmetry_counterexample : ~ conflictSymmetryAsStated.
Proof.
  intros H.
  set (cmd := parsed "SET key v EX NX XX").
  destruct (ValidateCommand New cmd) as [r| |] eqn:Hr;
    [|vm_compute in Hr; discriminate Hr..].
  destruct (specOf New cmd) as [spec|] eqn:Hspec;
    [|vm_compute in Hspec; discriminate Hspec].
  assert (Hnx : Options spec !! "NX" =
                Some {| HasValue := false; ValueType := "";
                        OptionDescription := "Only set if key doesn't exist";
                        Conflicts := ["XX"] |}).
  { vm_compute in Hspec. injection Hspec as <-. vm_compute. reflexivity. }
  assert (Hxx : Options spec !! "XX" =
                Some {| HasValue := false; ValueType := "";
                        OptionDescription := "Only set if key exists";
                        Conflicts := ["NX"] |}).
  { vm_compute in Hspec. injection Hspec as <-. vm_compute. reflexivity. }
  destruct (H New cmd spec r "NX" "XX" _ _ 3 4 Hspec Hr Hnx Hxx) as (e & He & Hty).
  - apply list_elem_of_singleton. reflexivity.
  - apply list_elem_of_singleton. reflexivity.
  - vm_compute. reflexivity.
  - vm_compute. reflexivity.
  - lia.
  - vm_compute in Hr. injection Hr as <-.
    apply list_elem_of_singleton in He. subst e. discriminate Hty.
Qed.

(** C3, amended.  For two options that a command specification declares as
    conflicting with each other, a command in which the option scan
    reaches both (neither is consumed as the value of an earlier option)
    gets an OPTION_CONFLICT error in both orderings; the error is the one
    of the option reached second. *)
Theorem conflict_symmetry_when_scanned a cmd spec r A B oA oB i j :
  specOf a cmd = Some spec ->
  ValidateCommand a cmd = Ok r ->
  Options spec !! A = Some oA -> Options spec !! B = Some oB ->
  B ∈ Conflicts oA -> A ∈ Conflicts oB ->
  i ∈ scanned cmd spec -> j ∈ scanned cmd spec -> i < j ->
  (keywordAt cmd i = Some A -> keywordAt cmd j = Some B ->
   conflictError cmd B A ∈ Errors r)
  /\ (keywordAt cmd i = Some B -> keywordAt cmd j = Some A ->
      conflictError cmd A B ∈ Errors r).
Proof.
  intros Hspec Hr HA HB HBA HAB Hi Hj Hlt.
  destruct (ValidateCommand_known cmd spec a r Hspec Hr) as (_ & _ & _ & Hrec).
  split; intros Hki Hkj.
  - destruct (Hrec j Hj B oB (keywordAt_optionAt _ _ _ _ _ Hkj HB)) as (Hc & _).
    apply Hc; [done|]. right. exists i, oA. repeat split; try done.
    by apply keywordAt_optionAt.
  - destruct (Hrec j Hj A oA (keywordAt_optionAt _ _ _ _ _ Hkj HA)) as (Hc & _).
    apply Hc; [done|]. right. exists i, oB. repeat split; try done.
    by apply keywordAt_optionAt.
Qed.

Lemma conflict_symmetry_when_scanned_witness :
  let cmd := parsed ("SET key " +:+ quoted "value" +:+ " xx NX") in
  let oNX := {| HasValue := false; ValueType := "";
                OptionDescription := "Only set if key doesn't exist";
                Conflicts := ["XX"] |} in
  let oXX := {| HasValue := false; ValueType := "";
                OptionDescription := "Only set if key exists";
                Conflicts := ["NX"] |} in
  exists spec r,
    specOf New cmd = Some spec /\ ValidateCommand New cmd = Ok r
    /\ Options spec !! "NX" = Some oNX /\ Options spec !! "XX" = Some oXX
    /\ "XX" ∈ Conflicts oNX /\ "NX" ∈ Conflicts oXX
    /\ 2 ∈ scanned cmd spec /\ 3 ∈ scanned cmd spec /\ 2 < 3
    /\ keywordAt cmd 2 = Some "XX" /\ keywordAt cmd 3 = Some "NX"
    /\ conflictError cmd "NX" "XX" ∈ Errors r.
Proof.
  intros cmd oNX oXX.
  destruct (specOf New cmd) as [spec|] eqn:Hspec;
    [|vm_compute in Hspec; discriminate Hspec].
  destruct (ValidateCommand New cmd) as [r| |] eqn:Hr;
    [|vm_compute in Hr; discriminate Hr..].
  assert (Hnx : Options spec !! "NX" = Some oNX).
  { vm_compute in Hspec. injection Hspec as <-. vm_compute. reflexivity. }
  assert (Hxx : Options spec !! "XX" = Some oXX).
  { vm_compute in Hspec. injection Hspec as <-. vm_compute. reflexivity. }
  assert (H1 : "XX" ∈ Conflicts oNX) by (apply list_elem_of_singleton; reflexivity).
  assert (H2 : "NX" ∈ Conflicts oXX) by (apply list_elem_of_singleton; reflexivity).
  assert (Hs : scanned cmd spec = [0; 1; 2; 3]).
  { vm_compute in Hspec. injection Hspec as <-. vm_compute. reflexivity. }
  assert (Hi : 2 ∈ scanned cmd spec) by (rewrite Hs; repeat first [apply list_elem_of_here | apply list_elem_of_further]).
  assert (Hj : 3 ∈ scanned cmd spec) by (rewrite Hs; repeat first [apply list_elem_of_here | apply list_elem_of_further]).
  assert (Hlt : 2 < 3) by lia.
  assert (Hki : keywordAt cmd 2 = Some "XX") by (vm_compute; reflexivity).
  assert (Hkj : keywordAt cmd 3 = Some "NX") by (vm_compute; reflexivity).
  exists spec, r.
  split; [reflexivity|]. split; [reflexivity|].
  split; [exact Hnx|]. split; [exact Hxx|]. split; [exact H1|]. split; [exact H2|].
  split; [exact Hi|]. split; [exact Hj|]. split; [exact Hlt|].
  split; [exact Hki|]. split; [exact Hkj|].
  exact (proj2 (conflict_symmetry_when_scanned New cmd spec r "NX" "XX" oNX oXX 2 3
                  Hspec Hr Hnx Hxx H1 H2 Hi Hj Hlt) Hki Hkj).
Defined.

(** *** Options that take a value *)



(** *** The SCAN scenario *)

(** C9. [SCAN 0 MATCH user:* COUNT 10] parses without error into five
    arguments: the integer 0, the keyword MATCH, one pattern "user:*" made
    of the tokens [user], [:] and [*], the keyword COUNT and the integer
    10; its validation is valid and has no error. *)
Theorem scan_match_count_scenario :
  let input := "SCAN 0 MATCH user:* COUNT 10" in
  (exists toks, lexer.GetAllTokens input = Ok toks
     /\ map (fun t => (lexer.Type_ t, lexer.Literal t)) toks
        = [(lexer.IDENT, "SCAN"); (lexer.INT, "0"); (lexer.MATCH, "MATCH");
           (lexer.IDENT, "user"); (lexer.COLON, ":"); (lexer.ASTERISK, "*");
           (lexer.COUNT, "COUNT"); (lexer.INT, "10"); (lexer.EOF, "")])
  /\ exists name t1 t2 t3 t4 t5 r,
       let cmd := {| parser.Command := name;
                     parser.Arguments :=
                       [parser.IntegerLiteral t1 0;
                        parser.KeywordExpression t2 "MATCH";
                        parser.PatternExpression t3 "user:*";
                        parser.KeywordExpression t4 "COUNT";
                        parser.IntegerLiteral t5 10] |} in
       parser.ParseCommand input = Ok (Some cmd, [])
       /\ parser.Value name = "SCAN"
       /\ ValidateCommand New cmd = Ok r
       /\ Valid r = true /\ Errors r = [] /\ Warnings r = [].
Proof.
  intros input. split.
  - eexists. split; [vm_compute; reflexivity|]. vm_compute. reflexivity.
  - do 6 eexists. eexists. cbv zeta.
    split; [vm_compute; reflexivity|].
    split; [reflexivity|].
    split; [vm_compute; reflexivity|].
    repeat split.
Qed.

(** * Proofs: the lexer *)

(** ** Strings *)

Lemma sdrop_nil n : sdrop n EmptyString = EmptyString.
Proof. by destruct n. Qed.

Lemma sdrop_length n : forall s, String.length (sdrop n s) = String.length s - n.
Proof.
  induction n as [|n IH]; intros [|c s]; cbn [sdrop String.length]; try lia.
  rewrite IH. lia.
Qed.

Lemma sdrop_S n : forall s, sdrop (S n) s = stail (sdrop n s).
Proof.
  induction n as [|n IH]; intros [|c s]; try reflexivity.
  change (sdrop (S (S n)) (String c s)) with (sdrop (S n) s).
  by rewrite IH.
Qed.

Lemma sdrop_ge n s : String.length s <= n -> sdrop n s = EmptyString.
Proof.
  intros H. pose proof (sdrop_length n s) as Hl.
  destruct (sdrop n s); [done|]. cbn [String.length] in Hl. lia.
Qed.

Lemma get_sdrop n : forall s,
  String.get n s = match sdrop n s with String c _ => Some c | EmptyString => None end.
Proof.
  induction n as [|n IH]; intros [|c s]; try reflexivity.
  cbn [String.get sdrop]. apply IH.
Qed.

Lemma byte_at_sdrop s n : byte_at s n = shead (sdrop n s).
Proof. unfold byte_at. rewrite get_sdrop. by destruct (sdrop n s). Qed.

Lemma append_cons c (s r : string) : String c s +:+ r = String c (s +:+ r).
Proof. reflexivity. Qed.

Lemma append_nil_l (r : string) : EmptyString +:+ r = r.
Proof. reflexivity. Qed.

Lemma append_nil_r (s : string) : s +:+ EmptyString = s.
Proof. induction s as [|c s IH]; [done|]. by rewrite append_cons, IH. Qed.

Lemma append_assoc (a b c : string) : (a +:+ b) +:+ c = a +:+ (b +:+ c).
Proof. induction a as [|x a IH]; [done|]. by rewrite !append_cons, IH. Qed.

Lemma append_length (a b : string) :
  String.length (a +:+ b) = String.length a + String.length b.
Proof.
  induction a as [|x a IH]; [done|]. rewrite append_cons.
  cbn [String.length]. by rewrite IH.
Qed.

Lemma sdrop_app_length (w r : string) : sdrop (String.length w) (w +:+ r) = r.
Proof. induction w as [|c w IH]; [done|]. exact IH. Qed.

(** [s[p : p + len(w)]] is [w] when [w] is what [s] holds from [p] on. *)
Lemma substring_sdrop p : forall s w r,
  sdrop p s = w +:+ r -> String.substring p (String.length w) s = w.
Proof.
  induction p as [|p IH]; intros s w r H.
  - cbn [sdrop] in H. subst s. clear.
    induction w as [|c w IH]; [by destruct r|].
    rewrite append_cons. cbn [String.length String.substring]. by f_equal.
  - destruct s as [|c s].
    + cbn [sdrop] in H. destruct w; [done|discriminate H].
    + cbn [sdrop] in H. cbn [String.substring]. by eapply IH.
Qed.

Lemma slice_sdrop s p w r :
  p <= String.length s ->
  sdrop p s = w +:+ r -> slice s p (p + String.length w) = Ok w.
Proof.
  intros Hp H. unfold slice.
  assert (Hlen : p + String.length w <= String.length s).
  { pose proof (sdrop_length p s) as Hl. rewrite H, append_length in Hl. lia. }
  rewrite (proj2 (Nat.leb_le _ _)) by lia.
  rewrite (proj2 (Nat.leb_le _ _)) by lia. cbn [andb].
  replace (p + String.length w - p) with (String.length w) by lia.
  by rewrite (substring_sdrop _ _ _ _ H).
Qed.

(** ** The span of a condition *)

Lemma sspan_spec cond s w r :
  sspan cond s = (w, r) ->
  s = w +:+ r /\ sforall cond w = true /\ (r = EmptyString \/ cond (shead r) = false).
Proof.
  revert w r. induction s as [|c s IH]; intros w r; cbn [sspan].
  - intros [= <- <-]. auto.
  - destruct (cond c) eqn:Hc.
    + destruct (sspan cond s) as [w' r'] eqn:Hs. intros [= <- <-].
      destruct (IH _ _ eq_refl) as (-> & Hw & Hr).
      rewrite append_cons. cbn [sforall]. rewrite Hc, Hw. auto.
    + intros [= <- <-]. cbn [sforall shead]. auto.
Qed.

Lemma sspan_app cond w r :
  sforall cond w = true -> cond (shead r) = false ->
  sspan cond (w +:+ r) = (w, r).
Proof.
  intros Hw Hr. induction w as [|c w IH].
  - rewrite append_nil_l. destruct r as [|c r]; [done|].
    cbn [sspan shead] in *. by rewrite Hr.
  - cbn [sforall] in Hw. apply andb_true_iff in Hw as [Hc Hw].
    rewrite append_cons. cbn [sspan]. by rewrite Hc, IH.
Qed.

(** ** The lexer and its unread input *)

Import lexer.

Lemma readChar_spec l :
  wfLexer l ->
  wfLexer (readChar l) /\ input (readChar l) = input l
  /\ position (readChar l) = position l + 1
  /\ rest (readChar l) = stail (rest l).
Proof.
  intros [Hrp Hch]. unfold wfLexer, rest, readChar. cbn [input position readPosition ch].
  rewrite Hrp. replace (position l + 1) with (S (position l)) by lia.
  rewrite byte_at_sdrop.
  repeat split; [|apply sdrop_S].
  destruct (_ <=? _) eqn:Hlen; [|done].
  apply Nat.leb_le in Hlen. by rewrite sdrop_ge.
Qed.

Lemma New_spec s : wfLexer (New s) /\ input (New s) = s /\ position (New s) = 0.
Proof.
  unfold New, readChar, wfLexer, rest. cbn [input position readPosition ch].
  repeat split. rewrite byte_at_sdrop.
  destruct (_ <=? _) eqn:Hlen; [|done].
  apply Nat.leb_le in Hlen. by rewrite sdrop_ge.
Qed.

Lemma peekChar_spec l : wfLexer l -> peekChar l = shead (stail (rest l)).
Proof.
  intros [Hrp _]. unfold peekChar, rest. rewrite Hrp, byte_at_sdrop.
  replace (position l + 1) with (S (position l)) by lia. rewrite sdrop_S.
  destruct (_ <=? _) eqn:Hlen; [|done].
  apply Nat.leb_le in Hlen. rewrite <- sdrop_S, sdrop_ge by lia. done.
Qed.

Lemma rest_length l : String.length (rest l) = remaining l.
Proof. apply sdrop_length. Qed.

(** A loop of the lexer reads the span of its condition. *)
Lemma readWhile_spec cond fuel : forall l w r,
  cond NUL = false ->
  wfLexer l -> sspan cond (rest l) = (w, r) -> String.length w < fuel ->
  exists l', readWhile fuel cond l = Ok l'
    /\ wfLexer l' /\ input l' = input l
    /\ position l' = position l + String.length w /\ rest l' = r.
Proof.
  intros l w r Hnul. revert l w r.
  induction fuel as [|f IH]; intros l w r Hwf Hspan Hfuel; [lia|].
  cbn [readWhile]. pose proof Hwf as [Hrp Hch].
  rewrite Hch. destruct (rest l) as [|c s] eqn:Hrest; cbn [shead sspan] in *.
  - rewrite Hnul. injection Hspan as <- <-. exists l.
    cbn [String.length]. rewrite Nat.add_0_r.
    split; [done|]. split; [exact Hwf|]. by repeat split.
  - destruct (cond c) eqn:Hc.
    + destruct (sspan cond s) as [w' r'] eqn:Hs. injection Hspan as <- <-.
      destruct (readChar_spec l Hwf) as (Hwf' & Hin & Hpos & Hrest').
      rewrite Hrest in Hrest'. cbn [stail] in Hrest'.
      cbn [String.length] in Hfuel.
      destruct (IH (readChar l) w' r' Hwf') as (l' & Hl' & Hwf'' & Hin' & Hpos' & Hr');
        [by rewrite Hrest'|lia|].
      exists l'. rewrite Hl', Hin', Hin, Hpos', Hpos. cbn [String.length].
      split; [done|]. split; [exact Hwf''|]. repeat split; try done. lia.
    + injection Hspan as <- <-. exists l.
      cbn [String.length]. rewrite Nat.add_0_r.
      split; [done|]. split; [exact Hwf|]. by repeat split.
Qed.

Lemma loop_fuel_enough l w r :
  rest l = w +:+ r -> String.length w < loop_fuel l.
Proof.
  intros H. pose proof (rest_length l) as Hl. rewrite H, append_length in Hl.
  unfold loop_fuel, remaining in *. lia.
Qed.

Lemma readWhile_rest cond l w r :
  cond NUL = false -> wfLexer l -> sspan cond (rest l) = (w, r) ->
  exists l', readWhile (loop_fuel l) cond l = Ok l'
    /\ wfLexer l' /\ input l' = input l
    /\ position l' = position l + String.length w /\ rest l' = r.
Proof.
  intros Hnul Hwf Hspan. apply readWhile_spec; try done.
  apply sspan_spec in Hspan as (Hs & _). by eapply loop_fuel_enough.
Qed.

Lemma rest_nonempty l c s :
  rest l = String c s -> position l < String.length (input l).
Proof.
  intros H. pose proof (rest_length l) as Hl. rewrite H in Hl.
  unfold remaining in Hl. cbn [String.length] in Hl. lia.
Qed.

Lemma rest_empty l :
  rest l = EmptyString -> String.length (input l) <= position l.
Proof.
  intros H. pose proof (rest_length l) as Hl. rewrite H in Hl.
  unfold remaining in Hl. cbn [String.length] in Hl. lia.
Qed.

(** A literal read between two positions of a lexer. *)
Lemma slice_rest l l' p w :
  input l' = input l -> p <= String.length (input l) ->
  sdrop p (input l) = w +:+ rest l' ->
  position l' = p + String.length w ->
  slice (input l') p (position l') = Ok w.
Proof. intros Hin Hp Hrest Hpos. rewrite Hin, Hpos. by eapply slice_sdrop. Qed.

Lemma readIdentifier_spec l w r :
  wfLexer l -> rest l <> EmptyString -> sspan isIdentByte (rest l) = (w, r) ->
  exists l', readIdentifier l = Ok (w, l')
    /\ wfLexer l' /\ input l' = input l /\ rest l' = r.
Proof.
  intros Hwf Hne Hspan. unfold readIdentifier.
  destruct (readWhile_rest isIdentByte l w r eq_refl Hwf Hspan)
    as (l' & Hl' & Hwf' & Hin & Hpos & Hr).
  change (fun c => isLetter c || isDigit c || Ascii.eqb c "_" || Ascii.eqb c "-")
    with isIdentByte.
  rewrite Hl'. cbn [mbind Res_bind].
  apply sspan_spec in Hspan as (Hs & _).
  rewrite (slice_rest l l' (position l) w); try done.
  - cbn [mbind Res_bind]. by exists l'.
  - destruct (rest l) eqn:E; [done|]. apply rest_nonempty in E. lia.
  - by rewrite Hr.
Qed.

Lemma isDigit_NUL : isDigit NUL = false.
Proof. reflexivity. Qed.

Lemma readNumber_spec l lit r :
  wfLexer l -> rest l <> EmptyString -> lexNumber (rest l) = (lit, r) ->
  exists l', readNumber l = Ok (lit, l')
    /\ wfLexer l' /\ input l' = input l /\ rest l' = r.
Proof.
  intros Hwf Hne Hlex. unfold readNumber, lexNumber in *.
  pose proof Hwf as [_ Hch]. rewrite Hch.
  destruct (rest l) as [|c s] eqn:Hrest; [done|]. clear Hne. cbn [shead].
  pose proof (rest_nonempty _ _ _ Hrest) as Hpos0.
  (* the sign *)
  set (l1 := if Ascii.eqb c "-" then readChar l else l).
  set (sign := if Ascii.eqb c "-" then String c EmptyString else EmptyString).
  set (s1 := if Ascii.eqb c "-" then s else String c s).
  assert (H1 : wfLexer l1 /\ input l1 = input l
               /\ position l1 = position l + String.length sign /\ rest l1 = s1
               /\ rest l = sign +:+ s1).
  { subst l1 sign s1. destruct (Ascii.eqb c "-").
    - destruct (readChar_spec l Hwf) as (? & ? & ? & Hr). rewrite Hrest in Hr.
      by split_and!.
    - cbn [String.length]. rewrite Nat.add_0_r. by split_and!. }
  destruct H1 as (Hwf1 & Hin1 & Hpos1 & Hrest1 & Hsplit1).
  replace (let '(sign0, s2) := if Ascii.eqb c "-" then (String c EmptyString, s)
                               else (EmptyString, String c s) in _)
    with (let '(d1, s2) := sspan isDigit s1 in
          match s2 with
          | String c0 s3 =>
              if Ascii.eqb c0 "." && isDigit (shead s3)
              then let '(d2, s4) := sspan isDigit s3 in (sign +:+ d1 +:+ String c0 d2, s4)
              else (sign +:+ d1, s2)
          | EmptyString => (sign +:+ d1, s2)
          end) in Hlex by (subst sign s1; by destruct (Ascii.eqb c "-")).
  (* the integer part *)
  destruct (sspan isDigit s1) as [d1 s2] eqn:Hd1.
  destruct (readWhile_rest isDigit l1 d1 s2 isDigit_NUL Hwf1)
    as (l2 & Hl2 & Hwf2 & Hin2 & Hpos2 & Hrest2); [by rewrite Hrest1|].
  rewrite Hl2. cbn [mbind Res_bind].
  apply sspan_spec in Hd1 as (Hs1 & _).
  pose proof Hwf2 as [_ Hch2]. rewrite Hch2, (peekChar_spec l2 Hwf2), Hrest2.
  assert (Hfin : forall l3 d s4,
            wfLexer l3 -> input l3 = input l -> rest l3 = s4 ->
            position l3 = position l + String.length (sign +:+ d) ->
            rest l = (sign +:+ d) +:+ s4 ->
            exists l', (r0 ← slice (input l3) (position l) (position l3); Ok (r0, l3))
                       = Ok (sign +:+ d, l')
              /\ wfLexer l' /\ input l' = input l /\ rest l' = s4).
  { intros l3 d s4 Hwf3 Hin3 Hrest3 Hpos3 Hsplit3.
    rewrite (slice_rest l l3 (position l) (sign +:+ d)); try done; [|lia|by rewrite Hrest3].
    cbn [mbind Res_bind]. by exists l3. }
  destruct s2 as [|c0 s3]; cbn [shead stail] in *.
  - injection Hlex as <- <-.
    apply (Hfin l2 d1 EmptyString); try done; [congruence| |].
    + rewrite append_length. lia.
    + by rewrite append_assoc, <- Hs1.
  - destruct (Ascii.eqb c0 "." && isDigit (shead s3)) eqn:Hdot.
    + destruct (sspan isDigit s3) as [d2 s4] eqn:Hd2. injection Hlex as <- <-.
      destruct (readChar_spec l2 Hwf2) as (Hwf2' & Hin2' & Hpos2' & Hrest2').
      rewrite Hrest2 in Hrest2'. cbn [stail] in Hrest2'.
      destruct (readWhile_rest isDigit (readChar l2) d2 s4 isDigit_NUL Hwf2')
        as (l3 & Hl3 & Hwf3 & Hin3 & Hpos3 & Hrest3); [by rewrite Hrest2'|].
      assert (Hfuel2 : loop_fuel (readChar l2) = loop_fuel l2)
        by (unfold loop_fuel; by rewrite Hin2').
      rewrite Hfuel2 in Hl3. rewrite Hl3. cbn [mbind Res_bind].
      apply sspan_spec in Hd2 as (Hs3 & _).
      replace (sign +:+ d1 +:+ String c0 d2) with (sign +:+ (d1 +:+ String c0 d2)) by done.
      apply (Hfin l3 (d1 +:+ String c0 d2) s4); try done; [congruence| |].
      * rewrite Hpos3, Hpos2', Hpos2, Hpos1, !append_length. cbn [String.length]. lia.
      * rewrite Hsplit1, Hs1, Hs3, !append_assoc. done.
    + injection Hlex as <- <-.
      apply (Hfin l2 d1 (String c0 s3)); try done; [congruence| |].
      * rewrite append_length. lia.
      * by rewrite append_assoc, <- Hs1.
Qed.

Lemma quotedPost_cons q l l1 c s w res :
  input l1 = input l -> position l1 = position l + 1 ->
  quotedPost q l1 s w res ->
  quotedPost q l (String c s) (consBody c w) res.
Proof.
  intros Hin Hpos. unfold quotedPost.
  destruct w as [[body r]|]; cbn [consBody].
  - intros (l' & -> & Hwf & Hin' & Hpos' & Hs & Hr). exists l'.
    split_and!; try done; try congruence.
    + rewrite Hpos', Hpos. cbn [String.length]. lia.
    + by rewrite append_cons, <- Hs.
  - intros (l' & -> & Hin' & Hlen). exists l'. split_and!; congruence.
Qed.

Lemma readChar_at_end l :
  wfLexer l -> rest l = EmptyString ->
  wfLexer (readChar l) /\ rest (readChar l) = EmptyString
  /\ ch (readChar l) = NUL /\ position (readChar l) = position l + 1
  /\ input (readChar l) = input l.
Proof.
  intros Hwf Hrest. destruct (readChar_spec l Hwf) as (Hwf' & Hin & Hpos & Hr).
  rewrite Hrest in Hr. cbn [stail] in Hr.
  split_and!; try done. destruct Hwf' as [_ ->]. by rewrite Hr.
Qed.

(** The lexer that has read one byte past the end of the input. *)
Lemma readQuoted_loop_overrun q f l :
  wfLexer l -> rest l = EmptyString ->
  exists l', readQuoted_loop (S f) q l = Ok l' /\ input l' = input l
    /\ String.length (input l) < position l'.
Proof.
  intros Hwf Hrest. cbn [readQuoted_loop].
  destruct (readChar_at_end _ Hwf Hrest) as (_ & _ & Hch & Hpos & Hin).
  rewrite Hch, Ascii.eqb_refl, orb_true_r.
  eexists. split; [reflexivity|]. split; [done|].
  rewrite Hpos. apply rest_empty in Hrest. lia.
Qed.

Lemma readQuoted_loop_spec q fuel : forall l c0 s,
  wfLexer l -> rest l = String c0 s -> String.length s < fuel ->
  quotedPost q l s (quotedWalk q s) (readQuoted_loop fuel q l).
Proof.
  induction fuel as [|f IH]; intros l c0 s Hwf Hrest Hfuel; [lia|].
  cbn [readQuoted_loop].
  destruct (readChar_spec l Hwf) as (Hwf1 & Hin1 & Hpos1 & Hrest1).
  rewrite Hrest in Hrest1. cbn [stail] in Hrest1.
  pose proof Hwf1 as [_ Hch1]. rewrite Hch1, Hrest1.
  destruct s as [|c s1]; cbn [shead quotedWalk].
  { (* the end of the input *)
    rewrite Ascii.eqb_refl, orb_true_r. exists (readChar l).
    rewrite Hrest1, Hpos1. cbn [String.length].
    split_and!; try done; try lia. by destruct (Ascii.eqb _ _). }
  destruct (Ascii.eqb c q) eqn:Hq; cbn [orb].
  { (* the closing quote *)
    exists (readChar l). rewrite Hrest1, Hpos1, Hch1, Hrest1. cbn [String.length shead stail].
    rewrite Hq. split_and!; try done; lia. }
  destruct (Ascii.eqb c NUL) eqn:Hnul.
  { (* a NUL byte *)
    exists (readChar l). rewrite Hrest1, Hpos1, Hch1, Hrest1. cbn [String.length shead stail].
    rewrite Hq. split_and!; try done; lia. }
  cbn [String.length] in Hfuel.
  destruct (Ascii.eqb c BACKSLASH) eqn:Hbs.
  2: { (* an ordinary byte *)
       apply (quotedPost_cons q l (readChar l)); [done..|].
       apply (IH (readChar l) c s1); [done..|lia]. }
  (* a backslash *)
  destruct (readChar_spec _ Hwf1) as (Hwf2 & Hin2 & Hpos2 & Hrest2).
  rewrite Hrest1 in Hrest2. cbn [stail] in Hrest2.
  pose proof Hwf2 as [_ Hch2]. rewrite Hch2, Hrest2.
  destruct s1 as [|x s2]; cbn [shead].
  { (* the input ends after the backslash *)
    rewrite Ascii.eqb_refl. cbn [negb].
    destruct f as [|f]; [lia|].
    destruct (readQuoted_loop_overrun q f _ Hwf2 Hrest2) as (l' & -> & Hin' & Hlen).
    exists l'. split_and!; congruence. }
  cbn [String.length] in Hfuel.
  destruct (Ascii.eqb x NUL) eqn:Hx; cbn [negb].
  { (* an escaped NUL: the byte after it is examined *)
    apply (quotedPost_cons q l (readChar l)); [done..|].
    apply (quotedPost_cons q _ (readChar (readChar l))); [done..|].
    apply (IH _ x s2); [done..|lia]. }
  destruct (readChar_spec _ Hwf2) as (Hwf3 & Hin3 & Hpos3 & Hrest3).
  rewrite Hrest2 in Hrest3. cbn [stail] in Hrest3.
  destruct s2 as [|y s3].
  { (* the input ends after the escaped byte *)
    destruct f as [|f]; [lia|].
    destruct (readQuoted_loop_overrun q f _ Hwf3 Hrest3) as (l' & -> & Hin' & Hlen).
    exists l'. split_and!; congruence. }
  cbn [String.length] in Hfuel.
  apply (quotedPost_cons q l (readChar l)); [done..|].
  apply (quotedPost_cons q _ (readChar (readChar l))); [done..|].
  apply (quotedPost_cons q _ (readChar (readChar (readChar l)))); [done..|].
  apply (IH _ y s3); [done..|lia].
Qed.

Lemma readQuoted_spec q l c0 s :
  wfLexer l -> rest l = String c0 s ->
  match quotedWalk q s with
  | Some (body, r) =>
      exists l', readQuoted q l = Ok (body, l')
        /\ wfLexer l' /\ input l' = input l /\ rest l' = r
  | None => readQuoted q l = Panic
  end.
Proof.
  intros Hwf Hrest. unfold readQuoted.
  pose proof (readQuoted_loop_spec q (loop_fuel l) l c0 s Hwf Hrest) as Hpost.
  unfold quotedPost in Hpost.
  assert (Hs : sdrop (position l + 1) (input l) = s).
  { replace (position l + 1) with (S (position l)) by lia.
    rewrite sdrop_S. fold (rest l). by rewrite Hrest. }
  destruct (quotedWalk q s) as [[body r]|].
  - destruct Hpost as (l' & -> & Hwf' & Hin & Hpos & Hbody & Hr).
    { pose proof (loop_fuel_enough l (String c0 s) EmptyString) as Hf.
      rewrite append_nil_r in Hf. specialize (Hf Hrest). cbn [String.length] in Hf. lia. }
    cbn [mbind Res_bind].
    assert (Hslice : slice (input l') (position l + 1) (position l') = Ok body).
    { apply (slice_rest l l'); [done| |by rewrite Hs|lia].
      apply rest_nonempty in Hrest. lia. }
    rewrite Hslice. cbn [mbind Res_bind]. subst r.
    destruct (Ascii.eqb (ch l') q).
    + destruct (readChar_spec l' Hwf') as (? & ? & ? & ?).
      eexists. split; [reflexivity|]. split_and!; congruence.
    + exists l'. by split_and!.
  - destruct Hpost as (l' & -> & Hin & Hlen).
    { pose proof (loop_fuel_enough l (String c0 s) EmptyString) as Hf.
      rewrite append_nil_r in Hf. specialize (Hf Hrest). cbn [String.length] in Hf. lia. }
    cbn [mbind Res_bind]. unfold slice. rewrite Hin.
    rewrite (proj2 (Nat.leb_gt (position l') _)) by lia. by rewrite andb_false_r.
Qed.

(** ** [NextToken] follows [lexOne] *)

Lemma single_lexesAs l ty c s :
  wfLexer l -> rest l = String c s ->
  exists tok l', single l ty = Ok (tok, l')
    /\ Type_ tok = ty /\ Literal tok = string_of_byte c
    /\ wfLexer l' /\ input l' = input l /\ rest l' = s.
Proof.
  intros Hwf Hrest. unfold single, newToken.
  destruct (readChar_spec l Hwf) as (Hwf' & Hin & _ & Hr).
  rewrite Hrest in Hr. pose proof Hwf as [_ Hch]. rewrite Hch, Hrest.
  eexists _, _. split; [reflexivity|]. by split_and!.
Qed.

Lemma numberToken_lexesAs l :
  wfLexer l -> rest l <> EmptyString ->
  match lexNumberToken (rest l) with
  | Ok (ty, lit, s) =>
      exists tok l', numberToken l = Ok (tok, l')
        /\ Type_ tok = ty /\ Literal tok = lit
        /\ wfLexer l' /\ input l' = input l /\ rest l' = s
  | _ => False
  end.
Proof.
  intros Hwf Hne. unfold lexNumberToken, numberToken.
  destruct (lexNumber (rest l)) as [lit r] eqn:Hlex.
  destruct (readNumber_spec l lit r Hwf Hne Hlex) as (l' & -> & Hwf' & Hin & Hr).
  cbn [mbind Res_bind]. eexists _, _. split; [reflexivity|]. by split_and!.
Qed.

Lemma stringToken_lexesAs q l c s :
  wfLexer l -> rest l = String c s ->
  match lexQuoted q s with
  | Ok (ty, lit, s') =>
      exists tok l', stringToken (readQuoted q) l = Ok (tok, l')
        /\ Type_ tok = ty /\ Literal tok = lit
        /\ wfLexer l' /\ input l' = input l /\ rest l' = s'
  | Panic => stringToken (readQuoted q) l = Panic
  | OutOfFuel => False
  end.
Proof.
  intros Hwf Hrest. unfold lexQuoted, stringToken.
  pose proof (readQuoted_spec q l c s Hwf Hrest) as H.
  destruct (quotedWalk q s) as [[body r]|].
  - destruct H as (l' & -> & Hwf' & Hin & Hr). cbn [mbind Res_bind].
    eexists _, _. split; [reflexivity|]. by split_and!.
  - by rewrite H.
Qed.

(** The one-byte tokens that [NextToken] tests first, in its order. *)
Ltac one_byte_tokens c tac :=
  destruct (Ascii.eqb c "*"); [tac|];
  destruct (Ascii.eqb c "?"); [tac|];
  destruct (Ascii.eqb c "["); [tac|];
  destruct (Ascii.eqb c "]"); [tac|];
  destruct (Ascii.eqb c "("); [tac|];
  destruct (Ascii.eqb c ")"); [tac|];
  destruct (Ascii.eqb c ","); [tac|];
  destruct (Ascii.eqb c ":"); [tac|];
  destruct (Ascii.eqb c "|"); [tac|];
  destruct (Ascii.eqb c "+"); [tac|].

Theorem NextToken_lexOne l : wfLexer l -> lexesAs l (NextToken l).
Proof.
  intros Hwf. unfold lexesAs, lexOne, NextToken, skipWhitespace.
  destruct (sspan isSpace (rest l)) as [ws s0] eqn:Hws. cbn [snd].
  destruct (readWhile_rest isSpace l ws s0 eq_refl Hwf Hws)
    as (l0 & Hl0 & Hwf0 & Hin0 & _ & Hrest0).
  change (fun c => Ascii.eqb c " " || Ascii.eqb c TAB || Ascii.eqb c CR) with isSpace.
  rewrite Hl0. cbn [mbind Res_bind]. cbv zeta.
  pose proof Hwf0 as [_ Hch0]. rewrite Hch0, (peekChar_spec l0 Hwf0), Hrest0.
  rewrite <- Hin0.
  destruct s0 as [|c s'].
  - (* the end of the input *)
    destruct (readChar_at_end l0 Hwf0 Hrest0) as (Hwf' & Hr' & _ & _ & Hin').
    repeat match goal with
    | |- context [Ascii.eqb (shead EmptyString) ?b] =>
        let v := eval vm_compute in (Ascii.eqb (shead EmptyString) b) in
        change (Ascii.eqb (shead EmptyString) b) with v
    end.
    cbv iota.
    eexists _, _. split; [reflexivity|]. by split_and!.
  - cbn [shead stail].
    pose proof (fun ty => single_lexesAs l0 ty c s' Hwf0 Hrest0) as Hsingle.
    assert (Hne : rest l0 <> EmptyString) by (by rewrite Hrest0).
    assert (Hnum : match lexNumberToken (String c s') with
            | Ok (ty, lit, s) =>
                exists tok l', numberToken l0 = Ok (tok, l')
                  /\ Type_ tok = ty /\ Literal tok = lit
                  /\ wfLexer l' /\ input l' = input l0 /\ rest l' = s
            | Panic => numberToken l0 = Panic
            | OutOfFuel => False
            end).
    { pose proof (numberToken_lexesAs l0 Hwf0 Hne) as Hnum. rewrite Hrest0 in Hnum.
      by destruct (lexNumberToken (String c s')) as [[[? ?] ?]| |]. }
    one_byte_tokens c ltac:(cbv beta iota; apply Hsingle).
    destruct (Ascii.eqb c "-").
    { destruct (isDigit (shead s')); [exact Hnum|cbv beta iota; apply Hsingle]. }
    destruct (Ascii.eqb c DQUOTE).
    { exact (stringToken_lexesAs DQUOTE l0 c s' Hwf0 Hrest0). }
    destruct (Ascii.eqb c SQUOTE).
    { exact (stringToken_lexesAs SQUOTE l0 c s' Hwf0 Hrest0). }
    destruct (Ascii.eqb c LF); [cbv beta iota; apply Hsingle|].
    destruct (Ascii.eqb c NUL).
    { destruct (readChar_spec l0 Hwf0) as (Hwf' & Hin' & _ & Hr').
      rewrite Hrest0 in Hr'. eexists _, _. split; [reflexivity|]. by split_and!. }
    destruct (isLetter c).
    { destruct (sspan isIdentByte (String c s')) as [w r] eqn:Hid.
      destruct (readIdentifier_spec l0 w r Hwf0 Hne) as (l' & -> & Hwf' & Hin' & Hr');
        [by rewrite Hrest0|].
      cbn [mbind Res_bind]. eexists _, _. split; [reflexivity|]. by split_and!. }
    destruct (isDigit c); [exact Hnum|].
    cbv beta iota. apply Hsingle.
Qed.

(** ** Consequences for the tokens *)

Lemma sspan_length cond s w r :
  sspan cond s = (w, r) -> String.length s = String.length w + String.length r.
Proof. intros (-> & _)%sspan_spec. apply append_length. Qed.

Lemma lexNumber_length s lit r :
  lexNumber s = (lit, r) -> String.length s = String.length lit + String.length r.
Proof.
  unfold lexNumber.
  assert (Hsign : forall c s', exists sign s1,
            (if Ascii.eqb c "-" then (String c EmptyString, s') else (EmptyString, String c s'))
            = (sign, s1) /\ String c s' = sign +:+ s1).
  { intros c s'. destruct (Ascii.eqb c "-"); eexists _, _; split; reflexivity. }
  assert (Hs : exists sign s1,
            match s with
            | String c s' => if Ascii.eqb c "-" then (String c EmptyString, s')
                             else (EmptyString, s)
            | EmptyString => (EmptyString, s)
            end = (sign, s1) /\ s = sign +:+ s1).
  { destruct s as [|c s']; [by exists EmptyString, EmptyString|]. apply Hsign. }
  destruct Hs as (sign & s1 & -> & ->).
  destruct (sspan isDigit s1) as [d1 s2] eqn:Hd1.
  apply sspan_spec in Hd1 as (-> & _).
  destruct s2 as [|c s3].
  - intros [= <- <-]. rewrite !append_length. cbn [String.length]. lia.
  - destruct (_ && _).
    + destruct (sspan isDigit s3) as [d2 s4] eqn:Hd2.
      apply sspan_spec in Hd2 as (-> & _). intros [= <- <-].
      rewrite !append_length. cbn [String.length]. rewrite !append_length. lia.
    + intros [= <- <-]. rewrite !append_length. cbn [String.length]. lia.
Qed.

Lemma lexNumber_nonempty c s lit r :
  isDigit c = true \/ (Ascii.eqb c "-" = true) ->
  lexNumber (String c s) = (lit, r) -> lit <> EmptyString.
Proof.
  unfold lexNumber. intros Hc.
  destruct (Ascii.eqb c "-") eqn:Hm.
  - destruct (sspan isDigit s) as [d1 s2]. destruct s2 as [|c0 s3].
    + by intros [= <- <-].
    + destruct (_ && _); [destruct (sspan isDigit s3)|]; by intros [= <- <-].
  - destruct Hc as [Hc|Hc]; [|done]. cbn [sspan]. rewrite Hc.
    destruct (sspan isDigit s) as [d1 s2]. destruct s2 as [|c0 s3].
    + by intros [= <- <-].
    + destruct (_ && _); [destruct (sspan isDigit s3)|]; by intros [= <- <-].
Qed.

Lemma consBody_length c w body r n :
  consBody c w = Some (body, r) ->
  (forall body' r', w = Some (body', r') -> String.length r' <= n) ->
  String.length r <= n.
Proof. destruct w as [[body' r']|]; [|done]. intros [= <- <-] H. by eapply H. Qed.

Lemma quotedWalk_length q : forall n s body r,
  String.length s <= n ->
  quotedWalk q s = Some (body, r) -> String.length r <= String.length s.
Proof.
  induction n as [|n IH]; intros s body r Hn.
  { destruct s; [|cbn [String.length] in Hn; lia]. by intros [= <- <-]. }
  destruct s as [|c s1]; [by intros [= <- <-]|].
  cbn [quotedWalk String.length] in *.
  destruct (Ascii.eqb c q); [intros [= <- <-]; lia|].
  destruct (Ascii.eqb c NUL); [by intros [= <- <-]|].
  destruct (Ascii.eqb c BACKSLASH).
  - destruct s1 as [|x s2]; [done|]. cbn [String.length] in *.
    destruct (Ascii.eqb x NUL).
    + intros H. eapply consBody_length in H; [exact H|].
      intros b1 r1 H1. eapply consBody_length in H1; [exact H1|].
      intros b2 r2 H2. apply IH in H2; lia.
    + destruct s2 as [|y s3]; [done|]. cbn [String.length] in *.
      intros H. eapply consBody_length in H; [exact H|].
      intros b1 r1 H1. eapply consBody_length in H1; [exact H1|].
      intros b2 r2 H2. eapply consBody_length in H2; [exact H2|].
      intros b3 r3 H3. apply IH in H3; lia.
  - intros H. eapply consBody_length in H; [exact H|].
    intros b1 r1 H1. apply IH in H1; lia.
Qed.

(** A token is read from the unread input, and every token but the one
    for the end of the input takes at least one byte. *)
Lemma lexOne_progress s ty lit r :
  lexOne s = Ok (ty, lit, r) ->
  String.length r <= String.length s
  /\ (ty <> EOF -> String.length r < String.length s).
Proof.
  unfold lexOne. destruct (sspan isSpace s) as [ws s0] eqn:Hws.
  apply sspan_length in Hws. cbn [snd]. rewrite Hws. clear Hws s.
  destruct s0 as [|c s']; [intros [= <- <- <-]; cbn [String.length]; split; [lia|done]|].
  cbn [String.length]. cbv zeta.
  assert (Hsingle : forall t, Ok (t, string_of_byte c, s') = Ok (ty, lit, r) ->
            String.length r <= String.length ws + S (String.length s')
            /\ (ty <> EOF -> String.length r < String.length ws + S (String.length s'))).
  { intros t [= <- <- <-]. split; lia. }
  assert (Hnum : isDigit c = true \/ Ascii.eqb c "-" = true ->
            lexNumberToken (String c s') = Ok (ty, lit, r) ->
            String.length r <= String.length ws + S (String.length s')
            /\ (ty <> EOF -> String.length r < String.length ws + S (String.length s'))).
  { unfold lexNumberToken. intros Hc.
    destruct (lexNumber (String c s')) as [lit' r'] eqn:Hlex. intros [= <- <- <-].
    pose proof (lexNumber_length _ _ _ Hlex) as Hlen.
    pose proof (lexNumber_nonempty _ _ _ _ Hc Hlex) as Hne.
    cbn [String.length] in Hlen. destruct lit'; [done|]. cbn [String.length] in Hlen.
    split; lia. }
  assert (Hquoted : forall q, lexQuoted q s' = Ok (ty, lit, r) ->
            String.length r <= String.length ws + S (String.length s')
            /\ (ty <> EOF -> String.length r < String.length ws + S (String.length s'))).
  { unfold lexQuoted. intros q.
    destruct (quotedWalk q s') as [[body r']|] eqn:Hw; [|done]. intros [= <- <- <-].
    apply (quotedWalk_length q (String.length s')) in Hw; [|done]. split; lia. }
  one_byte_tokens c ltac:(apply Hsingle).
  destruct (Ascii.eqb c "-") eqn:Hminus.
  { destruct (isDigit (shead s')); [apply Hnum; by right|apply Hsingle]. }
  destruct (Ascii.eqb c DQUOTE); [apply Hquoted|].
  destruct (Ascii.eqb c SQUOTE); [apply Hquoted|].
  destruct (Ascii.eqb c LF); [apply Hsingle|].
  destruct (Ascii.eqb c NUL); [intros [= <- <- <-]; split; lia|].
  destruct (isLetter c) eqn:Hletter.
  { destruct (sspan isIdentByte (String c s')) as [w r'] eqn:Hid. intros [= <- <- <-].
    pose proof (sspan_length _ _ _ _ Hid) as Hlen.
    cbn [sspan] in Hid. unfold isIdentByte in Hid at 1. rewrite Hletter in Hid.
    cbn [orb] in Hid. destruct (sspan isIdentByte s'). injection Hid as <- <-.
    cbn [String.length] in Hlen. split; lia. }
  destruct (isDigit c) eqn:Hdigit; [apply Hnum; by left|apply Hsingle].
Qed.

Lemma LookupIdent_kind s :
  LookupIdent s = IDENT \/ isKeywordType (LookupIdent s) = true.
Proof.
  unfold LookupIdent. destruct (keywords !! s) as [t|] eqn:Hs; [|by left].
  right. revert s t Hs. change (map_Forall (fun _ t => isKeywordType t = true) keywords).
  unfold keywords. repeat (apply map_Forall_insert_2; [reflexivity|]).
  apply map_Forall_empty.
Qed.

(** The words the lexer classifies. *)
Lemma lexOne_word s ty lit r :
  lexOne s = Ok (ty, lit, r) ->
  ty = IDENT \/ isKeywordType ty = true ->
  identWord lit = true /\ LookupIdent (ToUpper lit) = ty.
Proof.
  unfold lexOne. destruct (sspan isSpace s) as [ws s0]. cbn [snd].
  destruct s0 as [|c s']; [by intros [= <- <- <-] [|]|]. cbv zeta.
  assert (Hsingle : forall t, t <> IDENT -> isKeywordType t = false ->
            Ok (t, string_of_byte c, s') = Ok (ty, lit, r) ->
            ty = IDENT \/ isKeywordType ty = true ->
            identWord lit = true /\ LookupIdent (ToUpper lit) = ty).
  { intros t Hi Hk [= <- <- <-] [?|?]; congruence. }
  assert (Hnum : lexNumberToken (String c s') = Ok (ty, lit, r) ->
            ty = IDENT \/ isKeywordType ty = true ->
            identWord lit = true /\ LookupIdent (ToUpper lit) = ty).
  { unfold lexNumberToken. destruct (lexNumber (String c s')) as [lit' r'].
    intros [= <- <- <-]. destruct (Contains lit' "."); by intros [|]. }
  assert (Hquoted : forall q, lexQuoted q s' = Ok (ty, lit, r) ->
            ty = IDENT \/ isKeywordType ty = true ->
            identWord lit = true /\ LookupIdent (ToUpper lit) = ty).
  { unfold lexQuoted. intros q. destruct (quotedWalk q s') as [[body r']|]; [|done].
    by intros [= <- <- <-] [|]. }
  one_byte_tokens c ltac:(by apply Hsingle).
  destruct (Ascii.eqb c "-").
  { destruct (isDigit (shead s')); [apply Hnum|by apply Hsingle]. }
  destruct (Ascii.eqb c DQUOTE); [apply Hquoted|].
  destruct (Ascii.eqb c SQUOTE); [apply Hquoted|].
  destruct (Ascii.eqb c LF); [by apply Hsingle|].
  destruct (Ascii.eqb c NUL); [by intros [= <- <- <-] [|]|].
  destruct (isLetter c) eqn:Hletter.
  { destruct (sspan isIdentByte (String c s')) as [w r'] eqn:Hid. intros [= <- <- <-] _.
    split; [|done]. apply sspan_spec in Hid as Hw. destruct Hw as (_ & Hw & _).
    cbn [sspan] in Hid. unfold isIdentByte in Hid at 1. rewrite Hletter in Hid.
    cbn [orb] in Hid. destruct (sspan isIdentByte s'). injection Hid as <- <-.
    cbn [identWord sforall] in *. rewrite Hletter.
    apply andb_true_iff in Hw as [_ ->]. done. }
  destruct (isDigit c); [apply Hnum|by apply Hsingle].
Qed.

(** * Proofs: the parser *)

Import parser.

Lemma bind_unfold {A B} (m : M A) (k : A -> M B) p :
  (m ≫= k) p = match m p with
               | Ok (a, p') => k a p'
               | Panic => Panic
               | OutOfFuel => OutOfFuel
               end.
Proof. reflexivity. Qed.

Lemma holds_bind {A B} (m : M A) (k : A -> M B) p Q :
  holds m p (fun a p' => holds (k a) p' Q) -> holds (m ≫= k) p Q.
Proof. unfold holds. rewrite bind_unfold. by destruct (m p) as [[a p']| |]. Qed.

Lemma holds_ret {A} (a : A) p (Q : A -> Parser -> Prop) : Q a p -> holds (mret a) p Q.
Proof. done. Qed.

Lemma holds_weaken {A} (m : M A) p (Q Q' : A -> Parser -> Prop) :
  holds m p Q -> (forall a p', Q a p' -> Q' a p') -> holds m p Q'.
Proof. unfold holds. destruct (m p) as [[a p']| |]; auto. Qed.

Lemma holds_get_cur p Q : Q (curToken p) p -> holds get_cur p Q.
Proof. done. Qed.

Lemma holds_get_peek p Q : Q (peekToken p) p -> holds get_peek p Q.
Proof. done. Qed.

Lemma advances_refl p : wfParser p -> advances p p.
Proof. intros H. split; [done|]. split; [done|]. exists []. by rewrite app_nil_r. Qed.

Lemma advances_trans p1 p2 p3 : advances p1 p2 -> advances p2 p3 -> advances p1 p3.
Proof.
  intros (_ & Hm1 & es1 & He1) (Hwf & Hm2 & es2 & He2).
  split; [done|]. split; [lia|]. exists (es1 ++ es2). by rewrite He2, He1, app_assoc.
Qed.

(** ** One token forward *)

Lemma nextToken_spec p :
  wfParser p ->
  holds nextToken p (fun _ p' =>
    advances p p' /\ errors p' = errors p
    /\ curToken p' = peekToken p
    /\ (lexer.Type_ (peekToken p) <> lexer.EOF -> measure p' < measure p)
    /\ lexOne (rest (lexer_ p))
       = Ok (lexer.Type_ (peekToken p'), lexer.Literal (peekToken p'), rest (lexer_ p'))).
Proof.
  intros (Hwl & Hcur & Hpeek). unfold holds, nextToken.
  pose proof (NextToken_lexOne _ Hwl) as Hlex. unfold lexesAs in Hlex.
  destruct (lexOne (rest (lexer_ p))) as [[[ty lit] s]| |] eqn:Hone; [| |done].
  2: { by rewrite Hlex. }
  destruct Hlex as (tok & l' & -> & Hty & Hlit & Hwl' & Hin & Hrest).
  cbn [mbind Res_bind lexer_ curToken peekToken errors].
  pose proof (lexOne_progress _ _ _ _ Hone) as [Hle Hlt].
  rewrite <- Hrest, !rest_length in Hle, Hlt.
  assert (Hm : measure {| lexer_ := l'; curToken := peekToken p; peekToken := tok;
                          errors := errors p |} <= measure p
               /\ (lexer.Type_ (peekToken p) <> lexer.EOF ->
                   measure {| lexer_ := l'; curToken := peekToken p; peekToken := tok;
                              errors := errors p |} < measure p)).
  { unfold measure. cbn [lexer_ peekToken]. rewrite Hty.
    destruct (decide (ty = lexer.EOF)), (decide (lexer.Type_ (peekToken p) = lexer.EOF));
      split; try done; try lia; try (specialize (Hlt ltac:(done)); lia). }
  destruct Hm as [Hm1 Hm2].
  split_and!; try done.
  - split_and!; try done.
    + split_and!; try done. intros Hk. subst ty lit. by eapply lexOne_word.
    + exists []. by rewrite app_nil_r.
  - by rewrite Hty, Hlit, Hrest.
Qed.

Lemma addError_spec msg p :
  wfParser p ->
  holds (addError msg) p (fun _ p' =>
    advances p p' /\ length (errors p) < length (errors p')
    /\ curToken p' = curToken p /\ peekToken p' = peekToken p
    /\ lexer_ p' = lexer_ p).
Proof.
  intros Hwf. unfold holds, addError. cbn [errors curToken peekToken lexer_].
  split_and!; try done.
  - split; [done|]. split; [done|]. by eexists.
  - rewrite length_app. cbn. lia.
Qed.

Lemma advances_errors p p' :
  advances p p' -> length (errors p) <= length (errors p').
Proof. intros (_ & _ & es & ->). rewrite length_app. lia. Qed.

Lemma advances_same_errors p p' :
  advances p p' -> length (errors p') <= length (errors p) -> errors p' = errors p.
Proof.
  intros (_ & _ & es & ->). rewrite length_app. intros H.
  destruct es; [by rewrite app_nil_r|cbn in H; lia].
Qed.

Lemma advances_no_errors p p' :
  advances p p' -> errors p' = [] -> errors p = [].
Proof. intros (_ & _ & es & ->) H. by apply app_eq_nil in H as [-> _]. Qed.

Lemma isPatternPart_not_EOF t : isPatternPart t = true -> t <> lexer.EOF.
Proof. by destruct t. Qed.

(** ** Patterns *)

Lemma parsePatternExpression_loop_post fuel : forall p pattern,
  wfParser p -> measure p < fuel ->
  holds (parsePatternExpression_loop fuel pattern) p (fun _ p' =>
    advances p p' /\ errors p' = errors p
    /\ isPatternPart (lexer.Type_ (peekToken p')) = false).
Proof.
  induction fuel as [|f IH]; intros p pattern Hwf Hfuel; [lia|].
  cbn [parsePatternExpression_loop].
  apply holds_bind, holds_get_peek.
  destruct (isPatternPart (lexer.Type_ (peekToken p))) eqn:Hpart.
  - apply holds_bind.
    eapply holds_weaken; [by apply nextToken_spec|].
    intros [] p1 (Hadv1 & Herr1 & Hcur1 & Hlt1 & _). cbv beta.
    apply holds_bind, holds_get_cur.
    eapply holds_weaken.
    + apply IH; [apply Hadv1|]. apply isPatternPart_not_EOF, Hlt1 in Hpart. lia.
    + intros r p2 (Hadv2 & Herr2 & Hpeek2). cbv beta.
      split_and!; [by eapply advances_trans|congruence|done].
  - apply holds_ret. split_and!; [by apply advances_refl|done|done].
Qed.

Lemma parsePatternExpression_post fuel p :
  wfParser p -> measure p < fuel ->
  holds (parsePatternExpression fuel) p (fun e p' =>
    advances p p' /\ errors p' = errors p
    /\ isPatternPart (lexer.Type_ (peekToken p')) = false
    /\ exists t v, e = PatternExpression t v).
Proof.
  intros Hwf Hfuel. unfold parsePatternExpression.
  apply holds_bind, holds_get_cur, holds_bind.
  eapply holds_weaken; [by apply parsePatternExpression_loop_post|].
  intros v p1 (Hadv & Herr & Hpeek). cbv beta.
  apply holds_bind, holds_get_cur, holds_ret. split_and!; eauto.
Qed.

(** ** Expressions *)

Lemma parse_digits_nonneg base s : forall acc v,
  (0 <= base)%Z -> (0 <= acc)%Z -> parse_digits base s acc = Some v -> (0 <= v)%Z.
Proof.
  induction s as [|c s IH]; intros acc v Hb Ha; cbn [parse_digits].
  - intros [= <-]. done.
  - destruct (_ && _); [|done]. apply IH; [done|]. nia.
Qed.

Lemma ParseInt_int64 s v : ParseInt s = Some v -> int64 v.
Proof.
  unfold ParseInt, int64. destruct s as [|c s']; [done|]. cbv zeta.
  destruct (if Ascii.eqb c "+" || Ascii.eqb c "-" then s' else String c s')
    as [|d body']; [done|].
  assert (Hun : forall u,
            (if Ascii.eqb d "0" then parse_digits 8 body' 0
             else parse_digits 10 (String d body') 0) = Some u -> (0 <= u)%Z).
  { intros u. destruct (Ascii.eqb d "0"); apply parse_digits_nonneg; lia. }
  destruct (if Ascii.eqb d "0" then _ else _) as [u|]; [|done].
  specialize (Hun u eq_refl).
  destruct (Ascii.eqb c "-").
  - destruct (Z.leb_spec u (2 ^ 63)); [|done]. intros [= <-]. lia.
  - destruct (Z.ltb_spec u (2 ^ 63)); [|done]. intros [= <-]. lia.
Qed.

Lemma errors_grew_ne (p p' : Parser) :
  length (errors p) < length (errors p') -> errors p' <> errors p.
Proof. intros H E. rewrite E in H. lia. Qed.

Lemma advances_grew p1 p2 p3 :
  length (errors p1) < length (errors p2) -> advances p2 p3 ->
  errors p3 <> errors p1.
Proof. intros H ?%advances_errors. apply errors_grew_ne. lia. Qed.

Lemma expression_post fuel :
  (forall p, wfParser p -> expressionFuel p <= fuel ->
     holds (parseExpression fuel) p (expressionPost p))
  /\ (forall p, wfParser p -> lexer.Type_ (curToken p) = lexer.BRACKET_L ->
        2 * measure p + 3 <= fuel ->
        holds (parseRangeExpression fuel) p (rangePost p)).
Proof.
  induction fuel as [|f [IHe IHr]].
  { split; intros p _; [unfold expressionFuel|]; lia. }
  split.
  - (* parseExpression *)
    intros p Hwf Hfuel. cbn [parseExpression].
    apply holds_bind, holds_get_cur, holds_bind, holds_get_peek.
    pose proof Hwf as (_ & Hcur & _).
    assert (Hleaf : forall e,
              keywordsOk e -> parsedNode e ->
              (startsPattern e = true ->
               isPatternPart (lexer.Type_ (curToken p)) = true) ->
              isPattern e = false ->
              holds (mret (Some e)) p (expressionPost p)).
    { intros e Hk Hn Hs Hp. apply holds_ret. split; [by apply advances_refl|].
      split_and!; try done. by rewrite Hp. }
    assert (Hpattern :
              isPatternPart (lexer.Type_ (curToken p)) = true ->
              holds (e ← parsePatternExpression f; mret (Some e)) p (expressionPost p)).
    { intros Hpart. apply holds_bind.
      eapply holds_weaken.
      - apply parsePatternExpression_post; [done|]. unfold expressionFuel in Hfuel. lia.
      - intros e p' (Hadv & Herr & Hpeek & t & v & ->). apply holds_ret.
        split; [done|]. by split_and!. }
    assert (Hkeyword :
              isKeywordType (lexer.Type_ (curToken p)) = true ->
              holds (e ← parseKeywordExpression; mret (Some e)) p (expressionPost p)).
    { intros Hk. destruct (Hcur (or_intror Hk)) as [Hword Hlook].
      apply holds_bind. unfold parseKeywordExpression.
      apply holds_bind, holds_get_cur, holds_ret. apply Hleaf; try done.
      cbn [parsedNode]. by rewrite Hlook. }
    assert (Hunexpected : forall msg,
              holds (_ ← addError msg; mret None) p (expressionPost p)).
    { intros msg. apply holds_bind.
      eapply holds_weaken; [by apply addError_spec|].
      intros [] p' (Hadv & Hgrew & _). apply holds_ret. split; [done|].
      by apply errors_grew_ne. }
    destruct (lexer.Type_ (curToken p)) eqn:Hty;
      try (apply Hunexpected); try (by apply Hkeyword); try (by apply Hpattern).
    + (* IDENT *)
      destruct (decide (lexer.Type_ (peekToken p) = lexer.COLON)); [by apply Hpattern|].
      apply holds_bind. unfold parseIdentifier.
      apply holds_bind, holds_get_cur, holds_ret. apply Hleaf; try done.
      cbn [parsedNode Value]. destruct (Hcur (or_introl Hty)) as [Hw Hl].
      by rewrite Hty in Hl.
    + (* STRING *)
      apply holds_bind. unfold parseStringLiteral.
      apply holds_bind, holds_get_cur, holds_ret. by apply Hleaf.
    + (* INT *)
      apply holds_bind. unfold parseIntegerLiteral.
      apply holds_bind, holds_get_cur.
      destruct (ParseInt (lexer.Literal (curToken p))) as [v|] eqn:Hv.
      * apply holds_ret. apply Hleaf; try done. by eapply ParseInt_int64.
      * apply holds_bind.
        eapply holds_weaken; [by apply addError_spec|].
        intros [] p' (Hadv & Hgrew & _). apply holds_ret, holds_ret.
        split; [done|]. split_and!; try done.
        intros E. by apply errors_grew_ne in Hgrew.
    + (* FLOAT *)
      apply holds_bind. unfold parseFloatLiteral.
      apply holds_bind, holds_get_cur.
      destruct (ParseFloat (lexer.Literal (curToken p))) as [v|] eqn:Hv.
      * apply holds_ret. by apply Hleaf.
      * apply holds_bind.
        eapply holds_weaken; [by apply addError_spec|].
        intros [] p' (Hadv & Hgrew & _). apply holds_ret, holds_ret.
        split; [done|]. split_and!; try done.
        intros E. by apply errors_grew_ne in Hgrew.
    + (* BRACKET_L *)
      apply holds_bind.
      eapply holds_weaken.
      * apply IHr; [done..|]. unfold expressionFuel in Hfuel.
        rewrite Hty in Hfuel. rewrite decide_True in Hfuel by done. lia.
      * intros e p' (Hadv & Hk & Hn & Hs & Hp). apply holds_ret.
        split; [done|]. split_and!; try done; by rewrite ?Hs, ?Hp.
  - (* parseRangeExpression *)
    intros p Hwf Hbracket Hfuel. cbn [parseRangeExpression].
    apply holds_bind, holds_get_cur.
    rewrite decide_False by (by intros ?).
    assert (Hnil : forall p1 msg,
              advances p p1 -> wfParser p1 ->
              holds (_ ← addError msg; mret (NilPtr TRangeExpression)) p1 (rangePost p)).
    { intros p1 msg Hadv1 Hwf1. apply holds_bind.
      eapply holds_weaken; [by apply addError_spec|].
      intros [] p' (Hadv & Hgrew & _). apply holds_ret.
      split; [by eapply advances_trans|]. split_and!; try done.
      intros E. apply advances_errors in Hadv1. rewrite E in Hgrew. lia. }
    apply holds_bind.
    eapply holds_weaken; [by apply nextToken_spec|].
    intros [] p1 (Hadv1 & Herr1 & Hcur1 & Hlt1 & _). cbv beta.
    apply holds_bind.
    eapply holds_weaken.
    { apply IHe; [apply Hadv1|]. unfold expressionFuel.
      destruct Hadv1 as (_ & Hm1 & _).
      destruct (decide (lexer.Type_ (curToken p1) = lexer.BRACKET_L)) as [E|E]; [|lia].
      rewrite Hcur1 in E. rewrite E in Hlt1. specialize (Hlt1 ltac:(done)). lia. }
    intros start p2 (Hadv2 & Hstart). cbv beta.
    pose proof (advances_trans _ _ _ Hadv1 Hadv2) as Hadv12.
    destruct start as [start|].
    2: { apply holds_ret. split; [done|]. split_and!; try done.
         intros E. rewrite <- Herr1 in E.
         apply advances_errors in Hadv1. congruence. }
    destruct Hstart as (Hks & Hns & _ & _).
    apply holds_bind, holds_get_peek.
    destruct (decide (lexer.Type_ (peekToken p2) <> lexer.COMMA)) as [Hcomma|Hcomma];
      [apply (Hnil p2); [done|apply Hadv2]|].
    apply dec_stable in Hcomma.
    apply holds_bind.
    eapply holds_weaken; [apply nextToken_spec, Hadv2|].
    intros [] p3 (Hadv3 & Herr3 & Hcur3 & Hlt3 & _). cbv beta.
    apply holds_bind.
    eapply holds_weaken; [apply nextToken_spec, Hadv3|].
    intros [] p4 (Hadv4 & Herr4 & Hcur4 & Hlt4 & _). cbv beta.
    pose proof (advances_trans _ _ _ Hadv12 (advances_trans _ _ _ Hadv3 Hadv4)) as Hadv14.
    apply holds_bind.
    eapply holds_weaken.
    { apply IHe; [apply Hadv4|]. unfold expressionFuel.
      rewrite Hcomma in Hlt3. specialize (Hlt3 ltac:(done)).
      destruct Hadv12 as (_ & Hm12 & _), Hadv4 as (_ & Hm4 & _).
      destruct (decide _); lia. }
    intros end_ p5 (Hadv5 & Hend). cbv beta.
    pose proof (advances_trans _ _ _ Hadv14 Hadv5) as Hadv15.
    assert (Hsame : errors p5 = errors p ->
              errors p2 = errors p1 /\ errors p5 = errors p4).
    { intros E.
      pose proof (advances_errors _ _ Hadv2) as L2.
      pose proof (advances_errors _ _ Hadv5) as L5.
      assert (L : length (errors p5) = length (errors p)) by (by rewrite E).
      assert (L4 : length (errors p4) = length (errors p2)) by congruence.
      assert (L1 : length (errors p1) = length (errors p)) by congruence.
      split; apply advances_same_errors; try done; lia. }
    destruct end_ as [end_|].
    2: { apply holds_ret. split; [done|]. split_and!; try done.
         intros E. destruct (Hsame E). done. }
    destruct Hend as (Hke & Hne & _ & _).
    apply holds_bind, holds_get_peek.
    destruct (decide (lexer.Type_ (peekToken p5) <> lexer.BRACKET_R)) as [Hclose|Hclose];
      [apply (Hnil p5); [done|apply Hadv5]|].
    apply holds_bind.
    eapply holds_weaken; [apply nextToken_spec, Hadv5|].
    intros [] p6 (Hadv6 & Herr6 & _). cbv beta. apply holds_ret.
    split; [by eapply advances_trans|]. split_and!; try done.
    intros E. rewrite Herr6 in E. destruct (Hsame E) as [E1 E2].
    cbn [parsedNode]. auto.
Qed.

(** ** Commands *)

Lemma endsCommand_not_EOF t : endsCommand t = false -> t <> lexer.EOF.
Proof. by destruct t. Qed.

Lemma separated_snoc args arg :
  separated args ->
  (forall e, last args = Some e -> isPattern e = true -> startsPattern arg = false) ->
  separated (args ++ [arg]).
Proof.
  intros Hsep Hlast i e1 e2 H1 H2 Hp.
  destruct (decide (S i < length args)) as [Hlt|Hge].
  - rewrite lookup_app_l in H1 by lia. rewrite lookup_app_l in H2 by lia.
    exact (Hsep i e1 e2 H1 H2 Hp).
  - apply lookup_lt_Some in H2 as Hlen. rewrite length_app in Hlen. cbn in Hlen.
    assert (Hi : S i = length args) by lia.
    rewrite lookup_app_l in H1 by lia.
    rewrite lookup_app_r in H2 by lia. rewrite Hi, Nat.sub_diag in H2.
    injection H2 as <-. apply (Hlast e1); [|done].
    rewrite last_lookup. rewrite <- Hi. exact H1.
Qed.

Lemma parseArguments_post fuel : forall p args,
  wfParser p -> 2 * measure p + 3 <= fuel -> argumentsInv args p ->
  holds (parseArguments fuel args) p (fun args' p' =>
    advances p p' /\ argumentsInv args' p'
    /\ endsCommand (lexer.Type_ (peekToken p')) = true).
Proof.
  induction fuel as [|f IH]; intros p args Hwf Hfuel Hinv; [lia|].
  cbn [parseArguments]. apply holds_bind, holds_get_peek.
  destruct (endsCommand (lexer.Type_ (peekToken p))) eqn:Hend.
  { apply holds_ret. split_and!; [by apply advances_refl|done|done]. }
  apply holds_bind.
  eapply holds_weaken; [by apply nextToken_spec|].
  intros [] p1 (Hadv1 & Herr1 & Hcur1 & Hlt1 & _). cbv beta.
  specialize (Hlt1 (endsCommand_not_EOF _ Hend)).
  apply holds_bind.
  eapply holds_weaken.
  { apply (proj1 (expression_post f)); [apply Hadv1|].
    unfold expressionFuel. destruct (decide _); lia. }
  intros arg p2 (Hadv2 & Harg). cbv beta.
  pose proof (advances_trans _ _ _ Hadv1 Hadv2) as Hadv12.
  destruct Hinv as (Hk & Hclean).
  assert (Hnext : forall args',
            argumentsInv args' p2 ->
            holds (parseArguments f args') p2 (fun args'' p' =>
              advances p p' /\ argumentsInv args'' p'
              /\ endsCommand (lexer.Type_ (peekToken p')) = true)).
  { intros args' Hinv'. eapply holds_weaken.
    - apply IH; [apply Hadv2| |done]. destruct Hadv2 as (_ & Hm2 & _). lia.
    - intros args'' p' (Hadv' & Hinv'' & Hend'). cbv beta.
      split_and!; [by eapply advances_trans|done|done]. }
  destruct arg as [arg|]; apply Hnext.
  - destruct Harg as (Hka & Hna & Hsa & Hpa).
    split; [apply Forall_app; by split; [|apply Forall_cons_2]|].
    intros E2.
    assert (E1 : errors p1 = []) by (by eapply advances_no_errors).
    assert (E : errors p = []) by congruence.
    destruct (Hclean E) as (Hn & Hsep & Hlast).
    split_and!.
    + apply Forall_app. split; [done|]. apply Forall_cons_2; [|done].
      apply Hna. congruence.
    + apply separated_snoc; [done|]. intros e He Hpe.
      specialize (Hlast e He Hpe). rewrite <- Hcur1 in Hlast.
      destruct (startsPattern arg); [|done]. by rewrite Hsa in Hlast.
    + intros e He. rewrite last_snoc in He. injection He as <-. exact Hpa.
  - split; [done|]. intros E2. exfalso. apply Harg.
    assert (E1 : errors p1 = []) by (by eapply advances_no_errors). congruence.
Qed.

Lemma parseRedisCommand_post fuel p :
  wfParser p -> 2 * measure p + 3 <= fuel ->
  holds (parseRedisCommand fuel) p (commandPost p).
Proof.
  intros Hwf Hfuel. unfold parseRedisCommand.
  apply holds_bind, holds_get_cur.
  destruct (decide (lexer.Type_ (curToken p) <> lexer.IDENT)) as [Hne|Hid].
  - apply holds_bind.
    eapply holds_weaken; [by apply addError_spec|].
    intros [] p' (Hadv & Hgrew & Hc & Hp & Hl). apply holds_ret.
    split; [done|]. by split_and!.
  - apply dec_stable in Hid. apply holds_bind.
    eapply holds_weaken.
    + apply parseArguments_post; [done..|].
      split; [done|]. intros _. split_and!; [done| |done].
      intros i e1 e2 H1. by rewrite lookup_nil in H1.
    + intros args p' (Hadv & (Hk & Hclean) & Hend). apply holds_ret.
      split; [done|]. cbn [Arguments Command Value]. split_and!; [done| |done].
      intros E. destruct (Hclean E) as (Hn & Hsep & _).
      destruct Hwf as (_ & Hcur & _). destruct (Hcur (or_introl Hid)) as [Hw Hl].
      rewrite Hid in Hl. by split_and!.
Qed.

(** ** The entry points *)

Lemma New_post input :
  match New (lexer.New input) with
  | Ok p => wfParser p /\ measure p <= String.length input + 1 /\ errors p = []
            /\ measure2 p <= 2 * String.length input + 3
  | Panic => True
  | OutOfFuel => False
  end.
Proof.
  unfold New.
  set (p0 := {| lexer_ := lexer.New input; curToken := zeroToken;
                peekToken := zeroToken; errors := [] |}).
  assert (Hwf0 : wfParser p0).
  { destruct (New_spec input) as (Hwl & _). split; [done|]. split; by intros [|]. }
  assert (Hm0 : measure p0 = String.length input + 1).
  { unfold measure, remaining. cbn [p0 lexer_ peekToken].
    destruct (New_spec input) as (_ & -> & ->).
    destruct (decide _) as [E|_]; [discriminate E|lia]. }
  pose proof (nextToken_spec p0 Hwf0) as H1. unfold holds in H1.
  rewrite bind_unfold.
  destruct (nextToken p0) as [[[] p1]| |]; [|done..].
  destruct H1 as (Hadv1 & Herr1 & _ & Hlt1 & _).
  pose proof (nextToken_spec p1 (proj1 Hadv1)) as H2. unfold holds in H2.
  destruct (nextToken p1) as [[[] p2]| |]; [|done..].
  destruct H2 as (Hadv2 & Herr2 & Hcur2 & Hlt2 & _).
  cbn [mbind Res_bind]. destruct Hadv1 as (_ & Hm1 & _), Hadv2 as (Hwf2 & Hm2 & _).
  assert (Hlt : measure p1 < measure p0) by (by apply Hlt1).
  split_and!; [done|lia|by rewrite Herr2, Herr1|].
  unfold measure2. destruct (decide (lexer.Type_ (curToken p2) = lexer.EOF)) as [E|E]; [lia|].
  rewrite Hcur2 in E. specialize (Hlt2 E). lia.
Qed.

(** [ParseCommand] has enough fuel for every input. *)
Theorem ParseCommand_fuel input : ParseCommand input <> OutOfFuel.
Proof.
  unfold ParseCommand. pose proof (New_post input) as Hnew.
  destruct (New (lexer.New input)) as [p| |]; [|done..]. cbn [mbind Res_bind].
  destruct Hnew as (Hwf & Hm & _).
  pose proof (parseRedisCommand_post (parse_fuel input) p Hwf) as H.
  unfold holds in H.
  destruct (parseRedisCommand (parse_fuel input) p) as [[cmd p']| |]; [done|done|].
  exfalso. apply H. unfold parse_fuel. lia.
Qed.

(** What [ParseCommand] builds: keyword nodes hold the text of their
    token, and an error-free parse builds a command of parsed nodes. *)
Theorem ParseCommand_post input cmd errs :
  ParseCommand input = Ok (Some cmd, errs) ->
  Forall keywordsOk (Arguments cmd) /\ (errs = [] -> parsedCommand cmd).
Proof.
  unfold ParseCommand. pose proof (New_post input) as Hnew.
  destruct (New (lexer.New input)) as [p| |]; [|done..]. cbn [mbind Res_bind].
  destruct Hnew as (Hwf & Hm & _).
  pose proof (parseRedisCommand_post (parse_fuel input) p Hwf) as H.
  unfold holds in H.
  destruct (parseRedisCommand (parse_fuel input) p) as [[r p']| |]; [|done..].
  cbn [mbind Res_bind]. intros [= -> <-].
  destruct H as (_ & Hk & Hn & _); [unfold parse_fuel; lia|]. done.
Qed.

(** ** Programs *)

Lemma LookupIdent_name s :
  isKeywordType (lexer.LookupIdent s) = true ->
  s = lexer.TokenType_String (lexer.LookupIdent s).
Proof.
  unfold lexer.LookupIdent.
  destruct (lexer.keywords !! s) as [t|] eqn:Hs; [|done]. intros _.
  revert s t Hs.
  change (map_Forall (fun k t => k = lexer.TokenType_String t) lexer.keywords).
  unfold lexer.keywords. repeat (apply map_Forall_insert_2; [reflexivity|]).
  apply map_Forall_empty.
Qed.



Lemma nextToken_measure2 p :
  wfParser p -> lexer.Type_ (curToken p) <> lexer.EOF ->
  holds nextToken p (fun _ p' =>
    advances p p' /\ errors p' = errors p /\ curToken p' = peekToken p
    /\ measure2 p' < measure2 p).
Proof.
  intros Hwf Hcur. eapply holds_weaken; [by apply nextToken_spec|].
  intros [] p' (Hadv & Herr & Hc & Hlt & _). cbv beta.
  split_and!; [done..|]. unfold measure2. rewrite Hc.
  destruct Hadv as (_ & Hm & _).
  destruct (decide (lexer.Type_ (curToken p) = _)) as [|_]; [done|].
  destruct (decide (lexer.Type_ (peekToken p) = _)) as [E|E]; [lia|].
  specialize (Hlt E). lia.
Qed.

Lemma measure2_bound p : 2 * measure p <= measure2 p.
Proof. unfold measure2. lia. Qed.

Lemma skipNewlines_post fuel : forall p,
  wfParser p -> measure2 p + 1 <= fuel ->
  holds (skipNewlines fuel) p (fun _ p' =>
    advances p p' /\ errors p' = errors p /\ measure2 p' <= measure2 p
    /\ lexer.Type_ (curToken p') <> lexer.NEWLINE).
Proof.
  induction fuel as [|f IH]; intros p Hwf Hfuel; [lia|].
  cbn [skipNewlines]. apply holds_bind, holds_get_cur.
  destruct (decide (lexer.Type_ (curToken p) = lexer.NEWLINE)) as [Hnl|Hnl].
  - apply holds_bind. eapply holds_weaken.
    { apply nextToken_measure2; [done|]. by rewrite Hnl. }
    intros [] p1 (Hadv & Herr & _ & Hlt). cbv beta.
    eapply holds_weaken; [apply IH; [apply Hadv|lia]|].
    intros [] p' (Hadv' & Herr' & Hle & Hcur). cbv beta.
    split_and!; [by eapply advances_trans|congruence|lia|done].
  - apply holds_ret. split_and!; [by apply advances_refl|done|done|done].
Qed.

Lemma parseStatement_post fuel p :
  wfParser p -> measure2 p + 3 <= fuel ->
  holds (parseStatement fuel) p (fun st p' =>
    advances p p'
    /\ match st with Some st => statementOk st | None => True end).
Proof.
  intros Hwf Hfuel. unfold parseStatement. apply holds_bind.
  eapply holds_weaken; [apply skipNewlines_post; [done|lia]|].
  intros [] p1 (Hadv & _ & Hle & _). cbv beta.
  apply holds_bind, holds_get_cur.
  destruct (decide (lexer.Type_ (curToken p1) = lexer.EOF)).
  { by apply holds_ret. }
  apply holds_bind. eapply holds_weaken.
  { apply parseRedisCommand_post; [apply Hadv|].
    pose proof (measure2_bound p1). lia. }
  intros cmd p' (Hadv' & Hcmd). apply holds_ret.
  split; [by eapply advances_trans|].
  destruct cmd as [cmd|]; [|done]. apply Hcmd.
Qed.

Lemma ParseProgram_loop_post fuel : forall p stmts,
  wfParser p -> measure2 p + 4 <= fuel -> Forall statementOk stmts ->
  holds (ParseProgram_loop fuel stmts) p (fun stmts' p' =>
    advances p p' /\ Forall statementOk stmts').
Proof.
  induction fuel as [|f IH]; intros p stmts Hwf Hfuel Hall; [lia|].
  cbn [ParseProgram_loop]. apply holds_bind, holds_get_cur.
  destruct (decide (lexer.Type_ (curToken p) <> lexer.EOF)) as [Hcur|Hcur].
  2: { apply holds_ret. split; [by apply advances_refl|done]. }
  apply holds_bind. eapply holds_weaken; [apply parseStatement_post; [done|lia]|].
  intros st p1 (Hadv1 & Hst). cbv beta.
  apply holds_bind. eapply holds_weaken; [apply nextToken_spec, Hadv1|].
  intros [] p2 (Hadv2 & _ & Hc2 & Hlt2 & _). cbv beta.
  assert (Hm : measure2 p2 < measure2 p).
  { unfold measure2. rewrite Hc2.
    destruct Hadv1 as (_ & Hm1 & _), Hadv2 as (_ & Hm2 & _).
    destruct (decide (lexer.Type_ (curToken p) = _)) as [|_]; [done|].
    destruct (decide (lexer.Type_ (peekToken p1) = _)) as [E|E]; [lia|].
    specialize (Hlt2 E). lia. }
  eapply holds_weaken.
  - apply IH; [apply Hadv2|lia|].
    destruct st as [st|]; [|done]. apply Forall_app. split; [done|].
    by apply Forall_cons_2.
  - intros stmts' p' (Hadv' & Hall'). cbv beta. split; [|done].
    eapply advances_trans; [|done]. by eapply advances_trans.
Qed.

(** [ParseCommands] has enough fuel for every input. *)
Theorem ParseCommands_fuel input : ParseCommands input <> OutOfFuel.
Proof.
  unfold ParseCommands, ParseProgram. pose proof (New_post input) as Hnew.
  destruct (New (lexer.New input)) as [p| |]; [|done..]. cbn [mbind Res_bind].
  destruct Hnew as (Hwf & _ & _ & Hm).
  pose proof (ParseProgram_loop_post (parse_fuel input) p [] Hwf) as H.
  unfold holds in H. rewrite bind_unfold.
  destruct (ParseProgram_loop (parse_fuel input) [] p) as [[stmts p']| |]; [done|done|].
  exfalso. apply H; [unfold parse_fuel; lia|done].
Qed.


(** The statements [ParseProgram] has collected stay in front of those it
    adds. *)
Lemma ParseProgram_loop_acc fuel : forall acc p,
  ParseProgram_loop fuel acc p
  = match ParseProgram_loop fuel [] p with
    | Ok (stmts, p') => Ok (acc ++ stmts, p')
    | Panic => Panic
    | OutOfFuel => OutOfFuel
    end.
Proof.
  induction fuel as [|f IH]; intros acc p; [done|].
  cbn [ParseProgram_loop]. rewrite !bind_unfold. cbn [get_cur].
  destruct (decide _); [|cbn [mret M_ret]; by rewrite app_nil_r].
  rewrite !bind_unfold. destruct (parseStatement f p) as [[st p1]| |]; [|done..].
  rewrite !bind_unfold. destruct (nextToken p1) as [[[] p2]| |]; [|done..].
  rewrite IH. rewrite (IH (match st with Some st0 => [] ++ [st0] | None => [] end)).
  destruct (ParseProgram_loop f [] p2) as [[stmts p']| |]; [|done..].
  destruct st; [|done]. by rewrite <- app_assoc.
Qed.

Lemma New_tokens l first l1 second l2 :
  lexer.NextToken l = Ok (first, l1) -> lexer.NextToken l1 = Ok (second, l2) ->
  New l = Ok {| lexer_ := l2; curToken := first; peekToken := second; errors := [] |}.
Proof.
  intros H1 H2. unfold New. rewrite !bind_unfold. unfold nextToken at 1.
  cbn [lexer_ peekToken errors]. rewrite H1. cbn [mbind Res_bind].
  unfold nextToken. cbn [lexer_ peekToken errors]. rewrite H2. reflexivity.
Qed.

(** One turn of the loop of [ParseProgram] on a token that cannot begin a
    statement: the error is recorded, a nil command is added, and the loop
    goes on from the next token. *)
Lemma ParseProgram_loop_refused f stmts p :
  notCommandStart (curToken p) ->
  ParseProgram_loop (S (S f)) stmts p
  = (_ ← nextToken; ParseProgram_loop (S f) (stmts ++ [NilRedisCommand]))
      {| lexer_ := lexer_ p; curToken := curToken p; peekToken := peekToken p;
         errors := errors p ++ [commandExpected (curToken p)] |}.
Proof.
  intros (Hid & Hnl & Heof).
  change (ParseProgram_loop (S (S f)) stmts p)
    with ((cur ← get_cur;
           if decide (lexer.Type_ cur <> lexer.EOF) then
             stmt ← parseStatement (S f);
             let stmts := match stmt with Some st => stmts ++ [st] | None => stmts end in
             _ ← nextToken;
             ParseProgram_loop (S f) stmts
           else mret stmts) p).
  rewrite bind_unfold. cbn [get_cur].
  destruct (decide (lexer.Type_ (curToken p) <> lexer.EOF)) as [_|E]; [|done].
  rewrite bind_unfold. unfold parseStatement. cbn [skipNewlines].
  rewrite !bind_unfold. cbn [get_cur].
  destruct (decide (lexer.Type_ (curToken p) = lexer.NEWLINE)) as [E|_]; [done|].
  cbn [mret M_ret]. rewrite !bind_unfold. cbn [get_cur].
  destruct (decide (lexer.Type_ (curToken p) = lexer.EOF)) as [E|_]; [done|].
  rewrite !bind_unfold. unfold parseRedisCommand. rewrite !bind_unfold. cbn [get_cur].
  destruct (decide (lexer.Type_ (curToken p) <> lexer.IDENT)) as [_|E]; [|done].
  rewrite !bind_unfold. reflexivity.
Qed.

(** One turn of the loop on an identifier: a command that begins with it
    is added. *)
Lemma ParseProgram_loop_command f stmts p r p' :
  lexer.Type_ (curToken p) = lexer.IDENT ->
  ParseProgram_loop (S (S f)) stmts p = Ok (r, p') ->
  exists cmd more, r = stmts ++ Stmt cmd :: more /\ Token (Command cmd) = curToken p.
Proof.
  intros Hid.
  change (ParseProgram_loop (S (S f)) stmts p)
    with ((cur ← get_cur;
           if decide (lexer.Type_ cur <> lexer.EOF) then
             stmt ← parseStatement (S f);
             let stmts := match stmt with Some st => stmts ++ [st] | None => stmts end in
             _ ← nextToken;
             ParseProgram_loop (S f) stmts
           else mret stmts) p).
  rewrite bind_unfold. cbn [get_cur].
  destruct (decide (lexer.Type_ (curToken p) <> lexer.EOF)) as [_|E]; [|exfalso; apply E; by rewrite Hid].
  rewrite bind_unfold. unfold parseStatement. cbn [skipNewlines].
  rewrite !bind_unfold. cbn [get_cur].
  destruct (decide (lexer.Type_ (curToken p) = lexer.NEWLINE)) as [E|_]; [by rewrite Hid in E|].
  cbn [mret M_ret]. rewrite !bind_unfold. cbn [get_cur].
  destruct (decide (lexer.Type_ (curToken p) = lexer.EOF)) as [E|_]; [by rewrite Hid in E|].
  rewrite !bind_unfold. unfold parseRedisCommand. rewrite !bind_unfold. cbn [get_cur].
  destruct (decide (lexer.Type_ (curToken p) <> lexer.IDENT)) as [E|_]; [done|].
  rewrite !bind_unfold.
  destruct (parseArguments (S f) [] p) as [[args p1]| |]; [|done..].
  cbn [mret M_ret]. rewrite bind_unfold.
  destruct (nextToken p1) as [[[] p2]| |]; [|done..].
  rewrite ParseProgram_loop_acc.
  destruct (ParseProgram_loop (S f) [] p2) as [[more p3]| |]; [|done..].
  intros [= <- <-]. eexists _, more. rewrite <- app_assoc. split; reflexivity.
Qed.

(** * Proofs: more fuel does not change what the parser returns *)

Section Monotone.
Import parser.

Lemma refines_refl {A} (m : M A) : refines m m.
Proof. by intros p _. Qed.

Lemma refines_out_of_fuel {A} (m : M A) : refines out_of_fuel m.
Proof. by intros p H. Qed.

Lemma refines_bind {A B} (m m' : M A) (k k' : A -> M B) :
  refines m m' -> (forall a, refines (k a) (k' a)) ->
  refines (m ≫= k) (m' ≫= k').
Proof.
  intros Hm Hk p H. rewrite !bind_unfold in *.
  rewrite Hm by (by destruct (m p)).
  destruct (m p) as [[a p']| |]; [by apply Hk|done|done].
Qed.

Lemma refines_trans {A} (m1 m2 m3 : M A) :
  refines m1 m2 -> refines m2 m3 -> refines m1 m3.
Proof.
  intros H12 H23 p H. rewrite H23; [by apply H12|]. by rewrite H12.
Qed.

Ltac mono_step :=
  first [ assumption | apply refines_refl | apply refines_out_of_fuel
        | match goal with
          | H : forall x, refines _ _ |- _ => apply H
          | |- refines (if ?b then _ else _) (if ?b then _ else _) => destruct b
          | |- refines (match ?x with _ => _ end) (match ?x with _ => _ end) => destruct x
          end
        | apply refines_bind; [|intros ?] ].

Lemma refines_pattern_loop f : forall pattern,
  refines (parsePatternExpression_loop f pattern)
          (parsePatternExpression_loop (S f) pattern).
Proof.
  induction f as [|f IH]; intros pattern; [apply refines_out_of_fuel|].
  change (parsePatternExpression_loop (S (S f)) pattern)
    with (peek ← get_peek;
          if isPatternPart (lexer.Type_ peek) then
            _ ← nextToken; cur ← get_cur;
            parsePatternExpression_loop (S f) (pattern +:+ lexer.Literal cur)
          else mret pattern).
  cbn [parsePatternExpression_loop]. repeat mono_step.
Qed.

Lemma refines_pattern f :
  refines (parsePatternExpression f) (parsePatternExpression (S f)).
Proof.
  unfold parsePatternExpression. pose proof (refines_pattern_loop f). repeat mono_step.
Qed.

Lemma refines_expression f :
  refines (parseExpression f) (parseExpression (S f))
  /\ refines (parseRangeExpression f) (parseRangeExpression (S f)).
Proof.
  induction f as [|f [IHe IHr]]; [split; apply refines_out_of_fuel|].
  pose proof (refines_pattern f) as Hpat.
  split.
  - change (parseExpression (S (S f)))
      with (cur ← get_cur; peek ← get_peek;
            match lexer.Type_ cur with
            | lexer.IDENT =>
                if decide (lexer.Type_ peek = lexer.COLON)
                then e ← parsePatternExpression (S f); mret (Some e)
                else e ← parseIdentifier; mret (Some e)
            | lexer.STRING => e ← parseStringLiteral; mret (Some e)
            | lexer.INT => e ← parseIntegerLiteral; mret (Some e)
            | lexer.FLOAT => e ← parseFloatLiteral; mret (Some e)
            | lexer.EX | lexer.PX | lexer.NX | lexer.XX | lexer.WITHSCORES
            | lexer.LIMIT | lexer.COUNT | lexer.MATCH | lexer.TYPE =>
                e ← parseKeywordExpression; mret (Some e)
            | lexer.ASTERISK | lexer.QUESTION =>
                e ← parsePatternExpression (S f); mret (Some e)
            | lexer.BRACKET_L => e ← parseRangeExpression (S f); mret (Some e)
            | _ =>
                _ ← addError ("unexpected token: " +:+
                              lexer.TokenType_String (lexer.Type_ cur));
                mret None
            end).
    cbn [parseExpression].
    apply refines_bind; [apply refines_refl|intros cur].
    apply refines_bind; [apply refines_refl|intros peek].
    destruct (lexer.Type_ cur); repeat mono_step.
  - change (parseRangeExpression (S (S f)))
      with (cur ← get_cur;
            if decide (lexer.Type_ cur <> lexer.BRACKET_L) then
              _ ← addError "expected '['"; mret (NilPtr TRangeExpression)
            else
              _ ← nextToken;
              start ← parseExpression (S f);
              match start with
              | None => mret (NilPtr TRangeExpression)
              | Some start =>
                  peek ← get_peek;
                  if decide (lexer.Type_ peek <> lexer.COMMA) then
                    _ ← addError "expected ',' in range expression";
                    mret (NilPtr TRangeExpression)
                  else
                    _ ← nextToken;
                    _ ← nextToken;
                    end_ ← parseExpression (S f);
                    match end_ with
                    | None => mret (NilPtr TRangeExpression)
                    | Some end_ =>
                        peek ← get_peek;
                        if decide (lexer.Type_ peek <> lexer.BRACKET_R) then
                          _ ← addError "expected ']'";
                          mret (NilPtr TRangeExpression)
                        else
                          _ ← nextToken;
                          mret (RangeExpression start end_)
                    end
              end).
    cbn [parseRangeExpression]. repeat mono_step.
Qed.

Lemma refines_arguments f : forall args,
  refines (parseArguments f args) (parseArguments (S f) args).
Proof.
  induction f as [|f IH]; intros args; [apply refines_out_of_fuel|].
  pose proof (proj1 (refines_expression f)) as He.
  change (parseArguments (S (S f)) args)
    with (peek ← get_peek;
          if endsCommand (lexer.Type_ peek) then mret args
          else
            _ ← nextToken;
            arg ← parseExpression (S f);
            match arg with
            | Some arg => parseArguments (S f) (args ++ [arg])
            | None => parseArguments (S f) args
            end).
  cbn [parseArguments]. repeat mono_step.
Qed.

Lemma refines_command f :
  refines (parseRedisCommand f) (parseRedisCommand (S f)).
Proof.
  unfold parseRedisCommand. pose proof (refines_arguments f). repeat mono_step.
Qed.

Lemma refines_command_le f f' :
  f <= f' -> refines (parseRedisCommand f) (parseRedisCommand f').
Proof.
  induction 1 as [|f' _ IH]; [apply refines_refl|].
  eapply refines_trans; [exact IH|apply refines_command].
Qed.

Lemma refines_skipNewlines f : refines (skipNewlines f) (skipNewlines (S f)).
Proof.
  induction f as [|f IH]; [apply refines_out_of_fuel|].
  change (skipNewlines (S (S f)))
    with (cur ← get_cur;
          if decide (lexer.Type_ cur = lexer.NEWLINE)
          then _ ← nextToken; skipNewlines (S f)
          else mret tt).
  cbn [skipNewlines]. repeat mono_step.
Qed.

Lemma refines_statement f : refines (parseStatement f) (parseStatement (S f)).
Proof.
  unfold parseStatement.
  pose proof (refines_skipNewlines f). pose proof (refines_command f).
  repeat mono_step.
Qed.

Lemma refines_program_loop f : forall stmts,
  refines (ParseProgram_loop f stmts) (ParseProgram_loop (S f) stmts).
Proof.
  induction f as [|f IH]; intros stmts; [apply refines_out_of_fuel|].
  pose proof (refines_statement f) as Hst.
  change (ParseProgram_loop (S (S f)) stmts)
    with (cur ← get_cur;
          if decide (lexer.Type_ cur <> lexer.EOF) then
            stmt ← parseStatement (S f);
            _ ← nextToken;
            ParseProgram_loop (S f)
              (match stmt with Some st => stmts ++ [st] | None => stmts end)
          else mret stmts).
  change (ParseProgram_loop (S f) stmts)
    with (cur ← get_cur;
          if decide (lexer.Type_ cur <> lexer.EOF) then
            stmt ← parseStatement f;
            _ ← nextToken;
            ParseProgram_loop f
              (match stmt with Some st => stmts ++ [st] | None => stmts end)
          else mret stmts).
  repeat mono_step.
Qed.

(** More fuel, in any amount. *)
Lemma refines_le {A} (m : nat -> M A) :
  (forall f, refines (m f) (m (S f))) ->
  forall f f', f <= f' -> refines (m f) (m f').
Proof.
  intros Hm f f'. induction 1 as [|f' _ IH]; [apply refines_refl|].
  eapply refines_trans; [exact IH|apply Hm].
Qed.

(** Two runs that return, on whatever fuel, return the same. *)
Lemma fuel_agree {A} (m : nat -> M A) f f' p r r' :
  (forall f, refines (m f) (m (S f))) ->
  m f p = Ok r -> m f' p = Ok r' -> r = r'.
Proof.
  intros Hm H H'. destruct (Nat.le_ge_cases f f') as [Hle|Hle].
  - pose proof (refines_le m Hm f f' Hle p) as Hr.
    rewrite H in Hr. specialize (Hr ltac:(done)). congruence.
  - pose proof (refines_le m Hm f' f Hle p) as Hr.
    rewrite H' in Hr. specialize (Hr ltac:(done)). congruence.
Qed.

(** What holds of a run with enough fuel holds of a run that returns. *)
Lemma holds_returned {A} (m : nat -> M A) f F p a p' (Q : A -> Parser -> Prop) :
  (forall f, refines (m f) (m (S f))) ->
  m f p = Ok (a, p') -> holds (m (f + F)) p Q -> Q a p'.
Proof.
  intros Hm H Hholds. unfold holds in Hholds.
  pose proof (refines_le m Hm f (f + F) ltac:(lia) p) as Hr.
  rewrite H in Hr. specialize (Hr ltac:(done)). by rewrite Hr in Hholds.
Qed.

End Monotone.

(** ** The first statement of a program *)

Lemma ParseProgram_loop_first f stmts p cmd p1 :
  lexer.Type_ (parser.curToken p) = lexer.IDENT ->
  parser.parseRedisCommand (S f) p = Ok (Some cmd, p1) ->
  parser.ParseProgram_loop (S (S f)) stmts p
  = (_ ← parser.nextToken; parser.ParseProgram_loop (S f) (stmts ++ [parser.Stmt cmd])) p1.
Proof.
  intros Hid Hcmd.
  change (parser.ParseProgram_loop (S (S f)) stmts p)
    with ((cur ← parser.get_cur;
           if decide (lexer.Type_ cur <> lexer.EOF) then
             stmt ← parser.parseStatement (S f);
             let stmts := match stmt with Some st => stmts ++ [st] | None => stmts end in
             _ ← parser.nextToken;
             parser.ParseProgram_loop (S f) stmts
           else mret stmts) p).
  rewrite bind_unfold. cbn [parser.get_cur].
  destruct (decide (lexer.Type_ (parser.curToken p) <> lexer.EOF)) as [_|E];
    [|exfalso; apply E; by rewrite Hid].
  rewrite bind_unfold. unfold parser.parseStatement. cbn [parser.skipNewlines].
  rewrite !bind_unfold. cbn [parser.get_cur].
  destruct (decide (lexer.Type_ (parser.curToken p) = lexer.NEWLINE)) as [E|_];
    [by rewrite Hid in E|].
  cbn [mret parser.M_ret]. rewrite !bind_unfold. cbn [parser.get_cur].
  destruct (decide (lexer.Type_ (parser.curToken p) = lexer.EOF)) as [E|_];
    [by rewrite Hid in E|].
  rewrite bind_unfold, Hcmd. reflexivity.
Qed.

(** The first statement of [ParseCommands] is the command of
    [ParseCommand], and the errors of [ParseCommand] come first. *)
Lemma ParseCommands_first input cmd errs :
  parser.ParseCommand input = Ok (Some cmd, errs) ->
  match parser.ParseCommands input with
  | Ok (program, errs') =>
      exists more es,
        parser.Statements program = parser.Stmt cmd :: more /\ errs' = errs ++ es
  | Panic => True
  | OutOfFuel => False
  end.
Proof.
  pose proof (ParseCommands_fuel input) as Hfuel.
  unfold parser.ParseCommand, parser.ParseCommands, parser.ParseProgram in *.
  pose proof (New_post input) as Hnew.
  destruct (parser.New (lexer.New input)) as [p| |]; [|done..].
  cbn [mbind Res_bind] in *. destruct Hnew as (Hwf & Hm & _ & Hm2).
  destruct (parser.parseRedisCommand (parser.parse_fuel input) p) as [[r p1]| |] eqn:Hcmd;
    [|done..].
  cbn [mbind Res_bind]. intros [= -> <-].
  assert (Hid : lexer.Type_ (parser.curToken p) = lexer.IDENT).
  { revert Hcmd. unfold parser.parseRedisCommand. rewrite (bind_unfold parser.get_cur).
    cbn [parser.get_cur].
    destruct (decide (lexer.Type_ (parser.curToken p) <> lexer.IDENT)) as [E|E];
      [done|by apply dec_stable in E]. }
  revert Hfuel. rewrite bind_unfold.
  replace (parser.parse_fuel input) with (S (S (2 * String.length input + 6))) in *
    by (unfold parser.parse_fuel; lia).
  set (k := 2 * String.length input + 6) in *.
  assert (Hless : parser.parseRedisCommand (S k) p = Ok (Some cmd, p1)).
  { pose proof (parseRedisCommand_post (S k) p Hwf ltac:(lia)) as Hpost.
    unfold holds in Hpost.
    rewrite <- Hcmd. symmetry. apply (refines_command_le (S k) (S (S k))); [lia|].
    by destruct (parser.parseRedisCommand (S k) p) as [[]| |]. }
  rewrite (ParseProgram_loop_first k [] p cmd p1 Hid Hless). rewrite bind_unfold.
  pose proof (parseRedisCommand_post (S k) p Hwf ltac:(lia)) as Hpost.
  unfold holds in Hpost. rewrite Hless in Hpost. destruct Hpost as [Hadv1 _].
  pose proof (nextToken_spec p1 (proj1 Hadv1)) as Hnext. unfold holds in Hnext.
  destruct (parser.nextToken p1) as [[[] p2]| |]; [|done..].
  destruct Hnext as (Hadv2 & Herr2 & Hcur2 & Hlt2 & _).
  assert (Hmeasure : measure2 p2 < measure2 p).
  { unfold measure2. rewrite Hcur2, Hid.
    destruct Hadv1 as (_ & Hm1 & _), Hadv2 as (_ & Hm2' & _).
    destruct (decide (lexer.IDENT = lexer.EOF)) as [|_]; [done|].
    destruct (decide (lexer.Type_ (parser.peekToken p1) = _)) as [E|E]; [lia|].
    specialize (Hlt2 E). lia. }
  pose proof (ParseProgram_loop_post (S k) p2 [] (proj1 Hadv2) ltac:(lia) ltac:(done))
    as Hloop.
  unfold holds in Hloop. rewrite ParseProgram_loop_acc.
  destruct (parser.ParseProgram_loop (S k) [] p2) as [[stmts p3]| |]; [|done..].
  intros _. cbn [mret parser.M_ret app parser.Statements]. unfold parser.Errors.
  destruct Hloop as ((_ & _ & es & Hes) & _).
  exists stmts, es. split; [reflexivity|]. by rewrite Hes, Herr2.
Qed.

(** * Proofs: the turns of the loop of ParseProgram *)

Lemma ParseProgram_loop_turn f acc p r pend :
  parser.ParseProgram_loop f acc p = Ok (r, pend) ->
  lexer.Type_ (parser.curToken p) <> lexer.EOF ->
  exists f' stmt p1 p2,
    f = S f' /\ parser.parseStatement f' p = Ok (stmt, p1)
    /\ parser.nextToken p1 = Ok (tt, p2)
    /\ parser.ParseProgram_loop f'
         (match stmt with Some st => acc ++ [st] | None => acc end) p2 = Ok (r, pend).
Proof.
  destruct f as [|f]; [done|]. cbn [parser.ParseProgram_loop].
  rewrite bind_unfold. cbn [parser.get_cur]. intros H Hne.
  destruct (decide (lexer.Type_ (parser.curToken p) <> lexer.EOF)) as [_|E]; [|done].
  rewrite bind_unfold in H.
  destruct (parser.parseStatement f p) as [[stmt p1]| |] eqn:Hst; [|done..].
  cbv zeta in H. rewrite bind_unfold in H.
  destruct (parser.nextToken p1) as [[[] p2]| |] eqn:Hnext; [|done..].
  by exists f, stmt, p1, p2.
Qed.

Lemma commandNodes_app a b : commandNodes (a ++ b) = commandNodes a ++ commandNodes b.
Proof. unfold commandNodes. apply flat_map_app. Qed.

Lemma commandNodes_snoc acc stmt :
  commandNodes (match stmt with Some st => acc ++ [st] | None => acc end)
  = commandNodes acc ++ commandOf stmt.
Proof.
  destruct stmt as [st|]; [|by rewrite app_nil_r].
  rewrite commandNodes_app. unfold commandNodes at 2. cbn [flat_map].
  by rewrite app_nil_r.
Qed.

(** The parser keeps its invariant from turn to turn. *)
Lemma loopHead_wf input cmds p : loopHead input cmds p -> wfParser p.
Proof.
  induction 1 as [p Hnew|cmds p fuel stmt p1 p2 _ IH Hne Hst Hnext].
  - pose proof (New_post input) as H. rewrite Hnew in H. apply H.
  - assert (Hadv : advances p p1).
    { apply (holds_returned parser.parseStatement fuel (measure2 p + 3) p stmt p1
               (fun _ p' => advances p p') refines_statement Hst).
      eapply holds_weaken; [apply parseStatement_post; [done|lia]|]. by intros ? ? []. }
    pose proof (nextToken_spec p1 (proj1 Hadv)) as Hn. unfold holds in Hn.
    rewrite Hnext in Hn. apply Hn.
Qed.

(** The run of [ParseCommands] comes by every head of the loop. *)
Lemma loopHead_run input cmds p prog errs :
  loopHead input cmds p -> parser.ParseCommands input = Ok (prog, errs) ->
  exists f acc pend,
    parser.ParseProgram_loop f acc p = Ok (parser.Statements prog, pend)
    /\ parser.errors pend = errs /\ commandNodes acc = cmds.
Proof.
  intros Hhead Hrun.
  induction Hhead as [p Hnew|cmds p fuel stmt p1 p2 _ IH Hne Hst Hnext].
  - unfold parser.ParseCommands, parser.ParseProgram in Hrun. rewrite Hnew in Hrun.
    cbn [mbind Res_bind] in Hrun. rewrite bind_unfold in Hrun.
    destruct (parser.ParseProgram_loop (parser.parse_fuel input) [] p)
      as [[stmts pend]| |] eqn:Hloop; [|done..].
    cbn [mret parser.M_ret] in Hrun. injection Hrun as <- <-.
    by exists (parser.parse_fuel input), [], pend.
  - destruct IH as (f & acc & pend & Hloop & Herr & Hacc).
    destruct (ParseProgram_loop_turn _ _ _ _ _ Hloop Hne)
      as (f' & stmt' & p1' & p2' & -> & Hst' & Hnext' & Hloop').
    pose proof (fuel_agree parser.parseStatement _ _ _ _ _ refines_statement Hst Hst')
      as [= <- <-].
    rewrite Hnext in Hnext'. injection Hnext' as <-.
    eexists f', _, pend. split; [exact Hloop'|]. split; [done|].
    by rewrite commandNodes_snoc, Hacc.
Qed.

(** A statement that does not begin with an identifier: one error, no
    command node, and the loop goes on at the next token. *)
Lemma refused_statement input cmds p prog errs :
  statementBegins input cmds p ->
  lexer.Type_ (parser.curToken p) <> lexer.IDENT ->
  lexer.Type_ (parser.curToken p) <> lexer.EOF ->
  parser.ParseCommands input = Ok (prog, errs) ->
  exists p' later es,
    loopHead input cmds p'
    /\ parser.curToken p' = parser.peekToken p
    /\ parser.errors p' = parser.errors p ++ [commandExpected (parser.curToken p)]
    /\ commandNodes (parser.Statements prog) = cmds ++ later
    /\ errs = parser.errors p' ++ es
    /\ (lexer.Type_ (parser.peekToken p) = lexer.IDENT ->
        exists cmd more, later = cmd :: more
          /\ parser.Token (parser.Command cmd) = parser.peekToken p).
Proof.
  intros (p0 & fuel & Hhead & Hne0 & Hskip) Hid Heof Hrun.
  destruct (loopHead_run _ _ _ _ _ Hhead Hrun) as (f & acc & pend & Hloop & Herr & Hacc).
  destruct (ParseProgram_loop_turn _ _ _ _ _ Hloop Hne0)
    as (f' & stmt & p1 & p2 & -> & Hst & Hnext & Hloop').
  pose proof Hst as Hst0.
  unfold parser.parseStatement in Hst. rewrite bind_unfold in Hst.
  destruct (parser.skipNewlines f' p0) as [[[] p'']| |] eqn:Hskip'; [|done..].
  pose proof (fuel_agree parser.skipNewlines _ _ _ _ _ refines_skipNewlines Hskip Hskip')
    as [= <-].
  rewrite bind_unfold in Hst. cbn [parser.get_cur] in Hst.
  destruct (decide (lexer.Type_ (parser.curToken p) = lexer.EOF)) as [E|_]; [done|].
  rewrite bind_unfold in Hst. unfold parser.parseRedisCommand in Hst.
  rewrite bind_unfold in Hst. cbn [parser.get_cur] in Hst.
  destruct (decide (lexer.Type_ (parser.curToken p) <> lexer.IDENT)) as [_|E]; [|done].
  rewrite !bind_unfold in Hst. cbn [parser.addError mret parser.M_ret] in Hst.
  injection Hst as <- <-.
  assert (Hhead2 : loopHead input cmds p2).
  { rewrite <- (app_nil_r cmds).
    exact (loopHead_next input cmds p0 f' (Some parser.NilRedisCommand) _ p2
             Hhead Hne0 Hst0 Hnext). }
  pose proof (loopHead_wf _ _ _ Hhead2) as Hwf2.
  unfold parser.nextToken in Hnext. cbn [parser.lexer_ parser.peekToken parser.errors] in Hnext.
  destruct (lexer.NextToken (parser.lexer_ p)) as [[tok l]| |]; [|done..].
  cbn [mbind Res_bind] in Hnext. injection Hnext as Hp2.
  rewrite ParseProgram_loop_acc in Hloop'.
  destruct (parser.ParseProgram_loop f' [] p2) as [[more pend']| |] eqn:Hmore; [|done..].
  injection Hloop' as Hstmts <-.
  assert (Hadv : advances p2 pend').
  { apply (holds_returned (fun f => parser.ParseProgram_loop f []) f' (measure2 p2 + 4)
             p2 more pend' (fun _ p' => advances p2 p')
             (fun f => refines_program_loop f []) Hmore).
    eapply holds_weaken; [apply ParseProgram_loop_post; [done|lia|done]|].
    by intros ? ? []. }
  destruct Hadv as (_ & _ & es & Hes).
  exists p2, (commandNodes more), es. split_and!.
  - exact Hhead2.
  - by rewrite <- Hp2.
  - rewrite <- Hp2. reflexivity.
  - rewrite <- Hstmts, !commandNodes_app, Hacc.
    change (commandNodes [parser.NilRedisCommand]) with (@nil parser.RedisCommand).
    by rewrite app_nil_r.
  - by rewrite <- Herr.
  - intros Hpeek.
    assert (Hcur2 : parser.curToken p2 = parser.peekToken p) by (by rewrite <- Hp2).
    pose proof (refines_le (fun f => parser.ParseProgram_loop f [])
                  (fun f => refines_program_loop f []) f' (S (S f')) ltac:(lia) p2) as Hr.
    cbv beta in Hr. rewrite Hmore in Hr. specialize (Hr ltac:(done)).
    destruct (ParseProgram_loop_command f' [] p2 more pend') as (cmd & rest & -> & Htok).
    + by rewrite Hcur2.
    + exact Hr.
    + exists cmd, (commandNodes rest). split; [|by rewrite Htok].
      cbn [app]. unfold commandNodes. reflexivity.
Qed.

(** * Keyword nodes *)




(** * Statements that do not begin with an identifier *)

(** C8 as stated fails: in [123 GET foo] the statement begins with a
    number, and the command [GET foo] begins on the same line. *)
Lemma statement_recovery_counterexample : ~ recoversAtBoundaryAsStated "123 GET foo".
Proof.
  intros H.
  refine (H _ _ _ _ _ _ _
    {| parser.Command :=
         {| parser.Token :=
              {| lexer.Type_ := lexer.IDENT; lexer.Literal := "GET";
                 lexer.Position := 4; lexer.Line := 1; lexer.Column := 5 |};
            parser.Value := "GET" |};
       parser.Arguments :=
         [parser.Ident
            {| parser.Token :=
                 {| lexer.Type_ := lexer.IDENT; lexer.Literal := "foo";
                    lexer.Position := 8; lexer.Line := 1; lexer.Column := 9 |};
               parser.Value := "foo" |}] |} _ _).
  - vm_compute. reflexivity.
  - by split_and!.
  - vm_compute. reflexivity.
  - vm_compute. repeat first [apply list_elem_of_here | apply list_elem_of_further].
  - vm_compute. reflexivity.
Qed.

(** C8, amended: when a statement of the input, the first or a later one,
    does not begin with an identifier, the parser records the error
    [expected command identifier] for the token the statement begins
    with, makes no command node for the statement, and takes up its loop
    again at the very next token, having skipped that one token only: if
    the next token is an identifier, the next command node of the program
    begins with it, whether or not a newline came in between. *)
Theorem statement_error_skips_one_token input cmds p prog errs :
  statementBegins input cmds p ->
  notCommandStart (parser.curToken p) ->
  parser.ParseCommands input = Ok (prog, errs) ->
  exists p' later es,
    loopHead input cmds p'
    /\ parser.curToken p' = parser.peekToken p
    /\ parser.errors p' = parser.errors p ++ [commandExpected (parser.curToken p)]
    /\ commandNodes (parser.Statements prog) = cmds ++ later
    /\ errs = parser.errors p' ++ es
    /\ (lexer.Type_ (parser.peekToken p) = lexer.IDENT ->
        exists cmd more, later = cmd :: more
          /\ parser.Token (parser.Command cmd) = parser.peekToken p).
Proof.
  intros Hbegins (Hid & _ & Heof) Hrun.
  exact (refused_statement input cmds p prog errs Hbegins Hid Heof Hrun).
Qed.

Lemma statement_error_skips_one_token_witness :
  exists cmds p prog errs,
    statementBegins ("GET a" +:+ String LF "123 GET foo") cmds p
    /\ length cmds = 1
    /\ lexer.Literal (parser.curToken p) = "123"
    /\ notCommandStart (parser.curToken p)
    /\ parser.ParseCommands ("GET a" +:+ String LF "123 GET foo") = Ok (prog, errs)
    /\ exists p' later es,
         loopHead ("GET a" +:+ String LF "123 GET foo") cmds p'
         /\ parser.curToken p' = parser.peekToken p
         /\ parser.errors p' = parser.errors p ++ [commandExpected (parser.curToken p)]
         /\ commandNodes (parser.Statements prog) = cmds ++ later
         /\ errs = parser.errors p' ++ es
         /\ (lexer.Type_ (parser.peekToken p) = lexer.IDENT ->
             exists cmd more, later = cmd :: more
               /\ parser.Token (parser.Command cmd) = parser.peekToken p).
Proof.
  set (input := "GET a" +:+ String LF "123 GET foo").
  let r := eval vm_compute in (parser.New (lexer.New input)) in
  match r with Ok ?q => pose (pn := q) end.
  let r := eval vm_compute in (parser.parseStatement 4 pn) in
  match r with Ok (?st, ?q) => pose (stmt := st); pose (p1 := q) end.
  let r := eval vm_compute in (parser.nextToken p1) in
  match r with Ok (_, ?q) => pose (p0 := q) end.
  let r := eval vm_compute in (parser.skipNewlines 2 p0) in
  match r with Ok (_, ?q) => pose (p := q) end.
  let r := eval vm_compute in (parser.ParseCommands input) in
  match r with Ok (?pr, ?es) => pose (prog := pr); pose (errs := es) end.
  assert (Hhead : loopHead input ([] ++ commandOf stmt) p0).
  { apply (loopHead_next input [] pn 4 stmt p1 p0).
    - apply loopHead_first. vm_compute. reflexivity.
    - vm_compute. discriminate.
    - vm_compute. reflexivity.
    - vm_compute. reflexivity. }
  assert (Hbegins : statementBegins input ([] ++ commandOf stmt) p).
  { exists p0, 2. split; [exact Hhead|]. split; [vm_compute; discriminate|].
    vm_compute. reflexivity. }
  assert (Hnot : notCommandStart (parser.curToken p)).
  { vm_compute. split_and!; discriminate. }
  assert (Hrun : parser.ParseCommands input = Ok (prog, errs)).
  { vm_compute. reflexivity. }
  exists ([] ++ commandOf stmt), p, prog, errs.
  split; [exact Hbegins|]. split; [reflexivity|]. split; [reflexivity|].
  split; [exact Hnot|]. split; [exact Hrun|].
  exact (statement_error_skips_one_token input _ p prog errs Hbegins Hnot Hrun).
Defined.

(** * Proofs: numbers and their texts *)

Lemma digit_char_spec d :
  (0 <= d < 10)%Z ->
  isDigit (digit_char d) = true
  /\ Z.of_nat (nat_of_ascii (digit_char d) - 48) = d
  /\ (digit_char d = "0"%char -> d = 0%Z).
Proof.
  intros Hd.
  assert (H : (d = 0 \/ d = 1 \/ d = 2 \/ d = 3 \/ d = 4 \/ d = 5 \/ d = 6
              \/ d = 7 \/ d = 8 \/ d = 9)%Z) by lia.
  repeat destruct H as [->|H]; try subst d; by split_and!.
Qed.

Lemma utoa_loop_digits fuel : forall n acc,
  exists ds, utoa_loop fuel n acc = ds +:+ acc /\ sforall isDigit ds = true
    /\ (1 <= fuel -> ds <> EmptyString).
Proof.
  induction fuel as [|f IH]; intros n acc.
  - exists EmptyString. split_and!; [done|done|lia].
  - cbn [utoa_loop].
    destruct (digit_char_spec (n mod 10)) as (Hd & _); [apply Z.mod_pos_bound; lia|].
    destruct (n <? 10)%Z.
    + exists (String (digit_char (n mod 10)) EmptyString).
      split_and!; [done| |done]. cbn [sforall]; by rewrite Hd.
    + destruct (IH (n / 10)%Z (String (digit_char (n mod 10)) acc)) as (ds & -> & Hds & _).
      exists (ds +:+ String (digit_char (n mod 10)) EmptyString).
      split_and!.
      * by rewrite append_assoc.
      * clear -Hds Hd. induction ds as [|c ds IH]; [rewrite append_nil_l; cbn [sforall]; by rewrite Hd|].
        rewrite append_cons. cbn [sforall] in *.
        apply andb_true_iff in Hds as [-> Hds]. by apply IH.
      * intros _. by destruct ds.
Qed.

Lemma utoa_digits n :
  sforall isDigit (utoa n) = true /\ utoa n <> EmptyString.
Proof.
  unfold utoa. destruct (utoa_loop_digits (S (Z.to_nat (Z.log2 n))) n EmptyString)
    as (ds & -> & Hds & Hne).
  rewrite append_nil_r. split; [done|]. apply Hne. lia.
Qed.

Lemma parse_digits_step d acc a :
  (0 <= d < 10)%Z ->
  parse_digits 10 (String (digit_char d) acc) a = parse_digits 10 acc (a * 10 + d)%Z.
Proof.
  intros Hd. destruct (digit_char_spec d Hd) as (Hdig & Hval & _).
  cbn [parse_digits]. rewrite Hdig, Hval.
  by rewrite (proj2 (Z.ltb_lt _ _)) by lia.
Qed.

Lemma utoa_loop_value fuel : forall n acc,
  (0 <= n < 2 ^ Z.of_nat fuel)%Z -> 1 <= fuel ->
  (exists k : nat, forall a,
     parse_digits 10 (utoa_loop fuel n acc) a
     = parse_digits 10 acc (a * 10 ^ Z.of_nat k + n)%Z)
  /\ ((0 < n)%Z -> shead (utoa_loop fuel n acc) <> "0"%char).
Proof.
  induction fuel as [|f IH]; intros n acc Hn Hf; [lia|].
  cbn [utoa_loop].
  assert (Hmod : (0 <= n mod 10 < 10)%Z) by (apply Z.mod_pos_bound; lia).
  destruct (n <? 10)%Z eqn:Hlt.
  - apply Z.ltb_lt in Hlt. rewrite Z.mod_small by lia. split.
    + exists 1. intros a. rewrite parse_digits_step by lia. f_equal; lia.
    + intros Hpos Hz. cbn [shead] in Hz.
      apply (digit_char_spec n) in Hz; lia.
  - apply Z.ltb_ge in Hlt.
    assert (Hdiv : (0 < n / 10)%Z) by (apply Z.div_str_pos; lia).
    assert (Hbound : (n / 10 < 2 ^ Z.of_nat f)%Z).
    { apply Z.div_lt_upper_bound; [lia|].
      rewrite Nat2Z.inj_succ, Z.pow_succ_r in Hn by lia. lia. }
    assert (Hf' : 1 <= f).
    { destruct f; [|lia]. cbn in Hbound. lia. }
    destruct (IH (n / 10)%Z (String (digit_char (n mod 10)) acc)) as ((k & Hk) & Hhead);
      [lia|done|].
    split; [|intros _; apply Hhead; lia].
    exists (S k). intros a. rewrite Hk, parse_digits_step by done. f_equal.
    rewrite Nat2Z.inj_succ, Z.pow_succ_r by lia. pose proof (Z.div_mod n 10). lia.
Qed.

Lemma isDigit_not_sign c : isDigit c = true -> Ascii.eqb c "+" || Ascii.eqb c "-" = false.
Proof.
  intros Hc. destruct (Ascii.eqb_spec c "+") as [->|_]; [done|].
  by destruct (Ascii.eqb_spec c "-") as [->|_].
Qed.

Lemma ParseInt_utoa n :
  (0 <= n)%Z ->
  match utoa n with
  | EmptyString => False
  | String d body' =>
      isDigit d = true
      /\ (if Ascii.eqb d "0" then parse_digits 8 body' 0 else parse_digits 10 (utoa n) 0)
         = Some n
  end.
Proof.
  intros Hn. destruct (utoa_digits n) as [Hdig Hne].
  assert (Hfuel : (0 <= n < 2 ^ Z.of_nat (S (Z.to_nat (Z.log2 n))))%Z).
  { split; [done|]. rewrite Nat2Z.inj_succ, Z2Nat.id by apply Z.log2_nonneg.
    destruct (decide (n = 0%Z)) as [->|Hpos]; [done|]. apply Z.log2_spec. lia. }
  destruct (utoa_loop_value _ n EmptyString Hfuel) as ((k & Hk) & Hhead); [lia|].
  fold (utoa n) in Hk, Hhead.
  destruct (utoa n) as [|d body'] eqn:Hu; [done|].
  cbn [sforall] in Hdig. apply andb_true_iff in Hdig as [Hd _]. split; [done|].
  destruct (Ascii.eqb_spec d "0") as [->|Hd0].
  - destruct (decide (n = 0%Z)) as [->|Hpos]; [|exfalso; apply Hhead; [lia|done]].
    vm_compute in Hu. by injection Hu as <-.
  - rewrite Hk. cbn [parse_digits]. f_equal; lia.
Qed.

(** What [%d] writes, [ParseInt] reads back. *)
Lemma ParseInt_itoa v : int64 v -> ParseInt (itoa v) = Some v.
Proof.
  intros [Hlo Hhi]. unfold itoa. destruct (v <? 0)%Z eqn:Hneg.
  - apply Z.ltb_lt in Hneg.
    pose proof (ParseInt_utoa (- v)%Z) as Hu.
    unfold ParseInt. cbv zeta.
    change (Ascii.eqb "-" "-") with true. rewrite orb_true_r.
    destruct (utoa (- v)) as [|d body'] eqn:Hbody; [exfalso; apply Hu; lia|].
    destruct Hu as [_ ->]; [lia|].
    rewrite (proj2 (Z.leb_le _ _)) by lia. f_equal. lia.
  - apply Z.ltb_ge in Hneg.
    pose proof (ParseInt_utoa v Hneg) as Hu. unfold ParseInt.
    destruct (utoa v) as [|d body'] eqn:Hbody; [done|]. cbv zeta.
    destruct Hu as [Hd Hu]. pose proof (isDigit_not_sign d Hd) as Hs.
    apply orb_false_iff in Hs as [Hplus Hminus]. rewrite Hplus, Hminus. cbn [orb].
    rewrite Hu.
    by rewrite (proj2 (Z.ltb_lt _ _)) by lia.
Qed.

(** * Proofs: the tokens of a rendered command *)

(** ** What follows an argument *)

Lemma delimited_head x :
  delimited x = true ->
  isIdentByte (shead x) = false /\ isDigit (shead x) = false
  /\ Ascii.eqb (shead x) "." = false.
Proof.
  destruct x as [|c x]; [done|]. cbn [delimited shead]. intros H.
  apply orb_true_iff in H as [H|H]; [apply orb_true_iff in H as [H|H]|];
    apply Ascii.eqb_eq in H; by subst c.
Qed.

(** ** The first token of a text *)

Lemma lexOne_nil : lexOne EmptyString = Ok (lexer.EOF, EmptyString, EmptyString).
Proof. reflexivity. Qed.

Lemma lexOne_space s : lexOne (String " " s) = lexOne s.
Proof.
  unfold lexOne. cbn [sspan]. change (isSpace " ") with true. cbv iota.
  by destruct (sspan isSpace s).
Qed.

Ltac not_byte Hc c b :=
  destruct (Ascii.eqb_spec c b) as [->|_]; [by vm_compute in Hc|].

Lemma lexOne_letter c s :
  isLetter c = true ->
  lexOne (String c s)
  = let '(w, r) := sspan isIdentByte (String c s) in
    Ok (lexer.LookupIdent (ToUpper w), w, r).
Proof.
  intros Hc. unfold lexOne.
  assert (Hsp : isSpace c = false).
  { unfold isSpace. not_byte Hc c " "%char. not_byte Hc c TAB. by not_byte Hc c CR. }
  cbn [sspan]. rewrite Hsp. cbn [snd]. cbv zeta.
  not_byte Hc c "*"%char. not_byte Hc c "?"%char. not_byte Hc c "["%char. not_byte Hc c "]"%char.
  not_byte Hc c "("%char. not_byte Hc c ")"%char. not_byte Hc c ","%char. not_byte Hc c ":"%char.
  not_byte Hc c "|"%char. not_byte Hc c "+"%char. not_byte Hc c "-"%char. not_byte Hc c DQUOTE.
  not_byte Hc c SQUOTE. not_byte Hc c LF. not_byte Hc c NUL.
  by rewrite Hc.
Qed.

Lemma isDigit_cases c :
  isDigit c = true ->
  c = "0"%char \/ c = "1"%char \/ c = "2"%char \/ c = "3"%char \/ c = "4"%char
  \/ c = "5"%char \/ c = "6"%char \/ c = "7"%char \/ c = "8"%char \/ c = "9"%char.
Proof.
  destruct c as [[] [] [] [] [] [] [] []]; intros H; try discriminate H; tauto.
Qed.

Lemma lexOne_digit c s :
  isDigit c = true -> lexOne (String c s) = lexNumberToken (String c s).
Proof.
  intros Hc. apply isDigit_cases in Hc.
  repeat destruct Hc as [->|Hc]; try subst c; reflexivity.
Qed.

Lemma lexOne_minus s :
  isDigit (shead s) = true ->
  lexOne (String "-" s) = lexNumberToken (String "-" s).
Proof.
  intros Hd. unfold lexOne. cbn [sspan]. change (isSpace "-") with false.
  cbn [snd]. cbv zeta. vm_compute Ascii.eqb. by rewrite Hd.
Qed.

Lemma lexOne_dquote s : lexOne (String DQUOTE s) = lexQuoted DQUOTE s.
Proof. reflexivity. Qed.

(** ** Words *)

Lemma isLetter_isIdentByte c : isLetter c = true -> isIdentByte c = true.
Proof. intros H. unfold isIdentByte. by rewrite H. Qed.

Lemma lexOne_word_app w x :
  identWord w = true -> delimited x = true ->
  lexOne (w +:+ x) = Ok (lexer.LookupIdent (ToUpper w), w, x).
Proof.
  intros Hw Hx. destruct w as [|c w]; [done|]. cbn [identWord] in Hw.
  apply andb_true_iff in Hw as [Hc Hw].
  rewrite append_cons, lexOne_letter by done. rewrite <- append_cons.
  rewrite sspan_app; [done| |by apply delimited_head].
  cbn [sforall]. by rewrite isLetter_isIdentByte, Hw.
Qed.

(** ** Numbers *)

Lemma Contains_app a b c : Contains (a +:+ b) c = Contains a c || Contains b c.
Proof.
  induction a as [|d a IH]; [done|]. rewrite append_cons. cbn [Contains].
  by rewrite IH, orb_assoc.
Qed.

Lemma Contains_digits d : sforall isDigit d = true -> Contains d "." = false.
Proof.
  induction d as [|c d IH]; [done|]. cbn [sforall Contains]. intros H.
  apply andb_true_iff in H as [Hc Hd]. rewrite IH by done.
  destruct (Ascii.eqb_spec c ".") as [->|_]; [done|done].
Qed.

Lemma digits_head d :
  d <> EmptyString -> sforall isDigit d = true -> isDigit (shead d) = true.
Proof.
  destruct d as [|c d]; [done|]. cbn [sforall shead]. intros _ H.
  by apply andb_true_iff in H as [-> _].
Qed.

Lemma shead_app (a b : string) : a <> EmptyString -> shead (a +:+ b) = shead a.
Proof. by destruct a. Qed.

Lemma lexNumber_digits d x :
  d <> EmptyString -> sforall isDigit d = true -> delimited x = true ->
  lexNumber (d +:+ x) = (d, x).
Proof.
  intros Hne Hd Hx. destruct (delimited_head x Hx) as (_ & Hxd & Hxdot).
  unfold lexNumber. destruct d as [|c d]; [done|]. rewrite append_cons.
  assert (Hc : isDigit c = true) by (by apply (digits_head (String c d))).
  apply isDigit_not_sign, orb_false_iff in Hc as [_ ->].
  rewrite <- append_cons, sspan_app by done.
  destruct x as [|c0 x]; [done|]. cbn [shead] in Hxdot. by rewrite Hxdot.
Qed.

Lemma lexNumber_fraction d1 d2 x :
  d1 <> EmptyString -> sforall isDigit d1 = true ->
  d2 <> EmptyString -> sforall isDigit d2 = true -> delimited x = true ->
  lexNumber (d1 +:+ String "." (d2 +:+ x)) = (d1 +:+ String "." d2, x).
Proof.
  intros Hne1 Hd1 Hne2 Hd2 Hx. destruct (delimited_head x Hx) as (_ & Hxd & _).
  unfold lexNumber. destruct d1 as [|c d1]; [done|]. rewrite append_cons.
  assert (Hc : isDigit c = true) by (by apply (digits_head (String c d1))).
  apply isDigit_not_sign, orb_false_iff in Hc as [_ ->].
  rewrite <- append_cons, sspan_app by done.
  change (Ascii.eqb "." ".") with true.
  rewrite shead_app, digits_head by done. cbn [andb].
  by rewrite sspan_app.
Qed.

Lemma lexNumber_minus s lit r :
  isDigit (shead s) = true -> lexNumber s = (lit, r) ->
  lexNumber (String "-" s) = (String "-" lit, r).
Proof.
  intros Hd. unfold lexNumber. change (Ascii.eqb "-" "-") with true.
  destruct s as [|c s]; [done|]. cbn [shead] in Hd.
  apply isDigit_not_sign, orb_false_iff in Hd as [_ ->].
  destruct (sspan isDigit (String c s)) as [d1 s2].
  destruct s2 as [|c0 s3]; [by intros [= <- <-]|].
  destruct (Ascii.eqb c0 "." && isDigit (shead s3)).
  - destruct (sspan isDigit s3) as [d2 s4]. by intros [= <- <-].
  - by intros [= <- <-].
Qed.

Lemma lexOne_numeral (neg : bool) d x :
  d <> EmptyString -> sforall isDigit d = true -> delimited x = true ->
  lexOne ((if neg then String "-" d else d) +:+ x)
  = Ok (lexer.INT, if neg then String "-" d else d, x).
Proof.
  intros Hne Hd Hx. pose proof (lexNumber_digits d x Hne Hd Hx) as Hnum.
  destruct neg.
  - rewrite append_cons, lexOne_minus by (by rewrite shead_app, digits_head).
    unfold lexNumberToken.
    rewrite (lexNumber_minus _ _ _ ltac:(by rewrite shead_app, digits_head) Hnum).
    cbn [Contains]. change (Ascii.eqb "-" ".") with false. cbn [orb].
    by rewrite Contains_digits.
  - destruct d as [|c d]; [done|]. rewrite append_cons.
    rewrite lexOne_digit by (by apply (digits_head (String c d))).
    unfold lexNumberToken. rewrite <- append_cons, Hnum.
    by rewrite Contains_digits.
Qed.

Lemma lexOne_decimal (neg : bool) d1 d2 x :
  d1 <> EmptyString -> sforall isDigit d1 = true ->
  d2 <> EmptyString -> sforall isDigit d2 = true -> delimited x = true ->
  lexOne ((if neg then "-" else EmptyString) +:+ d1 +:+ "." +:+ d2 +:+ x)
  = Ok (lexer.FLOAT, (if neg then "-" else EmptyString) +:+ d1 +:+ "." +:+ d2, x).
Proof.
  intros Hne1 Hd1 Hne2 Hd2 Hx.
  pose proof (lexNumber_fraction d1 d2 x Hne1 Hd1 Hne2 Hd2 Hx) as Hnum.
  assert (Hdot : Contains (d1 +:+ String "." d2) "." = true).
  { rewrite Contains_app. cbn [Contains]. change (Ascii.eqb "." ".") with true.
    cbn [orb]. apply orb_true_r. }
  change ("." +:+ d2 +:+ x) with (String "." (d2 +:+ x)).
  change ("." +:+ d2) with (String "." d2).
  destruct neg.
  - change ("-" +:+ d1 +:+ String "." (d2 +:+ x))
      with (String "-" (d1 +:+ String "." (d2 +:+ x))).
    rewrite lexOne_minus by (by rewrite shead_app, digits_head).
    unfold lexNumberToken.
    rewrite (lexNumber_minus (d1 +:+ String "." (d2 +:+ x)) _ _
               ltac:(by rewrite shead_app, digits_head) Hnum).
    change ("-" +:+ d1 +:+ String "." d2) with (String "-" (d1 +:+ String "." d2)).
    cbn [Contains]. change (Ascii.eqb "-" ".") with false. cbn [orb].
    by rewrite Hdot.
  - rewrite !append_nil_l. destruct d1 as [|c d1]; [done|]. rewrite append_cons.
    rewrite lexOne_digit by (by apply (digits_head (String c d1))).
    unfold lexNumberToken. rewrite <- append_cons, Hnum.
    by rewrite Hdot.
Qed.

Lemma lexOne_itoa v x :
  delimited x = true -> lexOne (itoa v +:+ x) = Ok (lexer.INT, itoa v, x).
Proof.
  intros Hx. unfold itoa. destruct (v <? 0)%Z.
  - destruct (utoa_digits (- v)) as [Hd Hne].
    apply (lexOne_numeral true); done.
  - destruct (utoa_digits v) as [Hd Hne].
    apply (lexOne_numeral false); done.
Qed.

Lemma substring_digits n : forall s,
  sforall isDigit s = true -> sforall isDigit (String.substring 0 n s) = true.
Proof.
  induction n as [|n IH]; intros [|c s]; try done.
  cbn [sforall String.substring]. intros H. apply andb_true_iff in H as [-> H].
  by apply IH.
Qed.

Lemma sforall_app cond (a b : string) :
  sforall cond (a +:+ b) = sforall cond a && sforall cond b.
Proof.
  induction a as [|c a IH]; [done|]. rewrite append_cons. cbn [sforall].
  by rewrite IH, andb_assoc.
Qed.

Lemma pad6_digits n : sforall isDigit (pad6 n) = true /\ pad6 n <> EmptyString.
Proof.
  unfold pad6. destruct (utoa_digits n) as [Hd Hne]. split.
  - rewrite sforall_app, Hd, andb_true_r. by apply substring_digits.
  - destruct (String.substring _ _ _); [|done]. by rewrite append_nil_l.
Qed.

(** The texts [%f] writes for the values that are numbers. *)
Lemma FormatFloat_shape v :
  v <> S754_nan -> (forall s, v <> S754_infinity s) ->
  exists (neg : bool) d1 d2,
    FormatFloat v = (if neg then "-" else EmptyString) +:+ d1 +:+ "." +:+ d2
    /\ d1 <> EmptyString /\ sforall isDigit d1 = true
    /\ d2 <> EmptyString /\ sforall isDigit d2 = true.
Proof.
  intros Hnan Hinf. destruct v as [s|s| |s m e]; [|by destruct (Hinf s)|done|].
  - exists s, "0", "000000". by split_and!.
  - cbn [FormatFloat]. cbv zeta.
    set (N := if (0 <=? e)%Z then _ else _).
    destruct (utoa_digits (N / 10 ^ 6)) as [Hd1 Hne1].
    destruct (pad6_digits (N mod 10 ^ 6)) as [Hd2 Hne2].
    exists s, (utoa (N / 10 ^ 6)), (pad6 (N mod 10 ^ 6)). by split_and!.
Qed.

Lemma lexOne_FormatFloat v x :
  v <> S754_nan -> (forall s, v <> S754_infinity s) -> delimited x = true ->
  lexOne (FormatFloat v +:+ x) = Ok (lexer.FLOAT, FormatFloat v, x).
Proof.
  intros Hnan Hinf Hx.
  destruct (FormatFloat_shape v Hnan Hinf) as (neg & d1 & d2 & -> & H1 & H2 & H3 & H4).
  rewrite !append_assoc. by apply lexOne_decimal.
Qed.

(** ** String literals *)

Lemma consBody_Some c w body r :
  consBody c w = Some (body, r) ->
  exists body', w = Some (body', r) /\ body = String c body'.
Proof. destruct w as [[b r']|]; [|done]. intros [= <- <-]. by eexists. Qed.

Lemma quotedWalk_stable n : forall v x,
  String.length v <= n ->
  quotedWalk DQUOTE (v +:+ String DQUOTE EmptyString) = Some (v, EmptyString) ->
  quotedWalk DQUOTE (v +:+ String DQUOTE x) = Some (v, x).
Proof.
  induction n as [|n IH]; intros v x Hn.
  { destruct v; [done|cbn [String.length] in Hn; lia]. }
  destruct v as [|c v1]; [done|]. cbn [String.length] in Hn.
  rewrite !append_cons. cbn [quotedWalk].
  destruct (Ascii.eqb c DQUOTE); [done|].
  destruct (Ascii.eqb c NUL); [done|].
  destruct (Ascii.eqb c BACKSLASH).
  - destruct v1 as [|c1 v2]; [done|]. cbn [String.length] in Hn.
    rewrite !append_cons.
    destruct (Ascii.eqb c1 NUL).
    + intros (b1 & (b2 & Hw & ->)%consBody_Some & [= <-])%consBody_Some.
      by rewrite (IH v2 x) by (done || lia).
    + destruct v2 as [|c2 v3].
      * rewrite !append_nil_l.
        intros (b1 & (b2 & (b3 & Hw & ->)%consBody_Some & ->)%consBody_Some & [=])%consBody_Some.
      * cbn [String.length] in Hn. rewrite !append_cons.
        intros (b1 & (b2 & (b3 & Hw & ->)%consBody_Some & ->)%consBody_Some & [= <-])%consBody_Some.
        by rewrite (IH v3 x) by (done || lia).
  - intros (b1 & Hw & [= <-])%consBody_Some.
    by rewrite (IH v1 x) by (done || lia).
Qed.

Lemma lexOne_quoted v x :
  stringStable v ->
  lexOne (String DQUOTE v +:+ String DQUOTE EmptyString +:+ x) = Ok (lexer.STRING, v, x).
Proof.
  intros Hv. rewrite append_cons, lexOne_dquote. unfold lexQuoted.
  change (String DQUOTE EmptyString +:+ x) with (String DQUOTE x).
  by rewrite (quotedWalk_stable (String.length v)).
Qed.

(** ** The tokens of a pattern *)

Lemma sspan_app_more cond s w r x :
  sspan cond s = (w, r) ->
  (r = EmptyString -> cond (shead x) = false) ->
  sspan cond (s +:+ x) = (w, r +:+ x).
Proof.
  intros Hs Hx. apply sspan_spec in Hs as (-> & Hw & Hr).
  rewrite append_assoc. apply sspan_app; [done|].
  destruct r as [|c r]; [rewrite append_nil_l; by apply Hx|].
  destruct Hr as [Hr|Hr]; [done|]. by rewrite append_cons.
Qed.

(** A token that continues a pattern is a wildcard, a colon or a word; it
    is the beginning of the text it is read from, and it stays the first
    token when the text goes on after a delimiter. *)
Lemma lexOne_part s t lit r x :
  lexOne s = Ok (t, lit, r) -> isSpace (shead s) = false ->
  parser.isPatternPart t = true ->
  s = lit +:+ r
  /\ (delimited x = true -> lexOne (s +:+ x) = Ok (t, lit, r +:+ x)).
Proof.
  intros Hlex Hsp Ht. destruct s as [|c s]; [by injection Hlex as <- <- <-|].
  cbn [shead] in Hsp. rewrite append_cons.
  destruct (isLetter c) eqn:Hl.
  { rewrite lexOne_letter in Hlex |- * by done.
    destruct (sspan isIdentByte (String c s)) as [w r'] eqn:Hw.
    injection Hlex as <- <- <-. split; [by apply sspan_spec in Hw as (-> & _)|].
    intros Hx. rewrite <- append_cons.
    rewrite (sspan_app_more _ _ _ _ x Hw); [done|].
    intros _. by apply delimited_head. }
  destruct (isDigit c) eqn:Hd.
  { rewrite lexOne_digit in Hlex by done. unfold lexNumberToken in Hlex.
    destruct (lexNumber (String c s)) as [lit' r']. injection Hlex as <- <- <-.
    by destruct (Contains lit' "."). }
  revert Hlex. unfold lexOne. cbn [sspan]. rewrite Hsp. cbn [snd]. cbv zeta.
  rewrite Hl, Hd.
  repeat match goal with
  | |- context [Ascii.eqb c ?b] =>
      destruct (Ascii.eqb_spec c b) as [->|_];
      [first [ by intros [= <- <- <-]
             | intros [= <- <- <-]; by rewrite ?Hsp
             | idtac ]|]
  end.
  all: try (intros [= <- <- <-]; done).
  - unfold lexNumberToken. destruct (isDigit (shead s)).
    + destruct (lexNumber _) as [lit' r']. intros [= <- <- <-].
      by destruct (Contains lit' ".").
    + by intros [= <- <- <-].
  - unfold lexQuoted. destruct (quotedWalk _ _) as [[b r']|]; [|done].
    by intros [= <- <- <-].
  - unfold lexQuoted. destruct (quotedWalk _ _) as [[b r']|]; [|done].
    by intros [= <- <- <-].
Qed.

(** * Proofs: parsing a rendered command *)

(** ** A parser in front of a text *)

Lemma nextToken_lex p t lit r :
  wfParser p -> lexOne (rest (parser.lexer_ p)) = Ok (t, lit, r) ->
  exists p', parser.nextToken p = Ok (tt, p')
    /\ parser.curToken p' = parser.peekToken p
    /\ parser.errors p' = parser.errors p
    /\ ahead p' (rest (parser.lexer_ p)).
Proof.
  intros Hwf Hlex. pose proof (nextToken_spec p Hwf) as Hspec.
  pose proof (NextToken_lexOne _ (proj1 Hwf)) as Has.
  unfold lexesAs in Has. rewrite Hlex in Has.
  destruct Has as (tok & l' & Hnext & _).
  unfold holds in Hspec. unfold parser.nextToken in *. rewrite Hnext in *.
  cbn [mbind Res_bind] in *.
  destruct Hspec as (Hadv & Herr & Hcur & _ & Hpeek).
  eexists. split; [reflexivity|]. split_and!; [done|done|].
  split; [apply Hadv|]. exact Hpeek.
Qed.

Lemma ahead_step p s t lit r t' lit' r' :
  ahead p s -> lexOne s = Ok (t, lit, r) -> lexOne r = Ok (t', lit', r') ->
  exists p', parser.nextToken p = Ok (tt, p')
    /\ lexer.Type_ (parser.curToken p') = t
    /\ lexer.Literal (parser.curToken p') = lit
    /\ parser.errors p' = parser.errors p
    /\ ahead p' r.
Proof.
  intros [Hwf Hs] Hlex Hr. rewrite Hlex in Hs. injection Hs as Ht Hlit Hrest.
  rewrite Hrest in Hr.
  destruct (nextToken_lex p _ _ _ Hwf Hr) as (p' & Hnext & Hcur & Herr & Hahead).
  exists p'. rewrite Hcur, Hrest. by split_and!.
Qed.

Lemma ahead_space p s : ahead p s -> ahead p (String " " s).
Proof. intros [Hwf Hs]. split; [done|]. by rewrite lexOne_space. Qed.

Lemma ahead_peek p s t lit r :
  ahead p s -> lexOne s = Ok (t, lit, r) -> lexer.Type_ (parser.peekToken p) = t.
Proof. intros [_ Hs] Hlex. rewrite Hlex in Hs. by injection Hs. Qed.

Lemma settles_bind {A B} (m : parser.M A) (k : A -> parser.M B) p a p' b :
  settles (m p) (a, p') -> settles (k a p') b -> settles ((m ≫= k) p) b.
Proof.
  unfold settles. rewrite bind_unfold. intros [->| ->]; [done|by right].
Qed.

(** ** What [parseExpression] does on each kind of token *)

Section Dispatch.
Import parser.

Ltac enter :=
  cbn [parseExpression]; rewrite (bind_unfold get_cur); cbn [get_cur];
  rewrite (bind_unfold get_peek); cbn [get_peek].

Lemma parseExpression_ident f p :
  lexer.Type_ (curToken p) = lexer.IDENT ->
  lexer.Type_ (peekToken p) <> lexer.COLON ->
  parseExpression (S f) p
  = Ok (Some (Ident {| Token := curToken p; Value := lexer.Literal (curToken p) |}), p).
Proof.
  intros Hcur Hpeek. enter. rewrite Hcur. cbv iota.
  by destruct (decide (lexer.Type_ (peekToken p) = lexer.COLON)).
Qed.

Lemma parseExpression_string f p :
  lexer.Type_ (curToken p) = lexer.STRING ->
  parseExpression (S f) p
  = Ok (Some (StringLiteral (curToken p) (lexer.Literal (curToken p))), p).
Proof. intros Hcur. enter. by rewrite Hcur. Qed.

Lemma parseExpression_int f p v :
  lexer.Type_ (curToken p) = lexer.INT ->
  ParseInt (lexer.Literal (curToken p)) = Some v ->
  parseExpression (S f) p = Ok (Some (IntegerLiteral (curToken p) v), p).
Proof.
  intros Hcur Hv. enter. rewrite Hcur. cbv iota. unfold parseIntegerLiteral.
  rewrite bind_unfold, (bind_unfold get_cur). cbn [get_cur]. by rewrite Hv.
Qed.

Lemma parseExpression_float f p v :
  lexer.Type_ (curToken p) = lexer.FLOAT ->
  ParseFloat (lexer.Literal (curToken p)) = Some v ->
  parseExpression (S f) p = Ok (Some (FloatLiteral (curToken p) v), p).
Proof.
  intros Hcur Hv. enter. rewrite Hcur. cbv iota. unfold parseFloatLiteral.
  rewrite bind_unfold, (bind_unfold get_cur). cbn [get_cur]. by rewrite Hv.
Qed.

Lemma parseExpression_keyword f p :
  isKeywordType (lexer.Type_ (curToken p)) = true ->
  parseExpression (S f) p
  = Ok (Some (KeywordExpression (curToken p) (lexer.Literal (curToken p))), p).
Proof. intros Hcur. enter. by destruct (lexer.Type_ (curToken p)). Qed.

Lemma parseExpression_pattern f p :
  lexer.Type_ (curToken p) = lexer.ASTERISK
  \/ lexer.Type_ (curToken p) = lexer.QUESTION
  \/ (lexer.Type_ (curToken p) = lexer.IDENT
      /\ lexer.Type_ (peekToken p) = lexer.COLON) ->
  parseExpression (S f) p = (e ← parsePatternExpression f; mret (Some e)) p.
Proof.
  intros Hcur. enter.
  destruct Hcur as [->|[->|[-> Hpeek]]]; [done|done|]. cbv iota.
  by destruct (decide (lexer.Type_ (peekToken p) = lexer.COLON)).
Qed.

Lemma parseExpression_range f p :
  lexer.Type_ (curToken p) = lexer.BRACKET_L ->
  parseExpression (S f) p = (e ← parseRangeExpression f; mret (Some e)) p.
Proof. intros Hcur. enter. by rewrite Hcur. Qed.

End Dispatch.

(** ** Patterns *)

Lemma patternParts_cons n c s :
  patternParts n (String c s) = true ->
  exists f t lit r, n = S f /\ lexOne (String c s) = Ok (t, lit, r)
    /\ isSpace c = false /\ parser.isPatternPart t = true
    /\ patternParts f r = true.
Proof.
  destruct n as [|f]; [done|]. cbn [patternParts].
  destruct (lexOne (String c s)) as [[[t lit] r]| |]; [|done..].
  intros H. apply andb_true_iff in H as [H Hr]. apply andb_true_iff in H as [Hc Ht].
  apply negb_true_iff in Hc. by exists f, t, lit, r.
Qed.

(** The first token of what is left of a pattern and of what follows it. *)
Lemma patternParts_lex n s x tx litx rx :
  patternParts n s = true -> delimited x = true -> lexOne x = Ok (tx, litx, rx) ->
  exists t lit r, lexOne (s +:+ x) = Ok (t, lit, r)
    /\ (s <> EmptyString -> exists r0, lexOne s = Ok (t, lit, r0)).
Proof.
  intros Hs Hx Hlex. destruct s as [|c s].
  { rewrite append_nil_l. by exists tx, litx, rx. }
  apply patternParts_cons in Hs as (f & t & lit & r & _ & Hone & Hc & Ht & _).
  destruct (lexOne_part _ _ _ _ x Hone Hc Ht) as [_ Hmore].
  exists t, lit, (r +:+ x). split; [by apply Hmore|]. intros _. by exists r.
Qed.

Lemma reparse_pattern_loop n : forall s p acc x tx litx rx,
  patternParts n s = true -> ahead p (s +:+ x) -> delimited x = true ->
  lexOne x = Ok (tx, litx, rx) -> parser.isPatternPart tx = false ->
  exists p',
    (forall fuel, settles (parser.parsePatternExpression_loop fuel acc p) (acc +:+ s, p'))
    /\ parser.errors p' = parser.errors p /\ ahead p' x.
Proof.
  induction n as [|n IH]; intros s p acc x tx litx rx Hs Hahead Hx Hlex Htx.
  - destruct s as [|c s]; [|done]. rewrite append_nil_l in Hahead. exists p.
    split_and!; [|done|done]. intros [|fuel]; [by right|left].
    cbn [parser.parsePatternExpression_loop]. rewrite bind_unfold. cbn [parser.get_peek].
    rewrite (ahead_peek _ _ _ _ _ Hahead Hlex), Htx. by rewrite append_nil_r.
  - destruct s as [|c s].
    { rewrite append_nil_l in Hahead. exists p.
      split_and!; [|done|done]. intros [|fuel]; [by right|left].
      cbn [parser.parsePatternExpression_loop]. rewrite bind_unfold. cbn [parser.get_peek].
      rewrite (ahead_peek _ _ _ _ _ Hahead Hlex), Htx. by rewrite append_nil_r. }
    apply patternParts_cons in Hs as (f & t & lit & r & [= <-] & Hone & Hc & Ht & Hr).
    destruct (lexOne_part _ _ _ _ x Hone Hc Ht) as [Hsplit Hmore].
    specialize (Hmore Hx).
    destruct (patternParts_lex _ _ _ _ _ _ Hr Hx Hlex) as (t1 & lit1 & r1 & Hone1 & _).
    destruct (ahead_step _ _ _ _ _ _ _ _ Hahead Hmore Hone1)
      as (p1 & Hnext & _ & Hlit & Herr1 & Hahead1).
    destruct (IH r p1 (acc +:+ lit) x tx litx rx Hr Hahead1 Hx Hlex Htx)
      as (p' & Hloop & Herr & Hahead').
    exists p'. split_and!; [|congruence|done].
    intros [|fuel]; [by right|].
    cbn [parser.parsePatternExpression_loop]. rewrite bind_unfold. cbn [parser.get_peek].
    rewrite (ahead_peek _ _ _ _ _ Hahead Hmore), Ht.
    rewrite bind_unfold, Hnext, bind_unfold. cbn [parser.get_cur]. rewrite Hlit.
    rewrite Hsplit, <- append_assoc. apply Hloop.
Qed.

(** ** The first token of the text of a node *)

Lemma floatStable_number v :
  floatStable v -> v <> S754_nan /\ forall s, v <> S754_infinity s.
Proof.
  intros H. split; [intros ->|intros s ->]; unfold floatStable in H.
  - vm_compute in H. discriminate H.
  - destruct s; vm_compute in H; discriminate H.
Qed.

Lemma range_text s e text :
  parser.Expression_String (parser.RangeExpression s e) = Ok text ->
  exists a b, parser.Expression_String s = Ok a /\ parser.Expression_String e = Ok b
    /\ forall x, text +:+ x
         = String "[" (a +:+ String "," (String " " (b +:+ String "]" x))).
Proof.
  cbn [parser.Expression_String].
  destruct (parser.Expression_String s) as [a| |]; [|done..].
  destruct (parser.Expression_String e) as [b| |]; [|done..].
  cbn [mbind Res_bind]. intros [= <-]. exists a, b. split_and!; [done..|].
  intros x. rewrite !append_assoc. reflexivity.
Qed.

Lemma keyword_kind t :
  isKeywordType t = true ->
  parser.endsCommand t = false /\ t <> lexer.COLON /\ parser.isPatternPart t = false.
Proof. by destruct t. Qed.

Lemma first_token e text x :
  parsedNode e -> stableNode e -> parser.Expression_String e = Ok text ->
  delimited x = true ->
  exists t lit r, lexOne (text +:+ x) = Ok (t, lit, r)
    /\ parser.endsCommand t = false /\ t <> lexer.COLON
    /\ (startsPattern e = false -> parser.isPatternPart t = false).
Proof.
  intros Hn Hs Htext Hx.
  destruct e as [i|t v|t v|t v|t v|t v|es ee|o ov|ty];
    cbn [parsedNode stableNode] in Hn, Hs; try done.
  - injection Htext as <-. destruct Hn as [Hw Hl].
    eexists _, _, _. split; [by apply lexOne_word_app|]. rewrite Hl. by split_and!.
  - injection Htext as <-. eexists _, _, _.
    split; [rewrite append_assoc; by apply lexOne_quoted|]. by split_and!.
  - injection Htext as <-. eexists _, _, _.
    split; [by apply lexOne_itoa|]. by split_and!.
  - injection Htext as <-. destruct (floatStable_number v Hs) as [Hnan Hinf].
    eexists _, _, _. split; [by apply lexOne_FormatFloat|]. by split_and!.
  - injection Htext as <-. destruct Hn as [Hw Hk].
    eexists _, _, _. split; [by apply lexOne_word_app|].
    destruct (keyword_kind _ Hk) as (? & ? & ?). by split_and!.
  - injection Htext as <-. destruct Hs as [Hhead Hparts].
    unfold patternHead in Hhead.
    destruct v as [|c v]; [done|].
    apply patternParts_cons in Hparts as (f & t0 & lit & r & _ & Hone & Hc & Ht & _).
    destruct (lexOne_part _ _ _ _ x Hone Hc Ht) as [_ Hmore].
    exists t0, lit, (r +:+ x). split; [by apply Hmore|].
    rewrite Hone in Hhead. destruct t0; try done.
  - apply range_text in Htext as (a & b & _ & _ & ->).
    eexists _, _, _. split; [reflexivity|]. by split_and!.
Qed.

(** ** Nodes *)

Lemma parseRangeExpression_run f p1 p2 s' p3 p4 p5 e' p6 p7 :
  lexer.Type_ (parser.curToken p1) = lexer.BRACKET_L ->
  parser.nextToken p1 = Ok (tt, p2) ->
  settles (parser.parseExpression f p2) (Some s', p3) ->
  lexer.Type_ (parser.peekToken p3) = lexer.COMMA ->
  parser.nextToken p3 = Ok (tt, p4) ->
  parser.nextToken p4 = Ok (tt, p5) ->
  settles (parser.parseExpression f p5) (Some e', p6) ->
  lexer.Type_ (parser.peekToken p6) = lexer.BRACKET_R ->
  parser.nextToken p6 = Ok (tt, p7) ->
  settles (parser.parseRangeExpression (S f) p1) (parser.RangeExpression s' e', p7).
Proof.
  intros Hcur H12 Hs Hcomma H34 H45 He Hclose H67.
  cbn [parser.parseRangeExpression]. rewrite (bind_unfold parser.get_cur).
  cbn [parser.get_cur].
  destruct (decide (lexer.Type_ (parser.curToken p1) <> lexer.BRACKET_L)) as [E|_]; [done|].
  rewrite bind_unfold, H12, bind_unfold.
  destruct Hs as [->| ->]; [|by right].
  rewrite (bind_unfold parser.get_peek). cbn [parser.get_peek].
  destruct (decide (lexer.Type_ (parser.peekToken p3) <> lexer.COMMA)) as [E|_]; [done|].
  rewrite bind_unfold, H34, bind_unfold, H45, bind_unfold.
  destruct He as [->| ->]; [|by right].
  rewrite (bind_unfold parser.get_peek). cbn [parser.get_peek].
  destruct (decide (lexer.Type_ (parser.peekToken p6) <> lexer.BRACKET_R)) as [E|_]; [done|].
  rewrite bind_unfold, H67. by left.
Qed.

Lemma ahead_unspace p s : ahead p (String " " s) -> ahead p s.
Proof. intros [Hwf Hs]. split; [done|]. by rewrite lexOne_space in Hs. Qed.

(** A parser in front of the text of a node reads the node back. *)
Lemma reparse_expression e :
  parsedNode e -> stableNode e ->
  forall text, parser.Expression_String e = Ok text ->
  forall p x tx litx rx,
    ahead p (text +:+ x) -> delimited x = true -> lexOne x = Ok (tx, litx, rx) ->
    (isPattern e = true -> parser.isPatternPart tx = false) -> tx <> lexer.COLON ->
    exists p1 e' p',
      parser.nextToken p = Ok (tt, p1)
      /\ (forall fuel, settles (parser.parseExpression fuel p1) (Some e', p'))
      /\ untoken e' = untoken e
      /\ parser.errors p' = parser.errors p /\ ahead p' x.
Proof.
  induction e as [i|t v|t v|t v|t v|t v|es ee IHs IHe|o ov _ _|ty]
    using parser.Expression_induction;
    cbn [parsedNode stableNode]; intros Hn Hs text Htext p x tx litx rx Hahead Hx Hlex Hpat Hcolon;
    try done.
  - (* an identifier *)
    injection Htext as <-. destruct Hn as [Hw Hl].
    pose proof (lexOne_word_app _ _ Hw Hx) as Hone. rewrite Hl in Hone.
    destruct (ahead_step _ _ _ _ _ _ _ _ Hahead Hone Hlex)
      as (p1 & Hnext & Hty & Hlit & Herr & Hahead1).
    exists p1, (parser.Ident {| parser.Token := parser.curToken p1; parser.Value := parser.Value i |}), p1. split_and!; [done| |reflexivity|done|done].
    intros [|f]; [by right|left]. rewrite parseExpression_ident; [|done|].
    + by rewrite Hlit.
    + by rewrite (ahead_peek _ _ _ _ _ Hahead1 Hlex).
  - (* a string *)
    injection Htext as <-.
    pose proof (lexOne_quoted v x Hs) as Hone. rewrite <- append_assoc in Hone.
    destruct (ahead_step _ _ _ _ _ _ _ _ Hahead Hone Hlex)
      as (p1 & Hnext & Hty & Hlit & Herr & Hahead1).
    exists p1, (parser.StringLiteral (parser.curToken p1) v), p1. split_and!; [done| |reflexivity|done|done].
    intros [|f]; [by right|left]. rewrite parseExpression_string by done.
    by rewrite Hlit.
  - (* an integer *)
    injection Htext as <-.
    pose proof (lexOne_itoa v x Hx) as Hone.
    destruct (ahead_step _ _ _ _ _ _ _ _ Hahead Hone Hlex)
      as (p1 & Hnext & Hty & Hlit & Herr & Hahead1).
    exists p1, (parser.IntegerLiteral (parser.curToken p1) v), p1. split_and!; [done| |reflexivity|done|done].
    intros [|f]; [by right|left].
    by rewrite (parseExpression_int _ _ v) by (done || (rewrite Hlit; by apply ParseInt_itoa)).
  - (* a float *)
    injection Htext as <-. destruct (floatStable_number v Hs) as [Hnan Hinf].
    pose proof (lexOne_FormatFloat v x Hnan Hinf Hx) as Hone.
    destruct (ahead_step _ _ _ _ _ _ _ _ Hahead Hone Hlex)
      as (p1 & Hnext & Hty & Hlit & Herr & Hahead1).
    exists p1, (parser.FloatLiteral (parser.curToken p1) v), p1. split_and!; [done| |reflexivity|done|done].
    intros [|f]; [by right|left].
    by rewrite (parseExpression_float _ _ v) by (done || by rewrite Hlit).
  - (* a keyword *)
    injection Htext as <-. destruct Hn as [Hw Hk].
    pose proof (lexOne_word_app _ _ Hw Hx) as Hone.
    destruct (ahead_step _ _ _ _ _ _ _ _ Hahead Hone Hlex)
      as (p1 & Hnext & Hty & Hlit & Herr & Hahead1).
    exists p1, (parser.KeywordExpression (parser.curToken p1) v), p1. split_and!; [done| |reflexivity|done|done].
    intros [|f]; [by right|left]. rewrite parseExpression_keyword by (by rewrite Hty).
    by rewrite Hlit.
  - (* a pattern *)
    injection Htext as <-. destruct Hs as [Hhead Hparts].
    specialize (Hpat eq_refl). unfold patternHead in Hhead.
    destruct v as [|c v]; [done|].
    apply patternParts_cons in Hparts as (n & t0 & lit & r & _ & Hone & Hc & Ht & Hr).
    destruct (lexOne_part _ _ _ _ x Hone Hc Ht) as [Hsplit Hmore].
    specialize (Hmore Hx).
    destruct (patternParts_lex _ _ _ _ _ _ Hr Hx Hlex) as (t1 & lit1 & r1 & Hone1 & Hr1).
    destruct (ahead_step _ _ _ _ _ _ _ _ Hahead Hmore Hone1)
      as (p1 & Hnext & Hty & Hlit & Herr1 & Hahead1).
    destruct (reparse_pattern_loop _ _ _ lit _ _ _ _ Hr Hahead1 Hx Hlex Hpat)
      as (p' & Hloop & Herr & Hahead').
    eexists p1, (parser.PatternExpression (parser.curToken p') (String c v)), p'.
    split_and!; [done| |reflexivity|congruence|done].
    intros [|f]; [by right|].
    rewrite parseExpression_pattern.
    + unfold parser.parsePatternExpression.
      rewrite bind_unfold, (bind_unfold parser.get_cur). cbn [parser.get_cur].
      rewrite Hlit, bind_unfold.
      destruct (Hloop f) as [->| ->]; [|by right].
      left. rewrite (bind_unfold parser.get_cur). cbn [parser.get_cur].
      by rewrite <- Hsplit.
    + rewrite Hty. rewrite Hone in Hhead.
      destruct t0; try done; auto.
      right. right. split; [done|].
      destruct (lexOne r) as [[[t2 lit2] r2]| |] eqn:Hr2; [|done..].
      assert (Hne : r <> EmptyString) by (by intros ->; injection Hr2 as <-).
      destruct (Hr1 Hne) as (r0 & Hr0). injection Hr0 as <- <- <-.
      rewrite (ahead_peek _ _ _ _ _ Hahead1 Hone1). by destruct t2.
  - (* a range *)
    destruct Hn as [Hns Hne], Hs as [Hss Hse].
    apply range_text in Htext as (a & b & Ha & Hb & Htext). rewrite Htext in Hahead.
    set (X2 := String "]" x) in *.
    set (X1 := String "," (String " " (b +:+ X2))) in *.
    assert (HX2 : lexOne X2 = Ok (lexer.BRACKET_R, String "]" EmptyString, x)) by reflexivity.
    assert (HX1 : lexOne X1
                  = Ok (lexer.COMMA, String "," EmptyString, String " " (b +:+ X2)))
      by reflexivity.
    destruct (first_token es a X1 Hns Hss Ha eq_refl) as (ta & la & ra & Hfa & _).
    destruct (first_token ee b X2 Hne Hse Hb eq_refl) as (tb & lb & rb & Hfb & _).
    destruct (ahead_step _ _ _ _ _ _ _ _ Hahead
                (eq_refl : lexOne (String "[" (a +:+ X1)) = Ok (lexer.BRACKET_L, _, _)) Hfa)
      as (p1 & H01 & Hty1 & _ & Herr1 & Hahead1).
    destruct (IHs Hns Hss a Ha p1 X1 _ _ _ Hahead1 eq_refl HX1)
      as (p2 & s' & p3 & H12 & Hstart & Hsame1 & Herr3 & Hahead3); [done|done|].
    assert (Hfb' : lexOne (String " " (b +:+ X2)) = Ok (tb, lb, rb))
      by (by rewrite lexOne_space).
    destruct (ahead_step _ _ _ _ _ _ _ _ Hahead3 HX1 Hfb')
      as (p4 & H34 & _ & _ & Herr4 & Hahead4).
    apply ahead_unspace in Hahead4.
    destruct (IHe Hne Hse b Hb p4 X2 _ _ _ Hahead4 eq_refl HX2)
      as (p5 & e' & p6 & H45 & Hend & Hsame2 & Herr6 & Hahead6); [done|done|].
    destruct (ahead_step _ _ _ _ _ _ _ _ Hahead6 HX2 Hlex)
      as (p7 & H67 & _ & _ & Herr7 & Hahead7).
    eexists p1, (parser.RangeExpression s' e'), p7.
    split_and!; [done| |cbn [untoken]; congruence|congruence|done].
    intros [|f]; [by right|]. rewrite parseExpression_range by done.
    destruct f as [|f]; [by right|].
    eapply settles_bind; [|by left].
    apply (parseRangeExpression_run f p1 p2 s' p3 p4 p5 e' p6 p7); try done.
    + by rewrite (ahead_peek _ _ _ _ _ Hahead3 HX1).
    + by rewrite (ahead_peek _ _ _ _ _ Hahead6 HX2).
Qed.

(** ** Commands *)

Lemma render_node e : parsedNode e -> exists text, parser.Expression_String e = Ok text.
Proof.
  induction e as [i|t v|t v|t v|t v|t v|es ee IHs IHe|o ov _ _|ty]
    using parser.Expression_induction; cbn [parsedNode]; intros Hn; try done;
    try (by eexists).
  destruct Hn as [Hs He]. destruct (IHs Hs) as [a Ha], (IHe He) as [b Hb].
  cbn [parser.Expression_String]. rewrite Ha, Hb. by eexists.
Qed.

Lemma join_args_spaced args : forall texts i acc,
  Forall2 rendersTo args texts ->
  parser.join_args (S i) args acc = Ok (acc +:+ spaced texts).
Proof.
  induction args as [|e args IH]; intros texts i acc Hall.
  - apply Forall2_nil_inv_l in Hall as ->. cbn [parser.join_args spaced].
    by rewrite append_nil_r.
  - apply Forall2_cons_inv_l in Hall as (t & texts' & (_ & _ & Ht) & Hall & ->).
    cbn [parser.join_args spaced]. rewrite Ht. cbn [mbind Res_bind].
    rewrite (IH texts') by done. change (0 <? S i) with true. cbv iota.
    by rewrite !append_assoc.
Qed.

(** The text of a command is its name, a space and the texts of its
    arguments with a space between them. *)
Lemma command_text cmd texts :
  Forall2 rendersTo (parser.Arguments cmd) texts ->
  exists tail,
    parser.RedisCommand_String cmd
    = Ok (parser.Value (parser.Command cmd) +:+ String " " tail)
    /\ lexOne (String " " tail) = lexOne (spaced texts).
Proof.
  intros Hall. unfold parser.RedisCommand_String.
  destruct (parser.Arguments cmd) as [|e args].
  - apply Forall2_nil_inv_l in Hall as ->. exists EmptyString. by split.
  - apply Forall2_cons_inv_l in Hall as (t & texts' & (_ & _ & Ht) & Hall & ->).
    cbn [parser.join_args]. rewrite Ht. cbn [mbind Res_bind].
    change (0 <? 0) with false. cbv iota.
    rewrite (join_args_spaced args texts') by done. cbn [mbind Res_bind].
    rewrite append_nil_l. by exists (t +:+ spaced texts').
Qed.

Lemma spaced_delimited texts : delimited (spaced texts) = true.
Proof. by destruct texts. Qed.

(** The first token of the texts of the arguments that are left. *)
Lemma spaced_lex args texts :
  Forall2 rendersTo args texts ->
  exists t lit r, lexOne (spaced texts) = Ok (t, lit, r) /\ t <> lexer.COLON
    /\ match args with
       | [] => t = lexer.EOF
       | e :: _ =>
           parser.endsCommand t = false
           /\ (startsPattern e = false -> parser.isPatternPart t = false)
       end.
Proof.
  intros Hall. destruct Hall as [|e t args texts (Hn & Hs & Ht) Hall].
  - by eexists _, _, _.
  - destruct (first_token e t (spaced texts) Hn Hs Ht (spaced_delimited _))
      as (t0 & lit & r & Hone & Hend & Hcolon & Hpat).
    exists t0, lit, r. cbn [spaced].
    change (" " +:+ t +:+ spaced texts) with (String " " (t +:+ spaced texts)).
    rewrite lexOne_space. by split_and!.
Qed.

Lemma separated_tail e args : separated (e :: args) -> separated args.
Proof. intros H i e1 e2 H1 H2. by apply (H (S i)). Qed.

(** A parser in front of the texts of the arguments reads them back. *)
Lemma reparse_arguments args : forall texts,
  Forall2 rendersTo args texts -> separated args ->
  forall p acc, ahead p (spaced texts) ->
  exists args' p',
    (forall fuel, settles (parser.parseArguments fuel acc p) (acc ++ args', p'))
    /\ map untoken args' = map untoken args
    /\ parser.errors p' = parser.errors p.
Proof.
  induction args as [|e args IH]; intros texts Hall Hsep p acc Hahead.
  - apply Forall2_nil_inv_l in Hall as ->. exists [], p.
    split_and!; [|done|done]. intros [|f]; [by right|left].
    cbn [parser.parseArguments]. rewrite bind_unfold. cbn [parser.get_peek].
    rewrite (ahead_peek _ _ _ _ _ Hahead lexOne_nil). by rewrite app_nil_r.
  - apply Forall2_cons_inv_l in Hall as (t & texts' & (Hn & Hs & Ht) & Hall & ->).
    cbn [spaced] in Hahead.
    change (" " +:+ t +:+ spaced texts') with (String " " (t +:+ spaced texts')) in Hahead.
    apply ahead_unspace in Hahead.
    destruct (first_token e t (spaced texts') Hn Hs Ht (spaced_delimited _))
      as (t0 & lit0 & r0 & Hone & Hend & _).
    destruct (spaced_lex args texts' Hall) as (tx & litx & rx & Hlex & Hcolon & Hnext).
    destruct (reparse_expression e Hn Hs t Ht p (spaced texts') tx litx rx Hahead
                (spaced_delimited _) Hlex)
      as (p1 & e' & p2 & H01 & Hexpr & Hsame & Herr2 & Hahead2); [|done|].
    { intros Hpat. destruct args as [|e2 args]; [by subst tx|].
      apply Hnext. by apply (Hsep 0 e e2). }
    destruct (IH texts' Hall (separated_tail _ _ Hsep) p2 (acc ++ [e']) Hahead2)
      as (args' & p' & Hloop & Hsame' & Herr').
    exists (e' :: args'), p'. split_and!; [|cbn [map]; congruence|congruence].
    intros [|f]; [by right|].
    cbn [parser.parseArguments]. rewrite bind_unfold. cbn [parser.get_peek].
    rewrite (ahead_peek _ _ _ _ _ Hahead Hone), Hend.
    rewrite bind_unfold, H01, bind_unfold.
    destruct (Hexpr f) as [->| ->]; [|by right].
    replace (acc ++ e' :: args') with ((acc ++ [e']) ++ args') by (by rewrite <- app_assoc).
    apply Hloop.
Qed.

Lemma rendered_arguments args :
  Forall parsedNode args -> Forall stableNode args ->
  exists texts, Forall2 rendersTo args texts.
Proof.
  induction args as [|e args IH]; intros Hn Hs; [by exists []|].
  apply Forall_cons in Hn as [Hn Hns]. apply Forall_cons in Hs as [Hs Hss].
  destruct (IH Hns Hss) as [texts Hall], (render_node e Hn) as [t Ht].
  exists (t :: texts). by apply Forall2_cons.
Qed.

(** A command of parsed nodes that read back from their texts renders to
    a text that [ParseCommand] reads back, without errors. *)
Lemma reparse_command cmd :
  parsedCommand cmd -> Forall stableNode (parser.Arguments cmd) ->
  exists text cmd',
    parser.RedisCommand_String cmd = Ok text
    /\ parser.ParseCommand text = Ok (Some cmd', [])
    /\ sameCommand cmd cmd'.
Proof.
  intros (Hw & Hl & Hn & Hsep) Hs.
  destruct (rendered_arguments _ Hn Hs) as [texts Hall].
  destruct (command_text cmd texts Hall) as (tail & Htext & Htail).
  set (name := parser.Value (parser.Command cmd)) in *.
  set (text := name +:+ String " " tail) in *.
  destruct (spaced_lex _ _ Hall) as (tx & litx & rx & Hlex & _).
  rewrite <- Htail in Hlex.
  pose proof (lexOne_word_app name (String " " tail) Hw eq_refl) as Hone.
  rewrite Hl in Hone. fold text in Hone.
  set (p0 := {| parser.lexer_ := lexer.New text; parser.curToken := parser.zeroToken;
                parser.peekToken := parser.zeroToken; parser.errors := [] |}).
  destruct (New_spec text) as (Hwl & Hin & Hpos).
  assert (Hwf0 : wfParser p0).
  { split; [done|]. split; by intros [|]. }
  assert (Hrest0 : rest (parser.lexer_ p0) = text).
  { unfold rest. cbn [p0 parser.lexer_]. by rewrite Hin, Hpos. }
  destruct (nextToken_lex p0 _ _ _ Hwf0 ltac:(by rewrite Hrest0))
    as (p1 & H01 & _ & Herr1 & Hahead1).
  rewrite Hrest0 in Hahead1.
  destruct (ahead_step _ _ _ _ _ _ _ _ Hahead1 Hone Hlex)
    as (p2 & H12 & Hty2 & Hlit2 & Herr2 & Hahead2).
  assert (Hahead2' : ahead p2 (spaced texts)).
  { destruct Hahead2 as [Hwf2 Hpeek2]. split; [done|]. by rewrite <- Htail. }
  destruct (reparse_arguments _ _ Hall Hsep p2 [] Hahead2')
    as (args' & p' & Hloop & Hsame & Herr').
  exists text,
    {| parser.Command := {| parser.Token := parser.curToken p2; parser.Value := name |};
       parser.Arguments := args' |}.
  split; [done|]. split; [|by split].
  pose proof (ParseCommand_fuel text) as Hfuel.
  unfold parser.ParseCommand in *.
  assert (Hnew : parser.New (lexer.New text) = Ok p2).
  { unfold parser.New. fold p0. by rewrite bind_unfold, H01, H12. }
  rewrite Hnew in *. cbn [mbind Res_bind] in *.
  unfold parser.parseRedisCommand in *.
  rewrite (bind_unfold parser.get_cur) in *. cbn [parser.get_cur] in *.
  destruct (decide (lexer.Type_ (parser.curToken p2) <> lexer.IDENT)) as [E|_]; [done|].
  rewrite bind_unfold in *.
  destruct (Hloop (parser.parse_fuel text)) as [Hargs|Hargs]; rewrite Hargs in *; [|done].
  cbn [mret parser.M_ret app mbind Res_bind]. unfold parser.Errors.
  change (Ok (Some {| parser.Command :=
                        {| parser.Token := parser.curToken p2;
                           parser.Value := lexer.Literal (parser.curToken p2) |};
                      parser.Arguments := args' |}, parser.errors p')
          = Ok (Some {| parser.Command :=
                          {| parser.Token := parser.curToken p2; parser.Value := name |};
                        parser.Arguments := args' |}, [])).
  by rewrite Hlit2, Herr', Herr2, Herr1.
Qed.

(** ** Rendering does not read tokens *)

Lemma Expression_String_untoken e :
  parser.Expression_String (untoken e) = parser.Expression_String e.
Proof.
  induction e as [i|t v|t v|t v|t v|t v|es ee IHs IHe|o ov IHo IHv|ty]
    using parser.Expression_induction; cbn [untoken parser.Expression_String]; try done.
  - by rewrite IHs, IHe.
  - destruct ov as [ov|]; [by rewrite IHo, IHv|done].
Qed.

Lemma join_args_untoken args : forall i acc,
  parser.join_args i (map untoken args) acc = parser.join_args i args acc.
Proof.
  induction args as [|e args IH]; intros i acc; [done|].
  cbn [map parser.join_args]. rewrite Expression_String_untoken.
  destruct (parser.Expression_String e); [|done..]. cbn [mbind Res_bind]. apply IH.
Qed.

Lemma sameCommand_String a b :
  sameCommand a b -> parser.RedisCommand_String b = parser.RedisCommand_String a.
Proof.
  intros [Hname Hargs]. unfold parser.RedisCommand_String.
  by rewrite <- (join_args_untoken (parser.Arguments b)), <- Hargs, join_args_untoken, Hname.
Qed.

(** * Proofs: inputs without a backslash *)

(** The lexer panics only in [readString] and [readSingleQuoteString],
    when the input ends inside an escape sequence. *)

Lemma Contains_app_r a b c : Contains (a +:+ b) c = false -> Contains b c = false.
Proof. rewrite Contains_app. by intros [_ H]%orb_false_iff. Qed.

Lemma sspan_rest cond s w r c :
  sspan cond s = (w, r) -> Contains s c = false -> Contains r c = false.
Proof. intros (-> & _)%sspan_spec. apply Contains_app_r. Qed.

Lemma Contains_tail d s c : Contains (String d s) c = false -> Contains s c = false.
Proof. cbn [Contains]. by intros [_ H]%orb_false_iff. Qed.

Lemma lexNumber_rest s lit r c :
  lexNumber s = (lit, r) -> Contains s c = false -> Contains r c = false.
Proof.
  unfold lexNumber.
  assert (Hs : exists sign s1,
            match s with
            | String c s' => if Ascii.eqb c "-" then (String c EmptyString, s')
                             else (EmptyString, s)
            | EmptyString => (EmptyString, s)
            end = (sign, s1) /\ s = sign +:+ s1).
  { destruct s as [|d s']; [by exists EmptyString, EmptyString|].
    destruct (Ascii.eqb d "-"); eexists _, _; split; reflexivity. }
  destruct Hs as (sign & s1 & -> & ->). intros H Hc. apply Contains_app_r in Hc.
  destruct (sspan isDigit s1) as [d1 s2] eqn:Hd1.
  apply (sspan_rest _ _ _ _ c Hd1) in Hc.
  destruct s2 as [|c0 s3]; [by injection H as <- <-|].
  destruct (_ && _).
  - destruct (sspan isDigit s3) as [d2 s4] eqn:Hd2. injection H as <- <-.
    apply (sspan_rest _ _ _ _ c Hd2). by apply Contains_tail in Hc.
  - by injection H as <- <-.
Qed.

Lemma quotedWalk_plain q s :
  Contains s BACKSLASH = false ->
  exists body r, quotedWalk q s = Some (body, r) /\ Contains r BACKSLASH = false.
Proof.
  induction s as [|c s IH]; intros Hs; [by eexists _, _|].
  cbn [quotedWalk]. pose proof (Contains_tail _ _ _ Hs) as Hs'.
  destruct (Ascii.eqb c q); [by eexists _, _|].
  destruct (Ascii.eqb c NUL); [by eexists _, _|].
  cbn [Contains] in Hs. apply orb_false_iff in Hs as [-> _].
  destruct (IH Hs') as (body & r & -> & Hr). by eexists _, _.
Qed.

Lemma lexOne_plain s :
  Contains s BACKSLASH = false ->
  exists t lit r, lexOne s = Ok (t, lit, r) /\ Contains r BACKSLASH = false.
Proof.
  intros Hs. unfold lexOne. destruct (sspan isSpace s) as [ws s0] eqn:Hws.
  apply (sspan_rest _ _ _ _ _ Hws) in Hs. cbn [snd]. clear Hws ws s.
  destruct s0 as [|c s]; [by eexists _, _, _|]. cbv zeta.
  pose proof (Contains_tail _ _ _ Hs) as Hs'.
  assert (Hnum : exists t lit r, lexNumberToken (String c s) = Ok (t, lit, r)
                   /\ Contains r BACKSLASH = false).
  { unfold lexNumberToken. destruct (lexNumber (String c s)) as [lit r] eqn:Hn.
    eexists _, _, _. split; [reflexivity|]. by apply (lexNumber_rest _ _ _ _ Hn). }
  assert (Hquoted : forall q, exists t lit r, lexQuoted q s = Ok (t, lit, r)
                      /\ Contains r BACKSLASH = false).
  { intros q. unfold lexQuoted.
    destruct (quotedWalk_plain q s Hs') as (body & r & -> & Hr). by eexists _, _, _. }
  repeat match goal with
  | |- context [if Ascii.eqb c ?b then _ else _] =>
      destruct (Ascii.eqb c b); [first [by eexists _, _, _ | by apply Hquoted | idtac]|]
  end.
  - by destruct (isDigit (shead s)); [|eexists _, _, _].
  - destruct (isLetter c).
    + destruct (sspan isIdentByte (String c s)) as [w r] eqn:Hw.
      eexists _, _, _. split; [reflexivity|]. by apply (sspan_rest _ _ _ _ _ Hw).
    + by destruct (isDigit c); [|eexists _, _, _].
Qed.

(** ** The parser *)

Section Safe.
Import parser.

Lemma safeM_ret {A} (a : A) : safeM (mret a).
Proof. by intros p Hp. Qed.

Lemma safeM_bind {A B} (m : M A) (k : A -> M B) :
  safeM m -> (forall a, safeM (k a)) -> safeM (m ≫= k).
Proof.
  intros Hm Hk p Hp. rewrite bind_unfold. specialize (Hm p Hp).
  destruct (m p) as [[a p']| |]; [|done..]. by apply Hk.
Qed.

Lemma safeM_get_cur : safeM get_cur.
Proof. by intros p Hp. Qed.

Lemma safeM_get_peek : safeM get_peek.
Proof. by intros p Hp. Qed.

Lemma safeM_addError msg : safeM (addError msg).
Proof. by intros p Hp. Qed.

Lemma safeM_out_of_fuel {A} : safeM (@out_of_fuel A).
Proof. by intros p Hp. Qed.

Lemma safeM_nextToken : safeM nextToken.
Proof.
  intros p [Hwf Hplain].
  destruct (lexOne_plain _ Hplain) as (t & lit & r & Hlex & Hr).
  pose proof (nextToken_spec p Hwf) as Hspec. unfold holds in Hspec.
  pose proof (NextToken_lexOne _ (proj1 Hwf)) as Has.
  unfold lexesAs in Has. rewrite Hlex in Has.
  destruct Has as (tok & l' & Hnext & _ & _ & _ & _ & Hrest).
  unfold nextToken in *. rewrite Hnext in *. cbn [mbind Res_bind] in *.
  destruct Hspec as ((Hwf' & _) & _). split; [done|]. cbn [lexer_]. by rewrite Hrest.
Qed.

Create HintDb safe.
#[local] Hint Resolve safeM_ret safeM_get_cur safeM_get_peek safeM_addError
  safeM_out_of_fuel safeM_nextToken : safe.

Ltac safe_step :=
  first [ assumption | solve [auto with safe] | apply safeM_bind; [|intros ?]
        | match goal with
          | |- safeM (if ?b then _ else _) => destruct b
          | |- safeM (match ?x with _ => _ end) => destruct x
          end ].

Lemma safeM_pattern_loop fuel : forall pattern,
  safeM (parsePatternExpression_loop fuel pattern).
Proof.
  induction fuel as [|f IH]; intros pattern; cbn [parsePatternExpression_loop];
    repeat safe_step.
Qed.

Lemma safeM_expression fuel :
  safeM (parseExpression fuel) /\ safeM (parseRangeExpression fuel).
Proof.
  induction fuel as [|f [IHe IHr]]; [split; apply safeM_out_of_fuel|].
  pose proof (safeM_pattern_loop f) as Hloop.
  assert (Hpat : safeM (parsePatternExpression f)).
  { unfold parsePatternExpression. repeat safe_step. }
  split.
  - cbn [parseExpression].
    unfold parseIdentifier, parseStringLiteral, parseIntegerLiteral, parseFloatLiteral,
      parseKeywordExpression.
    repeat safe_step.
  - cbn [parseRangeExpression]. repeat safe_step.
Qed.

Lemma safeM_arguments fuel : forall args, safeM (parseArguments fuel args).
Proof.
  induction fuel as [|f IH]; intros args; cbn [parseArguments]; [apply safeM_out_of_fuel|].
  pose proof (proj1 (safeM_expression f)). repeat safe_step.
Qed.

Lemma safeM_command fuel : safeM (parseRedisCommand fuel).
Proof.
  unfold parseRedisCommand. pose proof (safeM_arguments fuel). repeat safe_step.
Qed.

Lemma safeM_skipNewlines fuel : safeM (skipNewlines fuel).
Proof. induction fuel as [|f IH]; cbn [skipNewlines]; repeat safe_step. Qed.

Lemma safeM_statement fuel : safeM (parseStatement fuel).
Proof.
  unfold parseStatement.
  pose proof (safeM_skipNewlines fuel). pose proof (safeM_command fuel).
  repeat safe_step.
Qed.

Lemma safeM_program_loop fuel : forall stmts, safeM (ParseProgram_loop fuel stmts).
Proof.
  induction fuel as [|f IH]; intros stmts; cbn [ParseProgram_loop];
    [apply safeM_out_of_fuel|].
  pose proof (safeM_statement f). repeat safe_step.
Qed.

Lemma safe_New input :
  Contains input BACKSLASH = false ->
  exists p, New (lexer.New input) = Ok p /\ safeParser p.
Proof.
  intros Hplain. unfold New.
  set (p0 := {| lexer_ := lexer.New input; curToken := zeroToken;
                peekToken := zeroToken; errors := [] |}).
  destruct (New_spec input) as (Hwl & Hin & Hpos).
  assert (H0 : safeParser p0).
  { split; [split; [done|split; by intros [|]]|].
    unfold rest. cbn [p0 lexer_]. by rewrite Hin, Hpos. }
  pose proof (safeM_bind nextToken (fun _ => nextToken) safeM_nextToken
                (fun _ => safeM_nextToken) p0 H0) as Hnew.
  destruct ((nextToken ≫= fun _ => nextToken) p0) as [[[] p]| |] eqn:E; [|done|].
  - exists p. by split.
  - exfalso. revert E. rewrite bind_unfold.
    pose proof (nextToken_spec p0 (proj1 H0)) as H1. unfold holds in H1.
    destruct (nextToken p0) as [[[] p1]| |]; [|done..].
    pose proof (nextToken_spec p1 (proj1 (proj1 H1))) as H2. unfold holds in H2.
    by destruct (nextToken p1) as [[[] p2]| |].
Qed.

End Safe.

(** * Proofs: GetCommandInfo *)

Ltac type_names :=
  cbn [parser.Expression_Type parser.Expression_NodeType parser.NodeType_name];
  repeat match goal with
  | |- context [String.eqb ?a ?b] =>
      let v := eval vm_compute in (String.eqb a b) in change (String.eqb a b) with v
  end;
  cbn [orb andb].

Ltac info_facts :=
  cbn [andb isKeyNode isValueNode keywordText]; try done;
  try (intros ? ? ?); rewrite ?app_nil_r;
  rewrite ?lookup_insert_ne by done; rewrite ?lookup_insert; done.

Lemma GetCommandInfo_loop_spec args : forall i info argTypes options,
  Forall notNil args ->
  exists info',
    GetCommandInfo_loop i args info argTypes options
    = Ok (info', argTypes ++ map parser.Expression_Type args,
          options ++ omap keywordText args)
    /\ (forall k, k <> "has_key" -> k <> "has_value" -> info' !! k = info !! k)
    /\ info' !! "has_key"
       = (if (i =? 0) && match args with e :: _ => isKeyNode e | [] => false end
          then Some (IBool true) else info !! "has_key")
    /\ info' !! "has_value"
       = (if existsb isValueNode args then Some (IBool true) else info !! "has_value").
Proof.
  induction args as [|arg args IH]; intros i info argTypes options Hall.
  - exists info. cbn [GetCommandInfo_loop map omap existsb].
    rewrite !app_nil_r, andb_false_r. by split_and!.
  - apply Forall_cons in Hall as [Harg Hall].
    cbn [GetCommandInfo_loop]. cbv zeta.
    assert (Hrest : forall info1 options1 (key value : bool),
      (forall k, k <> "has_key" -> k <> "has_value" -> info1 !! k = info !! k) ->
      info1 !! "has_key" = (if (i =? 0) && key then Some (IBool true) else info !! "has_key") ->
      info1 !! "has_value" = (if value then Some (IBool true) else info !! "has_value") ->
      isKeyNode arg = key -> isValueNode arg = value ->
      options1 = options ++ match keywordText arg with Some v => [v] | None => [] end ->
      exists info',
        GetCommandInfo_loop (S i) args info1 (argTypes ++ [parser.Expression_Type arg]) options1
        = Ok (info', argTypes ++ map parser.Expression_Type (arg :: args),
              options ++ omap keywordText (arg :: args))
        /\ (forall k, k <> "has_key" -> k <> "has_value" -> info' !! k = info !! k)
        /\ info' !! "has_key"
           = (if (i =? 0) && isKeyNode arg then Some (IBool true) else info !! "has_key")
        /\ info' !! "has_value"
           = (if existsb isValueNode (arg :: args) then Some (IBool true)
              else info !! "has_value")).
    { intros info1 options1 key value Hk Hkey Hvalue <- <- ->.
      destruct (IH (S i) info1 (argTypes ++ [parser.Expression_Type arg])
                  (options ++ match keywordText arg with Some v => [v] | None => [] end)
                  Hall) as (info' & -> & Hk' & Hkey' & Hvalue').
      exists info'. split_and!.
      - f_equal. f_equal; [f_equal|].
        + by rewrite <- app_assoc.
        + cbn [omap list_omap].
          destruct (keywordText arg); by rewrite <- app_assoc.
      - intros k H1 H2. by rewrite Hk', Hk.
      - change (S i =? 0) with false in Hkey'. cbn [andb] in Hkey'. by rewrite Hkey'.
      - rewrite Hvalue', Hvalue. cbn [existsb].
        destruct (isValueNode arg); [|done]. by destruct (existsb isValueNode args). }
    destruct arg as [id|t v|t v|t v|t v|t v|es ee|o ov|ty]; [..|done]; type_names;
      cbn [parser.Expression_String mbind Res_bind]; destruct (i =? 0); cbn [andb];
      first [ solve [apply (Hrest _ _ true false); info_facts]
            | solve [apply (Hrest _ _ true true); info_facts]
            | solve [apply (Hrest _ _ false true); info_facts]
            | solve [apply (Hrest _ _ false false); info_facts] ].
Qed.

Lemma GetCommandInfo_spec cmd :
  Forall notNil (parser.Arguments cmd) ->
  exists info, GetCommandInfo (Some cmd) = Ok info /\ describes info cmd.
Proof.
  intros Hall. unfold GetCommandInfo. cbv zeta.
  match goal with
  | |- context [GetCommandInfo_loop 0 _ ?info0 [] []] =>
      destruct (GetCommandInfo_loop_spec (parser.Arguments cmd) 0 info0 [] [] Hall)
        as (info' & -> & Hk & Hkey & Hvalue)
  end.
  cbn [mbind Res_bind app]. eexists. split; [reflexivity|].
  unfold describes. split_and!.
  - rewrite !lookup_insert_ne by done. rewrite Hk by done. by rewrite lookup_insert.
  - rewrite !lookup_insert_ne by done. rewrite Hk by done.
    rewrite lookup_insert_ne by done. by rewrite lookup_insert.
  - rewrite lookup_insert_ne by done. by rewrite lookup_insert.
  - by rewrite lookup_insert.
  - rewrite !lookup_insert_ne by done. rewrite Hkey. cbn [Nat.eqb andb].
    destruct (parser.Arguments cmd) as [|e args]; [|destruct (isKeyNode e); [done|]];
      rewrite !lookup_insert_ne by done; by rewrite lookup_insert.
  - rewrite !lookup_insert_ne by done. rewrite Hvalue.
    destruct (existsb _ _); [done|].
    rewrite !lookup_insert_ne by done. by rewrite lookup_insert.
Qed.

Import semantic.

(** * Proofs: results of the validator *)

Lemma ValidateCommand_fuel a cmd : ValidateCommand a cmd <> OutOfFuel.
Proof.
  unfold ValidateCommand. destruct (commands a !! _) as [spec|]; [|done]. cbv zeta.
  unfold validateOptions.
  match goal with
  | |- context [validateOptions_loop ?f cmd spec 0 ∅ ?r0] =>
      pose proof (validateOptions_loop_fuel cmd spec f 0 ∅ r0 ltac:(lia)) as Hf;
      destruct (validateOptions_loop f cmd spec 0 ∅ r0) as [ro| |]; [|done..]
  end.
  cbn [mbind Res_bind]. destruct (_ && _); [|done].
  destruct (parser.Arguments cmd !! _) as [arg|]; [|done].
  pose proof (Expression_String_fuel arg).
  by destruct (parser.Expression_String arg).
Qed.

(** ** The flag and the errors *)

Lemma consistent_addError r msg cmd ty : consistent (addError r msg cmd ty).
Proof.
  unfold consistent, addError. cbn [Valid Errors]. split; [done|].
  intros H. by apply app_eq_nil in H as [_ H].
Qed.

Lemma consistent_addWarning r msg : consistent r -> consistent (addWarning r msg).
Proof. done. Qed.

Lemma consistent_setInfo r k v : consistent r -> consistent (setInfo r k v).
Proof. done. Qed.

Lemma consistent_checkArgumentType cmd i ty arg r :
  consistent r -> consistent (checkArgumentType cmd i ty arg r).
Proof.
  intros Hr. unfold checkArgumentType. cbv zeta.
  repeat match goal with
  | |- consistent (if ?b then _ else _) => destruct b
  end; done || apply consistent_addError.
Qed.

Lemma consistent_validateArgumentTypes_loop cmd spec args : forall i r,
  consistent r -> consistent (validateArgumentTypes_loop cmd spec i args r).
Proof.
  induction args as [|arg args IH]; intros i r Hr; [done|].
  cbn [validateArgumentTypes_loop]. destruct (ValueTypes spec !! i); [|done].
  by apply IH, consistent_checkArgumentType.
Qed.

Lemma consistent_checkConflicts cmd name u conflicts : forall r,
  consistent r -> consistent (checkConflicts cmd name u conflicts r).
Proof.
  induction conflicts as [|c conflicts IH]; intros r Hr; [done|].
  cbn [checkConflicts]. apply IH. destruct (used u c); [apply consistent_addError|done].
Qed.

Lemma consistent_validateOptionValue name o v r r' :
  consistent r -> validateOptionValue name o v r = Ok r' -> consistent r'.
Proof.
  intros Hr. unfold validateOptionValue. cbv zeta.
  repeat match goal with
  | |- (if ?b then _ else _) = _ -> _ => destruct b
  | |- match ?x with _ => _ end = _ -> _ => destruct x
  end; intros [= <-]; try done;
  first [apply consistent_addError | by apply consistent_addWarning].
Qed.

Lemma consistent_validateOptions_loop fuel cmd spec : forall i u r r',
  consistent r -> validateOptions_loop fuel cmd spec i u r = Ok r' -> consistent r'.
Proof.
  induction fuel as [|f IH]; intros i u r r' Hr; [done|].
  cbn [validateOptions_loop].
  destruct (parser.Arguments cmd !! i) as [arg|]; [|by intros [= <-]].
  destruct (String.eqb _ _); [|by apply IH].
  destruct (parser.Expression_String arg) as [text| |]; [|done..].
  cbn [mbind Res_bind]. cbv zeta.
  destruct (Options spec !! _) as [o|]; [|by apply IH, consistent_addWarning].
  pose proof (consistent_checkConflicts cmd (ToUpper text) u (Conflicts o) r Hr) as Hc.
  destruct (HasValue o); [|by apply IH].
  destruct (_ <=? _); [apply IH, consistent_addError|].
  destruct (parser.Arguments cmd !! (i + 1)) as [v|]; [|done].
  destruct (validateOptionValue _ o v _) as [rv| |] eqn:Hv; [|done..].
  cbn [mbind Res_bind]. apply IH. by eapply consistent_validateOptionValue.
Qed.

Lemma consistent_ValidateCommand a cmd r :
  ValidateCommand a cmd = Ok r -> consistent r.
Proof.
  unfold ValidateCommand. destruct (commands a !! _) as [spec|];
    [|intros [= <-]; apply consistent_addError].
  cbv zeta. unfold validateOptions, validateArgumentTypes.
  match goal with
  | |- context [validateOptions_loop ?f cmd spec 0 ∅ ?r0] =>
      assert (H0 : consistent r0);
      [|destruct (validateOptions_loop f cmd spec 0 ∅ r0) as [ro| |] eqn:Hloop; [|done..];
        pose proof (consistent_validateOptions_loop _ _ _ _ _ _ _ H0 Hloop) as Hro]
  end.
  { apply consistent_validateArgumentTypes_loop.
    destruct (_ <? MinArgs spec)%Z; destruct (negb _ && _);
      done || apply consistent_addError. }
  cbn [mbind Res_bind]. clear Hloop.
  destruct ((0 <=? KeyPosition spec)%Z && _); [|by intros [= <-]].
  destruct (parser.Arguments cmd !! _) as [arg|]; [|done].
  destruct (parser.Expression_String arg); [|done..]. by intros [= <-].
Qed.

(** ** Commands without keywords *)

Lemma validateOptions_loop_keywordFree fuel cmd spec : forall i u r,
  keywordFree cmd -> length (parser.Arguments cmd) - i < fuel ->
  validateOptions_loop fuel cmd spec i u r = Ok r.
Proof.
  induction fuel as [|f IH]; intros i u r Hfree Hf; [lia|].
  cbn [validateOptions_loop].
  destruct (parser.Arguments cmd !! i) as [arg|] eqn:Harg; [|done].
  pose proof (lookup_lt_Some _ _ _ Harg).
  assert (Hk : parser.Expression_NodeType arg <> parser.TKeywordExpression).
  { unfold keywordFree in Hfree. rewrite Forall_lookup in Hfree. by eapply Hfree. }
  change "KeywordExpression" with (parser.NodeType_name parser.TKeywordExpression).
  rewrite Type_eqb_NodeType. rewrite bool_decide_eq_false_2 by done.
  apply IH; [done|lia].
Qed.

(** ** Programs *)

Lemma ValidateProgram_loop_nil a stmts : forall results,
  parser.NilRedisCommand ∈ stmts -> ValidateProgram_loop a stmts results = Panic.
Proof.
  induction stmts as [|st stmts IH]; intros results Hin; [by apply elem_of_nil in Hin|].
  destruct st as [cmd|]; [|done]. cbn [ValidateProgram_loop].
  apply elem_of_cons in Hin as [Hin|Hin]; [done|].
  pose proof (ValidateCommand_fuel a cmd).
  destruct (ValidateCommand a cmd); cbn [mbind Res_bind]; [by apply IH|done|done].
Qed.

(** ** Commands the table knows *)

Lemma ValidateCommand_keywordFree a cmd spec r :
  specOf a cmd = Some spec -> keywordFree cmd -> ValidateCommand a cmd = Ok r ->
  Errors r = countErrors cmd spec
             ++ typeMismatches cmd 0 (parser.Arguments cmd) (ValueTypes spec)
  /\ Warnings r = [].
Proof.
  unfold specOf, ValidateCommand. intros -> Hfree. cbv zeta.
  unfold validateOptions. rewrite validateOptions_loop_keywordFree by (done || lia).
  cbn [mbind Res_bind].
  match goal with
  | |- context [validateArgumentTypes cmd spec ?r0] => set (counted := r0)
  end.
  assert (Hcount : Errors counted = countErrors cmd spec /\ Warnings counted = []).
  { subst counted. unfold countErrors, argCount.
    destruct (_ <? MinArgs spec)%Z; destruct (negb _ && _); done. }
  destruct Hcount as [HEc HWc].
  destruct (validateArgumentTypes_loop_spec cmd spec (parser.Arguments cmd) 0 counted)
    as (HEt & HWt & _).
  fold (validateArgumentTypes cmd spec counted) in HEt, HWt.
  rewrite drop_0, HEc in HEt. rewrite HWc in HWt.
  destruct ((0 <=? KeyPosition spec)%Z && _).
  - destruct (parser.Arguments cmd !! _) as [arg|]; [|done].
    destruct (parser.Expression_String arg); [|done..].
    cbn [mbind Res_bind]. by intros [= <-].
  - by intros [= <-].
Qed.

Lemma known_command_errors a cmd spec r e :
  specOf a cmd = Some spec -> ValidateCommand a cmd = Ok r -> e ∈ Errors r ->
  Type_ e <> "UNKNOWN_COMMAND".
Proof.
  intros Hspec Hr He.
  destruct (ValidateCommand_known cmd spec a r Hspec Hr) as (es & HE & Hok & _).
  rewrite HE in He. apply elem_of_app in He as [He|He].
  { apply countErrors_elem in He as [[-> _]|[-> _]]; done. }
  apply elem_of_app in He as [He|He].
  { apply typeMismatches_kind in He. by rewrite He. }
  rewrite Forall_forall in Hok. apply Hok in He.
  apply optionErrorOk_kind in He as [->|[->|[->| ->]]]; done.
Qed.

Lemma AddCommandSpec_other a spec cmd :
  ToUpper (parser.Value (parser.Command cmd)) <> ToUpper (Name spec) ->
  ValidateCommand (AddCommandSpec a spec) cmd = ValidateCommand a cmd.
Proof.
  intros Hne. unfold ValidateCommand, AddCommandSpec. cbn [commands].
  by rewrite lookup_insert_ne.
Qed.

(** ** SET with an expiry *)

Lemma checkConflicts_unused cmd name conflicts : forall r,
  checkConflicts cmd name ∅ conflicts r = r.
Proof. induction conflicts as [|c cs IH]; intros r; [done|]. cbn [checkConflicts]. apply IH. Qed.

Lemma SET_spec :
  exists spec, commands New !! "SET" = Some spec
    /\ MinArgs spec = 2%Z /\ MaxArgs spec = (-1)%Z /\ KeyPosition spec = 0%Z
    /\ ValueTypes spec = ["key"; "value"]
    /\ forall o, o = "EX" \/ o = "PX" ->
         exists os, Options spec !! o = Some os
           /\ HasValue os = true /\ ValueType os = "integer".
Proof.
  eexists. split; [vm_compute; reflexivity|].
  split_and!; try reflexivity.
  intros o [-> | ->]; eexists; (split; [vm_compute; reflexivity|]); by split.
Qed.

Lemma validateOptions_loop_skip f cmd spec i u r arg :
  parser.Arguments cmd !! i = Some arg ->
  parser.Expression_NodeType arg <> parser.TKeywordExpression ->
  validateOptions_loop (S f) cmd spec i u r = validateOptions_loop f cmd spec (i + 1) u r.
Proof.
  intros Harg Hk. cbn [validateOptions_loop]. rewrite Harg.
  change "KeywordExpression" with (parser.NodeType_name parser.TKeywordExpression).
  by rewrite Type_eqb_NodeType, bool_decide_eq_false_2.
Qed.

Lemma validateOptions_loop_end f cmd spec i u r :
  parser.Arguments cmd !! i = None ->
  validateOptions_loop (S f) cmd spec i u r = Ok r.
Proof. intros Harg. cbn [validateOptions_loop]. by rewrite Harg. Qed.

Lemma validateOptions_loop_value f cmd spec i u r t kw os v :
  parser.Arguments cmd !! i = Some (parser.KeywordExpression t kw) ->
  Options spec !! ToUpper kw = Some os -> HasValue os = true ->
  parser.Arguments cmd !! (i + 1) = Some v ->
  validateOptions_loop (S f) cmd spec i u r
  = (result ← validateOptionValue (ToUpper kw) os v
                (checkConflicts cmd (ToUpper kw) u (Conflicts os) r);
     validateOptions_loop f cmd spec (i + 1 + 1) (<[ToUpper kw := true]> u) result).
Proof.
  intros Harg Hos Hhas Hv. cbn [validateOptions_loop]. rewrite Harg.
  change (String.eqb (parser.Expression_Type (parser.KeywordExpression t kw))
            "KeywordExpression") with true. cbv iota.
  cbn [parser.Expression_String mbind Res_bind]. cbv zeta. rewrite Hos, Hhas, Hv.
  pose proof (lookup_lt_Some _ _ _ Hv) as Hlen.
  by rewrite (proj2 (Nat.leb_gt _ _)) by lia.
Qed.

Lemma ValidateCommand_SET_expiry cmd n :
  setWithExpiry cmd n ->
  exists r, ValidateCommand New cmd = Ok r /\ (Valid r = true <-> (0 < n)%Z).
Proof.
  intros (Hname & k & v & t & kw & t' & Hargs & Hk & Hv & Hkw).
  destruct SET_spec as (spec & Hspec & Hmin & Hmax & Hpos & Htypes & Hopts).
  destruct (Hopts (ToUpper kw) Hkw) as (os & Hos & Hhas & Hty).
  unfold ValidateCommand. rewrite Hname, Hspec. cbv zeta.
  rewrite Hmin, Hmax, Hpos.
  set (r0 := {| Valid := true; Errors := []; Warnings := []; CommandInfo := ∅ |}).
  assert (Hcount : (if (Z.of_nat (length (parser.Arguments cmd)) <? 2)%Z
                    then addError r0
                           ("Too few arguments. Expected at least " +:+ itoa 2 +:+ ", got "
                            +:+ itoa (Z.of_nat (length (parser.Arguments cmd))))
                           "SET" "INSUFFICIENT_ARGS"
                    else r0) = r0) by (by rewrite Hargs).
  rewrite Hcount. change (negb (-1 =? -1)%Z) with false. cbn [andb]. cbv iota.
  assert (Hkey : accepts "key" (parser.Expression_NodeType k) = true
                 /\ parser.Expression_NodeType k <> parser.TKeywordExpression
                 /\ exists key, parser.Expression_String k = Ok key).
  { destruct k; try discriminate Hk; split_and!; try done; by eexists. }
  destruct Hkey as (Hacc & Hkk & key & Hrender).
  assert (Htypes0 : validateArgumentTypes cmd spec r0 = r0).
  { unfold validateArgumentTypes. rewrite Hargs. cbn [validateArgumentTypes_loop].
    rewrite Htypes. cbn [lookup list_lookup].
    rewrite !checkArgumentType_accepts, Hacc. reflexivity. }
  rewrite Htypes0. unfold validateOptions.
  assert (Hlen : length (parser.Arguments cmd) = 4) by (by rewrite Hargs).
  rewrite Hlen.
  rewrite (validateOptions_loop_skip _ _ _ 0 _ _ k) by (by rewrite ?Hargs).
  rewrite (validateOptions_loop_skip _ _ _ 1 _ _ v) by (by rewrite ?Hargs).
  rewrite (validateOptions_loop_value _ _ _ 2 _ _ t kw os (parser.IntegerLiteral t' n))
    by (by rewrite ?Hargs).
  rewrite checkConflicts_unused.
  assert (Hvalue : validateOptionValue (ToUpper kw) os (parser.IntegerLiteral t' n) r0
                   = Ok (if (n <=? 0)%Z
                         then addError r0 ("Expiration time must be positive, got " +:+ itoa n)
                                "unknown" "INVALID_VALUE_RANGE"
                         else r0)).
  { unfold validateOptionValue. rewrite Hty. cbv zeta.
    change (String.eqb "integer" "integer") with true. cbv iota.
    change (String.eqb (parser.Expression_Type (parser.IntegerLiteral t' n)) "IntegerLiteral")
      with true. cbn [negb]. cbv iota.
    assert (Hname' : String.eqb (ToUpper kw) "EX" || String.eqb (ToUpper kw) "PX" = true)
      by (by destruct Hkw as [-> | ->]).
    rewrite Hname'. cbn [andb]. by destruct (n <=? 0)%Z. }
  rewrite Hvalue. cbn [mbind Res_bind].
  rewrite validateOptions_loop_end by (by rewrite Hargs).
  cbn [mbind Res_bind]. change ((0 <=? 0)%Z && (0 <? Z.of_nat 4)%Z) with true. cbv iota.
  rewrite Hargs. change (Z.to_nat 0) with 0. cbn [lookup list_lookup].
  rewrite Hrender. cbn [mbind Res_bind]. eexists. split; [reflexivity|].
  destruct (Z.leb_spec n 0); cbn [setInfo addError Valid r0]; split; (done || lia).
Qed.

(** ** Programs without nil commands *)

Lemma ValidateProgram_loop_spec a stmts : forall results all,
  ValidateProgram_loop a stmts results = Ok all <->
  exists rs, all = results ++ rs /\ Forall2 (validates a) stmts rs.
Proof.
  induction stmts as [|st stmts IH]; intros results all; cbn [ValidateProgram_loop].
  - split.
    + intros [= <-]. exists []. by rewrite app_nil_r.
    + intros (rs & -> & Hall). apply Forall2_nil_inv_l in Hall as ->.
      by rewrite app_nil_r.
  - destruct st as [cmd|].
    + destruct (ValidateCommand a cmd) as [r| |] eqn:Hr; cbn [mbind Res_bind].
      * rewrite IH. split.
        -- intros (rs & -> & Hall). exists (r :: rs). split; [by rewrite <- app_assoc|].
           constructor; [by exists cmd|done].
        -- intros (rs & -> & Hall).
           apply Forall2_cons_inv_l in Hall as (r' & rs' & (cmd' & [= <-] & Hr') & Hall & ->).
           rewrite Hr in Hr'. injection Hr' as <-.
           exists rs'. by rewrite <- app_assoc.
      * split; [done|]. intros (rs & _ & Hall).
        apply Forall2_cons_inv_l in Hall as (r' & rs' & (cmd' & [= <-] & Hr') & _).
        congruence.
      * split; [done|]. intros (rs & _ & Hall).
        apply Forall2_cons_inv_l in Hall as (r' & rs' & (cmd' & [= <-] & Hr') & _).
        congruence.
    + split; [done|]. intros (rs & _ & Hall).
      by apply Forall2_cons_inv_l in Hall as (r' & rs' & (cmd' & [=] & _) & _).
Qed.

(** ** Rendering and nil pointers *)

Lemma Expression_String_holdsNil e :
  match parser.Expression_String e with
  | Ok _ => holdsNil e = false
  | Panic => holdsNil e = true
  | OutOfFuel => False
  end.
Proof.
  induction e as [i|t v|t v|t v|t v|t v|es ee IHs IHe|o ov IHo IHv|ty]
    using parser.Expression_induction; cbn [parser.Expression_String holdsNil]; try done.
  - destruct (parser.Expression_String es); [|by rewrite IHs|done].
    destruct (parser.Expression_String ee); cbn [mbind Res_bind];
      [by rewrite IHs, IHe|by rewrite IHe, orb_true_r|done].
  - destruct ov as [ov|].
    + destruct (parser.Expression_String o); [|by rewrite IHo|done].
      destruct (parser.Expression_String ov); cbn [mbind Res_bind];
        [by rewrite IHo, IHv|by rewrite IHv, orb_true_r|done].
    + destruct (parser.Expression_String o); [by rewrite IHo|by rewrite IHo|done].
Qed.

Lemma join_args_holdsNil args : forall i acc,
  match parser.join_args i args acc with
  | Ok _ => existsb holdsNil args = false
  | Panic => existsb holdsNil args = true
  | OutOfFuel => False
  end.
Proof.
  induction args as [|e args IH]; intros i acc; cbn [parser.join_args existsb]; [done|].
  pose proof (Expression_String_holdsNil e) as He.
  destruct (parser.Expression_String e) as [t| |]; cbn [mbind Res_bind];
    [|by rewrite He|done].
  rewrite He. cbn [orb]. apply IH.
Qed.

(** ** Commands without declared options *)

Lemma validateOptions_loop_no_options fuel cmd spec : forall i u r,
  Options spec = ∅ -> Forall notNil (parser.Arguments cmd) ->
  length (parser.Arguments cmd) - i < fuel ->
  exists r', validateOptions_loop fuel cmd spec i u r = Ok r'
    /\ Errors r' = Errors r
    /\ Warnings r'
       = Warnings r
         ++ map (unknownOptionWarning cmd) (omap keywordText (drop i (parser.Arguments cmd)))
    /\ CommandInfo r' = CommandInfo r.
Proof.
  induction fuel as [|f IH]; intros i u r Hopts Hall Hf; [lia|].
  cbn [validateOptions_loop].
  destruct (parser.Arguments cmd !! i) as [arg|] eqn:Harg.
  2: { apply lookup_ge_None in Harg. exists r. rewrite drop_ge by done.
       cbn [omap list_omap map]. by rewrite app_nil_r. }
  pose proof (lookup_lt_Some _ _ _ Harg) as Hi.
  rewrite (drop_S _ _ _ Harg). cbn [omap list_omap].
  assert (Hnil : notNil arg).
  { rewrite Forall_lookup in Hall. by eapply Hall. }
  change "KeywordExpression" with (parser.NodeType_name parser.TKeywordExpression).
  rewrite Type_eqb_NodeType.
  destruct arg as [id|t v|t v|t v|t v|t v|es ee|o ov|ty]; try done;
    cbn [parser.Expression_NodeType keywordText];
    try (rewrite bool_decide_eq_false_2 by done;
         replace (i + 1) with (S i) by lia; apply IH; (done || lia)).
  rewrite bool_decide_eq_true_2 by done.
  cbn [parser.Expression_String mbind Res_bind]. cbv zeta.
  rewrite Hopts, lookup_empty.
  destruct (IH (i + 1) u (addWarning r (unknownOptionWarning cmd v)) Hopts Hall ltac:(lia))
    as (r' & Hloop & HE & HW & HC).
  exists r'. split; [exact Hloop|]. split_and!; [done| |done].
  rewrite HW. cbn [addWarning Warnings map].
  replace (i + 1) with (S i) by lia. by rewrite <- app_assoc.
Qed.

Lemma ValidateCommand_no_options a cmd spec :
  specOf a cmd = Some spec -> Options spec = ∅ ->
  Forall parsedNode (parser.Arguments cmd) ->
  exists r, ValidateCommand a cmd = Ok r
    /\ Errors r = countErrors cmd spec
                  ++ typeMismatches cmd 0 (parser.Arguments cmd) (ValueTypes spec)
    /\ Warnings r = map (unknownOptionWarning cmd) (omap keywordText (parser.Arguments cmd)).
Proof.
  unfold specOf, ValidateCommand. intros -> Hopts Hnodes. cbv zeta.
  assert (Hall : Forall notNil (parser.Arguments cmd)).
  { eapply Forall_impl; [exact Hnodes|]. by intros []. }
  unfold validateOptions.
  match goal with
  | |- context [validateArgumentTypes cmd spec ?r0] => set (counted := r0)
  end.
  assert (Hcount : Errors counted = countErrors cmd spec /\ Warnings counted = []).
  { subst counted. unfold countErrors, argCount.
    destruct (_ <? MinArgs spec)%Z; destruct (negb _ && _); done. }
  destruct Hcount as [HEc HWc].
  destruct (validateArgumentTypes_loop_spec cmd spec (parser.Arguments cmd) 0 counted)
    as (HEt & HWt & _).
  fold (validateArgumentTypes cmd spec counted) in HEt, HWt.
  rewrite drop_0, HEc in HEt. rewrite HWc in HWt.
  destruct (validateOptions_loop_no_options (S (length (parser.Arguments cmd))) cmd spec 0 ∅
              (validateArgumentTypes cmd spec counted) Hopts Hall ltac:(lia))
    as (ro & -> & HE & HW & _).
  rewrite drop_0, HWt in HW. rewrite HEt in HE. cbn [mbind Res_bind].
  destruct ((0 <=? KeyPosition spec)%Z && _) eqn:Hkey; [|by eexists].
  apply andb_true_iff in Hkey as [H0%Z.leb_le Hlt%Z.ltb_lt].
  destruct (lookup_lt_is_Some_2 (parser.Arguments cmd) (Z.to_nat (KeyPosition spec)))
    as [arg Harg]; [lia|].
  rewrite Harg.
  assert (Hrender : exists key, parser.Expression_String arg = Ok key).
  { rewrite Forall_lookup in Hnodes. specialize (Hnodes _ _ Harg).
    pose proof (Expression_String_holdsNil arg) as Hs.
    destruct (parser.Expression_String arg) as [key| |]; [by eexists| |done].
    exfalso. clear -Hnodes Hs.
    induction arg as [| | | | | |es ee IHs IHe|o ov _ _|ty]
      using parser.Expression_induction; cbn [parsedNode holdsNil] in *; try done.
    destruct Hnodes as [H1 H2]. apply orb_true_iff in Hs as [Hs|Hs]; auto. }
  destruct Hrender as [key ->]. cbn [mbind Res_bind]. by eexists.
Qed.

(** * Proofs: the tokens of an input *)

Lemma lexNumber_split s lit r : lexNumber s = (lit, r) -> s = lit +:+ r.
Proof.
  unfold lexNumber.
  assert (Hs : exists sign s1,
            match s with
            | String c s' => if Ascii.eqb c "-" then (String c EmptyString, s')
                             else (EmptyString, s)
            | EmptyString => (EmptyString, s)
            end = (sign, s1) /\ s = sign +:+ s1).
  { destruct s as [|d s']; [by exists EmptyString, EmptyString|].
    destruct (Ascii.eqb d "-"); eexists _, _; split; reflexivity. }
  destruct Hs as (sign & s1 & -> & ->).
  destruct (sspan isDigit s1) as [d1 s2] eqn:Hd1.
  apply sspan_spec in Hd1 as (-> & _).
  destruct s2 as [|c0 s3]; [intros [= <- <-]; by rewrite !append_assoc|].
  destruct (_ && _).
  - destruct (sspan isDigit s3) as [d2 s4] eqn:Hd2.
    apply sspan_spec in Hd2 as (-> & _). intros [= <- <-].
    by rewrite !append_assoc, ?append_cons, ?append_assoc.
  - intros [= <- <-]. by rewrite !append_assoc.
Qed.

(** The token [lexOne] reads is never a SPACE token, and unless it is a
    string or the end of the input its literal is the input as it stands
    after the white space. *)
Lemma lexOne_shape s t lit r :
  lexOne s = Ok (t, lit, r) ->
  t <> lexer.SPACE
  /\ (t <> lexer.STRING -> t <> lexer.EOF -> t <> lexer.ILLEGAL ->
      exists ws, s = ws +:+ lit +:+ r /\ sforall isSpace ws = true)
  /\ (t = lexer.ILLEGAL ->
      exists ws c, s = ws +:+ String c r /\ sforall isSpace ws = true
        /\ lit = string_of_byte c).
Proof.
  unfold lexOne. destruct (sspan isSpace s) as [ws s0] eqn:Hws.
  apply sspan_spec in Hws as (-> & Hws & _). cbn [snd].
  destruct s0 as [|c s]; [by intros [= <- <- <-]|]. cbv zeta.
  set (post := t <> lexer.SPACE
    /\ (t <> lexer.STRING -> t <> lexer.EOF -> t <> lexer.ILLEGAL ->
        exists ws', ws +:+ String c s = ws' +:+ lit +:+ r /\ sforall isSpace ws' = true)
    /\ (t = lexer.ILLEGAL ->
        exists ws' c', ws +:+ String c s = ws' +:+ String c' r
          /\ sforall isSpace ws' = true /\ lit = string_of_byte c')).
  assert (Hnum : lexNumberToken (String c s) = Ok (t, lit, r) -> post).
  { unfold lexNumberToken. destruct (lexNumber (String c s)) as [lit' r'] eqn:Hn.
    intros [= <- <- <-]. split; [by destruct (Contains lit' ".")|]. split.
    - intros _ _ _. exists ws. by rewrite (lexNumber_split _ _ _ Hn).
    - by destruct (Contains lit' "."). }
  assert (Hquoted : forall q, lexQuoted q s = Ok (t, lit, r) -> post).
  { intros q. unfold lexQuoted. destruct (quotedWalk q s) as [[b r']|]; [|done].
    by intros [= <- <- <-]. }
  assert (Hsingle : forall t0, t0 <> lexer.SPACE -> t0 <> lexer.ILLEGAL ->
            string_of_byte c = String c EmptyString ->
            Ok (t0, string_of_byte c, s) = Ok (t, lit, r) -> post).
  { intros t0 Ht0 Hi Hc [= <- <- <-]. split; [done|]. split; [|done].
    intros _ _ _. exists ws. by rewrite Hc. }
  repeat match goal with
  | |- (if Ascii.eqb c ?b then _ else _) = _ -> _ =>
      let E := fresh "E" in
      destruct (Ascii.eqb c b) eqn:E;
      [apply Ascii.eqb_eq in E;
       first [ solve [apply Hquoted]
             | solve [apply Hsingle; [done|done|by rewrite E]]
             | idtac ]|]
  end.
  - destruct (isDigit (shead s)); [apply Hnum|].
    apply Hsingle; [done|done|by rewrite E9].
  - by intros [= <- <- <-].
  - destruct (isLetter c).
    + destruct (sspan isIdentByte (String c s)) as [w r'] eqn:Hw.
      apply sspan_spec in Hw as (Hsplit & _). intros [= <- <- <-].
      pose proof (LookupIdent_kind (ToUpper w)) as Hkind. unfold post. split_and!.
      * intros E'. destruct Hkind as [H|H]; rewrite E' in H; done.
      * intros _ _ _. exists ws. by rewrite Hsplit.
      * intros E'. destruct Hkind as [H|H]; rewrite E' in H; done.
    + destruct (isDigit c); [apply Hnum|].
      intros [= <- <- <-]. split; [done|]. split; [done|].
      intros _. by exists ws, c.
Qed.

(** ** TokenizeCommand *)

Section Tokenize.
Import lexer.

Lemma TokenizeCommand_loop_spec fuel : forall l tokens,
  wfLexer l -> remaining l < fuel ->
  match TokenizeCommand_loop fuel l tokens with
  | Ok all =>
      exists body eof, all = tokens ++ body ++ [eof]
        /\ Type_ eof = EOF
        /\ Forall (fun tok => Type_ tok <> EOF /\ Type_ tok <> SPACE) body
        /\ length body <= remaining l
  | Panic => True
  | OutOfFuel => False
  end.
Proof.
  induction fuel as [|f IH]; intros l tokens Hwf Hf; [lia|].
  cbn [TokenizeCommand_loop].
  pose proof (NextToken_lexOne l Hwf) as Has. unfold lexesAs in Has.
  destruct (lexOne (rest l)) as [[[ty lit] s]| |] eqn:Hlex; [|by rewrite Has|done].
  destruct Has as (tok & l' & -> & Hty & Hlit & Hwf' & Hin & Hrest).
  cbn [mbind Res_bind].
  destruct (lexOne_shape _ _ _ _ Hlex) as [Hspace _].
  pose proof (lexOne_progress _ _ _ _ Hlex) as [_ Hlt].
  rewrite <- Hrest, !rest_length in Hlt.
  destruct (decide (Type_ tok = EOF)) as [Heof|Hne].
  { exists [], tok. split_and!; [done|done|done|cbn; lia]. }
  destruct (decide (Type_ tok <> SPACE)) as [_|E]; [|exfalso; apply E; congruence].
  specialize (Hlt ltac:(congruence)).
  specialize (IH l' (tokens ++ [tok]) Hwf' ltac:(lia)).
  destruct (TokenizeCommand_loop f l' (tokens ++ [tok])) as [all| |]; [|done..].
  destruct IH as (body & eof & -> & Heof & Hbody & Hlen).
  exists (tok :: body), eof. split_and!.
  - by rewrite <- !app_assoc.
  - done.
  - apply Forall_cons_2; [split; congruence|done].
  - cbn [length]. lia.
Qed.

End Tokenize.

(** ** Quoted strings *)

Lemma quotedWalk_closed q v x :
  sforall (stringByte q) v = true ->
  quotedWalk q (v +:+ String q x) = Some (v, x).
Proof.
  intros Hv. induction v as [|c v IH].
  - rewrite append_nil_l. cbn [quotedWalk]. by rewrite Ascii.eqb_refl.
  - cbn [sforall] in Hv. apply andb_true_iff in Hv as [Hc Hv].
    unfold stringByte in Hc. apply andb_true_iff in Hc as [Hc Hb].
    apply andb_true_iff in Hc as [Hcq Hn]. apply negb_true_iff in Hcq, Hn, Hb.
    rewrite append_cons. cbn [quotedWalk]. rewrite Hcq, Hn, Hb. by rewrite IH.
Qed.

Lemma quotedWalk_open q v :
  sforall (stringByte q) v = true -> quotedWalk q v = Some (v, EmptyString).
Proof.
  intros Hv. induction v as [|c v IH]; [done|].
  cbn [sforall] in Hv. apply andb_true_iff in Hv as [Hc Hv].
  unfold stringByte in Hc. apply andb_true_iff in Hc as [Hc Hb].
  apply andb_true_iff in Hc as [Hcq Hn]. apply negb_true_iff in Hcq, Hn, Hb.
  cbn [quotedWalk]. rewrite Hcq, Hn, Hb. by rewrite IH.
Qed.

Lemma quotedWalk_after_escape q v x w r :
  q = DQUOTE \/ q = SQUOTE ->
  sforall (stringByte q) v = true -> sforall (stringByte q) w = true ->
  x <> NUL ->
  quotedWalk q (v +:+ String BACKSLASH (String x (String q (w +:+ String q r))))
  = Some (v +:+ String BACKSLASH (String x (String q w)), r).
Proof.
  intros Hq Hv Hw Hx. induction v as [|c v IH].
  - rewrite !append_nil_l. cbn [quotedWalk].
    apply Ascii.eqb_neq in Hx. rewrite Hx.
    rewrite (quotedWalk_closed q w r Hw).
    by destruct Hq as [-> | ->].
  - cbn [sforall] in Hv. apply andb_true_iff in Hv as [Hc Hv].
    unfold stringByte in Hc. apply andb_true_iff in Hc as [Hc Hb].
    apply andb_true_iff in Hc as [Hcq Hn]. apply negb_true_iff in Hcq, Hn, Hb.
    rewrite !append_cons. cbn [quotedWalk]. rewrite Hcq, Hn, Hb. by rewrite IH.
Qed.

(** * Further properties of the lexer and the parser *)

(** Evaluates the arguments of a parsed example and checks each node. *)
Ltac stable_nodes :=
  match goal with
  | |- Forall stableNode ?l =>
      let x := eval vm_compute in l in change (Forall stableNode x)
  end;
  repeat first [apply Forall_cons_2 | apply Forall_nil_2];
  cbn [stableNode]; unfold patternStable;
  repeat match goal with |- _ /\ _ => split end;
  first [exact I | vm_compute; reflexivity].

(** X1. A command that [ParseCommand] builds without errors renders, with
    [RedisCommand.String], to a text that [ParseCommand] reads back
    without errors as the same command name and the same sequence of
    argument nodes, provided the text of every string literal can stand
    between double quotes, every pattern lexes back to the tokens of a
    pattern and every float survives its six decimals. *)
Theorem render_then_parse_round_trip input cmd :
  parser.ParseCommand input = Ok (Some cmd, []) ->
  Forall stableNode (parser.Arguments cmd) ->
  exists text cmd',
    parser.RedisCommand_String cmd = Ok text
    /\ parser.ParseCommand text = Ok (Some cmd', [])
    /\ sameCommand cmd cmd'.
Proof.
  intros Hparse Hstable. apply reparse_command; [|done].
  by apply (ParseCommand_post input cmd []).
Qed.

Lemma render_then_parse_round_trip_witness :
  exists text cmd',
    parser.RedisCommand_String (parsed "SET k 'v w' 1.5 ex -10 [a:*, 3] b:?") = Ok text
    /\ parser.ParseCommand text = Ok (Some cmd', [])
    /\ sameCommand (parsed "SET k 'v w' 1.5 ex -10 [a:*, 3] b:?") cmd'.
Proof.
  apply (render_then_parse_round_trip "SET k 'v w' 1.5 ex -10 [a:*, 3] b:?").
  - vm_compute. reflexivity.
  - stable_nodes.
Defined.

(** X2. Under the same conditions the rendered text is canonical: parsed
    and rendered again, it is the same text. *)
Theorem rendered_text_is_canonical input cmd :
  parser.ParseCommand input = Ok (Some cmd, []) ->
  Forall stableNode (parser.Arguments cmd) ->
  exists text cmd',
    parser.RedisCommand_String cmd = Ok text
    /\ parser.ParseCommand text = Ok (Some cmd', [])
    /\ parser.RedisCommand_String cmd' = Ok text.
Proof.
  intros Hparse Hstable.
  destruct (reparse_command cmd) as (text & cmd' & Htext & Hre & Hsame); [|done|].
  { by apply (ParseCommand_post input cmd []). }
  exists text, cmd'. split_and!; [done|done|].
  by rewrite (sameCommand_String cmd cmd').
Qed.

Lemma rendered_text_is_canonical_witness :
  exists text cmd',
    parser.RedisCommand_String (parsed "ZADD  board   10.25 'al' nx") = Ok text
    /\ parser.ParseCommand text = Ok (Some cmd', [])
    /\ parser.RedisCommand_String cmd' = Ok text.
Proof.
  apply (rendered_text_is_canonical "ZADD  board   10.25 'al' nx").
  - vm_compute. reflexivity.
  - stable_nodes.
Defined.

(** X3. [ParseCommand] returns on every input without a backslash: its
    loops end and nothing panics. *)
Theorem ParseCommand_returns_without_backslash input :
  Contains input BACKSLASH = false ->
  exists cmd errs, parser.ParseCommand input = Ok (cmd, errs).
Proof.
  intros Hplain. pose proof (ParseCommand_fuel input) as Hfuel.
  unfold parser.ParseCommand in *.
  destruct (safe_New input Hplain) as (p & Hnew & Hsafe).
  rewrite Hnew in *. cbn [mbind Res_bind] in *.
  pose proof (safeM_command (parser.parse_fuel input) p Hsafe) as Hcmd.
  destruct (parser.parseRedisCommand _ p) as [[cmd p']| |];
    [by eexists _, _|done|by destruct Hfuel].
Qed.

Lemma ParseCommand_returns_without_backslash_witness :
  exists cmd errs, parser.ParseCommand "SET 'k' [1, 2] , )" = Ok (cmd, errs).
Proof.
  apply (ParseCommand_returns_without_backslash "SET 'k' [1, 2] , )"). reflexivity.
Defined.

(** X4. [ParseCommands] returns on every input without a backslash. *)
Theorem ParseCommands_returns_without_backslash input :
  Contains input BACKSLASH = false ->
  exists program errs, parser.ParseCommands input = Ok (program, errs).
Proof.
  intros Hplain. pose proof (ParseCommands_fuel input) as Hfuel.
  unfold parser.ParseCommands, parser.ParseProgram in *.
  destruct (safe_New input Hplain) as (p & Hnew & Hsafe).
  rewrite Hnew in *. cbn [mbind Res_bind] in *. rewrite bind_unfold in *.
  pose proof (safeM_program_loop (parser.parse_fuel input) [] p Hsafe) as Hloop.
  destruct (parser.ParseProgram_loop _ [] p) as [[stmts p']| |];
    [by eexists _, _|done|by destruct Hfuel].
Qed.

Lemma ParseCommands_returns_without_backslash_witness :
  exists program errs, parser.ParseCommands "GET a
] SET b 1" = Ok (program, errs).
Proof.
  apply (ParseCommands_returns_without_backslash "GET a
] SET b 1"). reflexivity.
Defined.




(** X6. When the first token of the input is not an identifier,
    [ParseCommand] returns no command and exactly one error, the
    [expected command identifier] error at the position of that token; so
    it does on an empty input, whose first token is the end of the
    input. *)
Theorem ParseCommand_without_command_name input first l1 second l2 :
  lexer.NextToken (lexer.New input) = Ok (first, l1) ->
  lexer.NextToken l1 = Ok (second, l2) ->
  lexer.Type_ first <> lexer.IDENT ->
  parser.ParseCommand input = Ok (None, [commandExpected first]).
Proof.
  intros H1 H2 Hfirst. unfold parser.ParseCommand.
  rewrite (New_tokens _ _ _ _ _ H1 H2). cbn [mbind Res_bind].
  unfold parser.parseRedisCommand. rewrite (bind_unfold parser.get_cur).
  cbn [parser.get_cur parser.curToken].
  by destruct (decide (lexer.Type_ first <> lexer.IDENT)).
Qed.

Lemma ParseCommand_without_command_name_witness :
  parser.ParseCommand "  "
  = Ok (None, [commandExpected {| lexer.Type_ := lexer.EOF; lexer.Literal := EmptyString;
                                  lexer.Position := 2; lexer.Line := 1;
                                  lexer.Column := 3 |}]).
Proof.
  refine (ParseCommand_without_command_name "  " _ _ _ _ _ _ _).
  - vm_compute. reflexivity.
  - vm_compute. reflexivity.
  - discriminate.
Defined.

(** * What an error-free parse builds *)

Lemma parsedNode_renders e : parsedNode e -> renders e.
Proof. apply render_node. Qed.

Lemma parsedNode_notNil e : parsedNode e -> notNil e.
Proof. by destruct e. Qed.

Lemma join_args_returns args : forall i acc,
  Forall renders args -> exists s, parser.join_args i args acc = Ok s.
Proof.
  induction args as [|e args IH]; intros i acc Hall; [by eexists|].
  apply Forall_cons in Hall as [[t Ht] Hall]. cbn [parser.join_args].
  rewrite Ht. cbn [mbind Res_bind]. by apply IH.
Qed.

(** X7. In a command [ParseCommand] builds without errors, the command
    name is a word (a letter or underscore, then letters, digits,
    underscores and hyphens) that spells no reserved keyword in any letter
    case, and so is every identifier argument; every keyword argument is a
    word that spells a keyword; every integer fits 64 bits; no node, at
    any depth of a range, is a nil pointer or an OptionExpression; and no
    pattern is followed by an identifier or another pattern, which the
    parser would have merged into it. *)
Theorem error_free_parse_is_well_formed input cmd :
  parser.ParseCommand input = Ok (Some cmd, []) -> parsedCommand cmd.
Proof. intros Hparse. by apply (ParseCommand_post input cmd []). Qed.

Lemma error_free_parse_is_well_formed_witness :
  parsedCommand (parsed "ZRANGE board [0, -1] user:* withscores").
Proof.
  apply (error_free_parse_is_well_formed "ZRANGE board [0, -1] user:* withscores").
  vm_compute. reflexivity.
Defined.

(** X8. What the handler of the analyze request calls on a command parsed
    without errors returns: [RedisCommand.String] renders it,
    [ValidateCommand] gives a result for every table of commands, and
    [GetCommandInfo] gives the name, the number and the kinds of the
    arguments, the keyword arguments as written, whether the first
    argument is an identifier or a string and whether some argument is a
    string or a number. *)
Theorem analyze_calls_return input cmd a :
  parser.ParseCommand input = Ok (Some cmd, []) ->
  (exists text, parser.RedisCommand_String cmd = Ok text)
  /\ (exists result, semantic.ValidateCommand a cmd = Ok result)
  /\ (exists info, GetCommandInfo (Some cmd) = Ok info /\ describes info cmd).
Proof.
  intros Hparse.
  destruct (ParseCommand_post input cmd [] Hparse) as [_ Hcmd].
  destruct (Hcmd eq_refl) as (_ & _ & Hnodes & _).
  assert (Hrenders : Forall renders (parser.Arguments cmd)).
  { eapply Forall_impl; [exact Hnodes|]. apply parsedNode_renders. }
  split_and!.
  - unfold parser.RedisCommand_String.
    destruct (join_args_returns _ 0 EmptyString Hrenders) as [s ->]. by eexists.
  - by apply ValidateCommand_returns.
  - apply GetCommandInfo_spec. eapply Forall_impl; [exact Hnodes|].
    apply parsedNode_notNil.
Qed.

Lemma analyze_calls_return_witness :
  (exists text, parser.RedisCommand_String (parsed "SET k 'v' EX 10") = Ok text)
  /\ (exists result, semantic.ValidateCommand semantic.New (parsed "SET k 'v' EX 10") = Ok result)
  /\ (exists info, GetCommandInfo (Some (parsed "SET k 'v' EX 10")) = Ok info
        /\ describes info (parsed "SET k 'v' EX 10")).
Proof.
  apply (analyze_calls_return "SET k 'v' EX 10"). vm_compute. reflexivity.
Defined.

(** * Further properties of the validator *)

(** X9. [ValidateProgram] panics on every program that holds a nil
    command, the statement [ParseProgram] adds for a statement that does
    not begin with an identifier: the type assertion of the loop succeeds
    on the nil pointer and [ValidateCommand] reads its fields. *)
Theorem ValidateProgram_panics_on_nil_command a program :
  parser.NilRedisCommand ∈ parser.Statements program ->
  semantic.ValidateProgram a program = Panic.
Proof. intros Hin. unfold semantic.ValidateProgram. by apply ValidateProgram_loop_nil. Qed.

Lemma ValidateProgram_panics_on_nil_command_witness :
  semantic.ValidateProgram semantic.New
    {| parser.Statements := [parser.Stmt (parsed "GET a"); parser.NilRedisCommand] |}
  = Panic.
Proof.
  apply ValidateProgram_panics_on_nil_command.
  cbn [parser.Statements]. apply list_elem_of_further, list_elem_of_here.
Defined.

(** X10. The flag of a validation result says whether the result holds
    no error: warnings and command information never clear it. *)
Theorem valid_iff_no_errors a cmd result :
  semantic.ValidateCommand a cmd = Ok result ->
  semantic.Valid result = true <-> semantic.Errors result = [].
Proof. apply consistent_ValidateCommand. Qed.

Lemma valid_iff_no_errors_witness :
  exists result,
    semantic.ValidateCommand semantic.New (parsed "SET k v bogus") = Ok result
    /\ (semantic.Valid result = true <-> semantic.Errors result = []).
Proof.
  eexists. split; [vm_compute; reflexivity|].
  apply (valid_iff_no_errors semantic.New (parsed "SET k v bogus")).
  vm_compute. reflexivity.
Defined.

(** X11. For a command the table knows and that has no keyword argument,
    the errors of [ValidateCommand] are exactly the argument-count errors
    followed by one TYPE_MISMATCH for each argument of a kind its declared
    category does not accept, in order, and there is no warning. *)
Theorem errors_of_a_command_without_keywords a cmd spec result :
  specOf a cmd = Some spec -> keywordFree cmd ->
  semantic.ValidateCommand a cmd = Ok result ->
  semantic.Errors result
  = countErrors cmd spec
    ++ typeMismatches cmd 0 (parser.Arguments cmd) (semantic.ValueTypes spec)
  /\ semantic.Warnings result = [].
Proof. apply ValidateCommand_keywordFree. Qed.

Lemma errors_of_a_command_without_keywords_witness :
  exists spec result,
    specOf semantic.New (parsed "HGET h 5 extra") = Some spec
    /\ semantic.ValidateCommand semantic.New (parsed "HGET h 5 extra") = Ok result
    /\ semantic.Errors result
       = countErrors (parsed "HGET h 5 extra") spec
         ++ typeMismatches (parsed "HGET h 5 extra") 0
              (parser.Arguments (parsed "HGET h 5 extra")) (semantic.ValueTypes spec)
    /\ semantic.Warnings result = [].
Proof.
  eexists _, _. split; [vm_compute; reflexivity|]. split; [vm_compute; reflexivity|].
  apply (errors_of_a_command_without_keywords semantic.New (parsed "HGET h 5 extra")).
  - vm_compute. reflexivity.
  - unfold keywordFree.
    match goal with
    | |- Forall _ ?l => let x := eval vm_compute in l in change l with x
    end.
    repeat first [apply Forall_cons_2 | apply Forall_nil_2]; discriminate.
  - vm_compute. reflexivity.
Defined.

(** X12. [SET key value EX n] and [SET key value PX n], in any letter
    case, are valid exactly when [n] is positive. *)
Theorem SET_expiry_must_be_positive cmd n :
  setWithExpiry cmd n ->
  exists result,
    semantic.ValidateCommand semantic.New cmd = Ok result
    /\ (semantic.Valid result = true <-> (0 < n)%Z).
Proof. apply ValidateCommand_SET_expiry. Qed.

Lemma SET_expiry_must_be_positive_witness :
  exists result,
    semantic.ValidateCommand semantic.New (parsed "set session 'tok' px -250") = Ok result
    /\ (semantic.Valid result = true <-> (0 < -250)%Z).
Proof.
  apply (SET_expiry_must_be_positive (parsed "set session 'tok' px -250")).
  split; [reflexivity|]. eexists _, _, _, _, _.
  split; [vm_compute; reflexivity|]. split; [reflexivity|]. split; [discriminate|].
  right. reflexivity.
Defined.

(** X13. After [AddCommandSpec] with a name of ASCII text, a command
    whose name, of ASCII text too, is the added name in any letter case is
    a known command, and every other such command is validated as
    before. *)
Theorem AddCommandSpec_registers a spec cmd result :
  asciiText (semantic.Name spec) = true ->
  asciiText (parser.Value (parser.Command cmd)) = true ->
  semantic.ValidateCommand (semantic.AddCommandSpec a spec) cmd = Ok result ->
  if decide (ToUpper (parser.Value (parser.Command cmd)) = ToUpper (semantic.Name spec))
  then ~ hasError "UNKNOWN_COMMAND" result
  else semantic.ValidateCommand a cmd = Ok result.
Proof.
  intros _ _ Hr. destruct (decide _) as [Heq|Hne].
  - intros (e & He & Hty).
    apply (known_command_errors (semantic.AddCommandSpec a spec) cmd spec result e);
      [|done..].
    unfold specOf, semantic.AddCommandSpec. cbn [semantic.commands].
    rewrite Heq. apply lookup_insert_eq.
  - by rewrite <- (AddCommandSpec_other a spec cmd).
Qed.

Lemma AddCommandSpec_registers_witness :
  ~ hasError "UNKNOWN_COMMAND"
      {| semantic.Valid := true; semantic.Errors := []; semantic.Warnings := [];
         semantic.CommandInfo :=
           <["has_key" := semantic.VBool false]>
           (<["description" := semantic.VString "Ping the server"]>
           (<["name" := semantic.VString "PING"]> ∅)) |}.
Proof.
  refine (AddCommandSpec_registers semantic.New
            {| semantic.Name := "ping"; semantic.MinArgs := 0; semantic.MaxArgs := 1;
               semantic.KeyPosition := -1; semantic.ValueTypes := [];
               semantic.Options := ∅; semantic.Description := "Ping the server" |}
            (parsed "Ping") _ _ _ _).
  - reflexivity.
  - reflexivity.
  - vm_compute. reflexivity.
Defined.

(** * Further properties of the lexer *)

(** X14. [GetAllTokens] ends: on an input it does not panic on, it
    returns the tokens up to the first EOF token, which is the last of the
    list and the only EOF or SPACE token in it, and there are at most as
    many tokens before it as the input has bytes. *)
Theorem GetAllTokens_ends_with_EOF input :
  match lexer.GetAllTokens input with
  | Ok tokens =>
      exists body eof, tokens = body ++ [eof]
        /\ lexer.Type_ eof = lexer.EOF
        /\ Forall (fun tok => lexer.Type_ tok <> lexer.EOF
                              /\ lexer.Type_ tok <> lexer.SPACE) body
        /\ length body <= String.length input
  | Panic => True
  | OutOfFuel => False
  end.
Proof.
  unfold lexer.GetAllTokens, lexer.TokenizeCommand.
  destruct (New_spec input) as (Hwf & Hin & Hpos).
  pose proof (TokenizeCommand_loop_spec (lexer.loop_fuel (lexer.New input))
                (lexer.New input) [] Hwf) as Hloop.
  assert (Hrem : remaining (lexer.New input) = String.length input).
  { unfold remaining. rewrite Hin, Hpos. lia. }
  destruct (lexer.TokenizeCommand_loop _ _ []) as [all| |]; [|done|].
  - destruct Hloop as (body & eof & -> & Heof & Hbody & Hlen).
    { unfold lexer.loop_fuel. rewrite Hin, Hrem. lia. }
    exists body, eof. rewrite Hrem in Hlen. by split_and!.
  - apply Hloop. unfold lexer.loop_fuel. rewrite Hin, Hrem. lia.
Qed.

(** X15. [NextToken] never returns a SPACE token, and it loses no byte:
    unless the token is a string, an ILLEGAL token or the end of the
    input, the unread input was white space, then the literal of the
    token, then what is left to read.  An ILLEGAL token takes one byte
    after the white space, and its literal is [string(ch)] of that
    byte, which is the byte itself only below 0x80. *)
Theorem NextToken_reads_the_literal l tok l' :
  wfLexer l -> lexer.NextToken l = Ok (tok, l') ->
  lexer.Type_ tok <> lexer.SPACE
  /\ (lexer.Type_ tok <> lexer.STRING -> lexer.Type_ tok <> lexer.EOF ->
      lexer.Type_ tok <> lexer.ILLEGAL ->
      exists ws, rest l = ws +:+ lexer.Literal tok +:+ rest l'
        /\ sforall isSpace ws = true)
  /\ (lexer.Type_ tok = lexer.ILLEGAL ->
      exists ws c, rest l = ws +:+ String c (rest l')
        /\ sforall isSpace ws = true
        /\ lexer.Literal tok = string_of_byte c).
Proof.
  intros Hwf Hnext. pose proof (NextToken_lexOne l Hwf) as Has.
  unfold lexesAs in Has.
  destruct (lexOne (rest l)) as [[[ty lit] s]| |] eqn:Hlex; [|congruence|done].
  destruct Has as (tok0 & l0 & Hnext0 & Hty & Hlit & _ & _ & Hrest).
  rewrite Hnext in Hnext0. injection Hnext0 as <- <-.
  rewrite Hty, Hlit, Hrest. by apply lexOne_shape.
Qed.

Lemma NextToken_reads_the_literal_witness :
  lexer.IDENT <> lexer.SPACE
  /\ (lexer.IDENT <> lexer.STRING -> lexer.IDENT <> lexer.EOF ->
      lexer.IDENT <> lexer.ILLEGAL ->
      exists ws, "  GET k" = ws +:+ "GET" +:+ " k" /\ sforall isSpace ws = true)
  /\ (lexer.IDENT = lexer.ILLEGAL ->
      exists ws c, "  GET k" = ws +:+ String c " k"
        /\ sforall isSpace ws = true
        /\ "GET" = string_of_byte c).
Proof.
  refine (NextToken_reads_the_literal (lexer.New "  GET k")
            {| lexer.Type_ := lexer.IDENT; lexer.Literal := "GET"; lexer.Position := 2;
               lexer.Line := 1; lexer.Column := 3 |}
            {| lexer.input := "  GET k"; lexer.position := 5; lexer.readPosition := 6;
               lexer.ch := " "; lexer.line := 1; lexer.column := 6 |} _ _).
  - apply New_spec.
  - vm_compute. reflexivity.
Defined.

(** X16. [NextToken] classifies a word without regard to letter case and
    keeps its letters as written: in front of a word followed by a byte
    that cannot continue it, the token has the kind [LookupIdent] gives
    the uppercase word, and the word itself as literal. *)
Theorem NextToken_classifies_words l w x :
  wfLexer l -> rest l = w +:+ x ->
  identWord w = true -> isIdentByte (shead x) = false ->
  exists tok l',
    lexer.NextToken l = Ok (tok, l')
    /\ lexer.Type_ tok = lexer.LookupIdent (ToUpper w)
    /\ lexer.Literal tok = w /\ rest l' = x.
Proof.
  intros Hwf Hrest Hw Hx. pose proof (NextToken_lexOne l Hwf) as Has.
  unfold lexesAs in Has. rewrite Hrest in Has.
  assert (Hlex : lexOne (w +:+ x) = Ok (lexer.LookupIdent (ToUpper w), w, x)).
  { destruct w as [|c w]; [done|]. cbn [identWord] in Hw.
    apply andb_true_iff in Hw as [Hc Hw].
    rewrite append_cons, lexOne_letter by done. rewrite <- append_cons.
    rewrite sspan_app; [done| |done].
    cbn [sforall]. by rewrite isLetter_isIdentByte, Hw. }
  rewrite Hlex in Has. destruct Has as (tok & l' & Hnext & Hty & Hlit & _ & _ & Hr).
  by exists tok, l'.
Qed.

Lemma NextToken_classifies_words_witness :
  exists tok l',
    lexer.NextToken (lexer.New "WithScores)") = Ok (tok, l')
    /\ lexer.Type_ tok = lexer.LookupIdent (ToUpper "WithScores")
    /\ lexer.Literal tok = "WithScores" /\ rest l' = ")".
Proof.
  apply (NextToken_classifies_words (lexer.New "WithScores)") "WithScores" ")").
  - apply New_spec.
  - reflexivity.
  - reflexivity.
  - reflexivity.
Defined.

(** X17. The table of keywords and the names of the token kinds agree:
    [LookupIdent] gives a keyword kind exactly for the text that is the
    name [TokenType.String] gives that kind. *)
Theorem LookupIdent_agrees_with_names s t :
  isKeywordType t = true ->
  lexer.LookupIdent s = t <-> s = lexer.TokenType_String t.
Proof.
  intros Ht. split.
  - intros <-. by apply LookupIdent_name.
  - intros ->. by destruct t.
Qed.

Lemma LookupIdent_agrees_with_names_witness :
  lexer.LookupIdent "LIMIT" = lexer.LIMIT <-> "LIMIT" = lexer.TokenType_String lexer.LIMIT.
Proof. apply (LookupIdent_agrees_with_names "LIMIT" lexer.LIMIT). reflexivity. Defined.

(** * Programs *)

(** X18. [ValidateProgram] returns exactly when every statement of the
    program is a command that is not nil and that [ValidateCommand]
    returns on, and then it returns the results of [ValidateCommand] for
    the statements, in order. *)
Theorem ValidateProgram_returns_the_results a program results :
  semantic.ValidateProgram a program = Ok results <->
  Forall2 (validates a) (parser.Statements program) results.
Proof.
  unfold semantic.ValidateProgram. rewrite ValidateProgram_loop_spec. split.
  - by intros (rs & -> & Hall).
  - intros Hall. by exists results.
Qed.

(** X19. [RedisCommand.String] panics exactly on the commands that have
    an argument that is a nil pointer or holds one at some depth, the
    nodes [parseIntegerLiteral], [parseFloatLiteral] and
    [parseRangeExpression] return after an error; on every other command
    it returns. *)
Theorem RedisCommand_String_panics_on_nil cmd :
  match parser.RedisCommand_String cmd with
  | Ok _ => existsb holdsNil (parser.Arguments cmd) = false
  | Panic => existsb holdsNil (parser.Arguments cmd) = true
  | OutOfFuel => False
  end.
Proof.
  unfold parser.RedisCommand_String.
  pose proof (join_args_holdsNil (parser.Arguments cmd) 0 EmptyString) as H.
  by destruct (parser.join_args 0 (parser.Arguments cmd) EmptyString).
Qed.

(** X20. [ParseCommands] begins as [ParseCommand] does: when
    [ParseCommand] returns a command, the program of [ParseCommands] on
    the same input, unless a later statement makes the lexer panic, has
    that command as its first statement, and its errors begin with the
    errors of [ParseCommand]. *)
Theorem ParseCommands_begins_as_ParseCommand input cmd errs :
  parser.ParseCommand input = Ok (Some cmd, errs) ->
  match parser.ParseCommands input with
  | Ok (program, errs') =>
      exists more es,
        parser.Statements program = parser.Stmt cmd :: more /\ errs' = errs ++ es
  | Panic => True
  | OutOfFuel => False
  end.
Proof. apply ParseCommands_first. Qed.

Lemma ParseCommands_begins_as_ParseCommand_witness :
  match parser.ParseCommands "GET 1.
SET k v" with
  | Ok (program, errs') =>
      exists more es,
        parser.Statements program
        = parser.Stmt (parsed "GET 1.
SET k v") :: more
        /\ errs' = ["Parser error at line 1, column 6: unexpected token: ILLEGAL"] ++ es
  | Panic => True
  | OutOfFuel => False
  end.
Proof.
  apply (ParseCommands_begins_as_ParseCommand "GET 1.
SET k v"). vm_compute. reflexivity.
Defined.

(** X21. For a command whose entry in the table declares no option, every
    keyword among the arguments gives one [Unknown option] warning, in
    order, with the keyword in uppercase and the command name as written,
    and adds no error: the errors are the argument-count errors followed
    by the type mismatches. *)
Theorem keywords_of_a_command_without_options a cmd spec :
  specOf a cmd = Some spec -> semantic.Options spec = ∅ ->
  Forall parsedNode (parser.Arguments cmd) ->
  exists result,
    semantic.ValidateCommand a cmd = Ok result
    /\ semantic.Errors result
       = countErrors cmd spec
         ++ typeMismatches cmd 0 (parser.Arguments cmd) (semantic.ValueTypes spec)
    /\ semantic.Warnings result
       = map (unknownOptionWarning cmd) (omap keywordText (parser.Arguments cmd)).
Proof. apply ValidateCommand_no_options. Qed.

Lemma keywords_of_a_command_without_options_witness :
  exists spec result,
    specOf semantic.New (parsed "get foo nx") = Some spec
    /\ semantic.ValidateCommand semantic.New (parsed "get foo nx") = Ok result
    /\ semantic.Errors result
       = countErrors (parsed "get foo nx") spec
         ++ typeMismatches (parsed "get foo nx") 0
              (parser.Arguments (parsed "get foo nx")) (semantic.ValueTypes spec)
    /\ semantic.Warnings result = ["Unknown option 'NX' for command get"].
Proof.
  eexists _. 
  destruct (keywords_of_a_command_without_options semantic.New (parsed "get foo nx")
              ltac:(let x := eval vm_compute in (specOf semantic.New (parsed "get foo nx")) in
                    match x with Some ?sp => exact sp end))
    as (result & Hrun & HE & HW).
  - vm_compute. reflexivity.
  - vm_compute. reflexivity.
  - match goal with
    | |- Forall _ ?l => let x := eval vm_compute in l in change l with x
    end.
    repeat first [apply Forall_cons_2 | apply Forall_nil_2]; vm_compute; auto.
  - exists result. split; [vm_compute; reflexivity|]. split; [exact Hrun|].
    split; [exact HE|]. rewrite HW. vm_compute. reflexivity.
Defined.

(** X22. [NextToken] in front of a quoted string without backslash and
    without NUL returns a STRING token whose literal is the text between
    the quotes, and continues after the closing quote.  When the closing
    quote is missing, the token is the text up to the end of the input,
    and no error is reported. *)
Theorem NextToken_reads_quoted_strings l q v :
  wfLexer l -> q = DQUOTE \/ q = SQUOTE ->
  sforall (stringByte q) v = true ->
  (forall x, rest l = String q (v +:+ String q x) ->
     exists tok l',
       lexer.NextToken l = Ok (tok, l')
       /\ lexer.Type_ tok = lexer.STRING /\ lexer.Literal tok = v /\ rest l' = x)
  /\ (rest l = String q v ->
      exists tok l',
        lexer.NextToken l = Ok (tok, l')
        /\ lexer.Type_ tok = lexer.STRING /\ lexer.Literal tok = v
        /\ rest l' = EmptyString).
Proof.
  intros Hwf Hq Hv. pose proof (NextToken_lexOne l Hwf) as Has.
  unfold lexesAs in Has. split.
  - intros x Hrest. rewrite Hrest in Has.
    assert (Hlex : lexOne (String q (v +:+ String q x)) = Ok (lexer.STRING, v, x)).
    { destruct Hq as [-> | ->].
      - change (lexOne (String DQUOTE ?s)) with (lexQuoted DQUOTE s).
        unfold lexQuoted. by rewrite quotedWalk_closed.
      - change (lexOne (String SQUOTE ?s)) with (lexQuoted SQUOTE s).
        unfold lexQuoted. by rewrite quotedWalk_closed. }
    rewrite Hlex in Has. destruct Has as (tok & l' & Hnext & Hty & Hlit & _ & _ & Hr).
    by exists tok, l'.
  - intros Hrest. rewrite Hrest in Has.
    assert (Hlex : lexOne (String q v) = Ok (lexer.STRING, v, EmptyString)).
    { destruct Hq as [-> | ->].
      - change (lexOne (String DQUOTE ?s)) with (lexQuoted DQUOTE s).
        unfold lexQuoted. by rewrite quotedWalk_open.
      - change (lexOne (String SQUOTE ?s)) with (lexQuoted SQUOTE s).
        unfold lexQuoted. by rewrite quotedWalk_open. }
    rewrite Hlex in Has. destruct Has as (tok & l' & Hnext & Hty & Hlit & _ & _ & Hr).
    by exists tok, l'.
Qed.

Lemma NextToken_reads_quoted_strings_witness :
  (forall x, "'a b' c" = String SQUOTE ("a b" +:+ String SQUOTE x) ->
     exists tok l',
       lexer.NextToken (lexer.New "'a b' c") = Ok (tok, l')
       /\ lexer.Type_ tok = lexer.STRING /\ lexer.Literal tok = "a b" /\ rest l' = x)
  /\ ("'a b' c" = String SQUOTE "a b" ->
      exists tok l',
        lexer.NextToken (lexer.New "'a b' c") = Ok (tok, l')
        /\ lexer.Type_ tok = lexer.STRING /\ lexer.Literal tok = "a b"
        /\ rest l' = EmptyString).
Proof.
  apply (NextToken_reads_quoted_strings (lexer.New "'a b' c") SQUOTE "a b").
  - apply New_spec.
  - by right.
  - reflexivity.
Defined.

(** X23. The byte after an escaped byte is never looked at: when a quote
    follows an escape sequence directly, it does not close the string.
    The literal keeps that quote and runs on to the next one. *)
Theorem NextToken_quote_after_escape l q v x w r :
  wfLexer l -> q = DQUOTE \/ q = SQUOTE ->
  sforall (stringByte q) v = true -> sforall (stringByte q) w = true ->
  x <> NUL ->
  rest l = String q (v +:+ String BACKSLASH (String x (String q (w +:+ String q r)))) ->
  exists tok l',
    lexer.NextToken l = Ok (tok, l')
    /\ lexer.Type_ tok = lexer.STRING
    /\ lexer.Literal tok = v +:+ String BACKSLASH (String x (String q w))
    /\ rest l' = r.
Proof.
  intros Hwf Hq Hv Hw Hx Hrest. pose proof (NextToken_lexOne l Hwf) as Has.
  unfold lexesAs in Has. rewrite Hrest in Has.
  match type of Has with
  | match lexOne (String q ?s) with _ => _ end =>
      assert (Hlex : lexOne (String q s)
                     = Ok (lexer.STRING, v +:+ String BACKSLASH (String x (String q w)), r))
  end.
  { destruct Hq as [-> | ->].
    - change (lexOne (String DQUOTE ?s)) with (lexQuoted DQUOTE s).
      unfold lexQuoted. rewrite quotedWalk_after_escape; auto.
    - change (lexOne (String SQUOTE ?s)) with (lexQuoted SQUOTE s).
      unfold lexQuoted. rewrite quotedWalk_after_escape; auto. }
  rewrite Hlex in Has. destruct Has as (tok & l' & Hnext & Hty & Hlit & _ & _ & Hr).
  by exists tok, l'.
Qed.

Lemma NextToken_quote_after_escape_witness :
  exists tok l',
    lexer.NextToken
      (lexer.New (String DQUOTE ("a" +:+ String BACKSLASH
                    (String "n" (String DQUOTE (" b" +:+ String DQUOTE " c"))))))
    = Ok (tok, l')
    /\ lexer.Type_ tok = lexer.STRING
    /\ lexer.Literal tok = "a" +:+ String BACKSLASH (String "n" (String DQUOTE " b"))
    /\ rest l' = " c".
Proof.
  apply (NextToken_quote_after_escape
           (lexer.New (String DQUOTE ("a" +:+ String BACKSLASH
                         (String "n" (String DQUOTE (" b" +:+ String DQUOTE " c"))))))
           DQUOTE "a" "n"%char " b" " c").
  - apply New_spec.
  - by left.
  - reflexivity.
  - reflexivity.
  - discriminate.
  - reflexivity.
Defined.
